(** * socket-link: newline-framed JSON request/response over a stream socket

    A shallow embedding of [src/socket-link.ts] and the properties of its
    frame reader, error codec, id generator, service start-up and client
    call.

    Conventions of the embedding.
    - JavaScript values are the inductive [value]; an object is a finite map
      from property names to values ([gmap string value]).
    - Strings are byte strings (the UTF-8 text of the JavaScript string);
      the delimiter ["\n"] is the single byte 10.
    - A JavaScript number is kept as the exact decimal [m * 10^e] of the
      literal it was read from.  Counters and clock values are integers
      ([Z]); [count++] is written with the loss of precision that IEEE
      doubles have at [2^53].
    - Code that can throw returns an [outcome]; code that mutates an object
      takes the object's state and returns the new one. *)

From Stdlib Require Import ZArith Ascii String Lia.
From stdpp Require Import base strings list gmap.

Set Warnings "-register-all".
Local Open Scope string_scope.
Local Open Scope Z_scope.

(** ** JavaScript values *)

Inductive value : Type :=
| VUndefined
| VNull
| VBool (b : bool)
| VNum (m e : Z)                                (* the number m * 10^e *)
| VStr (s : string)
| VArr (elems : list value) (props : gmap string value)
                                                 (* an array and the named
                                                    properties assigned on it *)
| VObj (props : gmap string value).

Abbreviation object := (gmap string value).

(** [m * 10^e] read as a double is [0] exactly when its magnitude is at
    most [2^-1075], half the least subnormal. *)
Definition is_zero_number (m e : Z) : bool :=
  if m =? 0 then true
  else if 0 <=? e then false
  else Z.abs m * 2 ^ 1075 <=? 10 ^ (- e).

(** ToBoolean. *)
Definition truthy (v : value) : bool :=
  match v with
  | VUndefined | VNull => false
  | VBool b => b
  | VNum m e => negb (is_zero_number m e)
  | VStr s => negb (String.eqb s "")
  | VArr _ _ | VObj _ => true
  end.

(** [typeof v === 'object' && v !== null]. *)
Definition is_object (v : value) : bool :=
  match v with
  | VArr _ _ | VObj _ => true
  | _ => false
  end.

(** ** Error objects and thrown values *)

(** The classes of error object the program tells apart with [instanceof]:
    a built-in error class (named by the [name] on its prototype), and the
    two classes the module declares, neither of which sets [name]. *)
Inductive error_class : Type :=
| ErrorClass (name : string)
| ErrorResponseClass
| RemoteErrorClass.

Record JsError : Type := mkJsError {
  cls : error_class;
  own : gmap string value          (* own properties: message, stack, ... *)
}.

Definition proto_name (c : error_class) : string :=
  match c with
  | ErrorClass n => n
  | ErrorResponseClass | RemoteErrorClass => "Error"
  end.

(** Property read [e.k] on an error object, for the data properties the
    program reads: own properties first, then [Error.prototype]'s [name]
    and [message]. *)
Definition error_prop (e : JsError) (k : string) : value :=
  match own e !! k with
  | Some v => v
  | None =>
      if String.eqb k "name" then VStr (proto_name (cls e))
      else if String.eqb k "message" then VStr ""
      else VUndefined
  end.

Definition instanceof_ErrorResponse (e : JsError) : bool :=
  match cls e with ErrorResponseClass => true | _ => false end.

(** What [throw] can carry: an error object ([e instanceof Error]), or any
    other value together with what its [toString] member returns ([None]
    when the value has no such member). *)
Inductive thrown : Type :=
| ThrownError (e : JsError)
| ThrownValue (v : value) (toString : option string).

(** Errors raised by the engine itself.  The text of the message is the
    engine's. *)
Definition native_error (name message : string) : JsError :=
  mkJsError (ErrorClass name) {[ "message" := VStr message ]}.

Inductive outcome (A : Type) : Type :=
| Return (a : A)
| Throw (t : thrown).
Arguments Return {A} a.
Arguments Throw {A} t.

#[global] Instance outcome_ret : MRet outcome := fun _ a => Return a.
#[global] Instance outcome_bind : MBind outcome := fun _ _ f m =>
  match m with
  | Return a => f a
  | Throw t => Throw t
  end.

(** ** class ErrorResponse *)

(** [new ErrorResponse(msg, details)]: [details] is stored only when it is
    not [undefined]. *)
Definition ErrorResponse (msg : string) (details : value) (stack : string) : JsError :=
  let this := {[ "message" := VStr msg; "stack" := VStr stack ]} in
  mkJsError ErrorResponseClass
    (match details with
     | VUndefined => this
     | _ => <[ "details" := details ]> this
     end).

(** ** Number.prototype.toString(radix) on integers *)

Definition digit_char (d : Z) : ascii :=
  ascii_of_N (Z.to_N (if d <? 10 then 48 + d else 87 + d)).

(** The digits of [n >= 0] in base [radix >= 2], most significant first.
    [fuel] bounds the number of digits; [S (log2 n)] is always enough. *)
Fixpoint digits (fuel : nat) (radix n : Z) (acc : string) : string :=
  let acc' := String (digit_char (n mod radix)) acc in
  match fuel with
  | O => acc'
  | S fuel' => if n / radix =? 0 then acc' else digits fuel' radix (n / radix) acc'
  end.

Definition integer_text (radix n : Z) : string :=
  let body := digits (Z.to_nat (Z.log2 (Z.abs n))) radix (Z.abs n) "" in
  if n <? 0 then String "-" body else body.

Definition RangeError_radix : thrown :=
  ThrownError (native_error "RangeError" "toString() radix must be between 2 and 36").

(** [n.toString(radix)] for an integer [n] (of magnitude below [10^21], where
    the decimal rendering has no exponent part): a [RangeError] unless
    [2 <= radix <= 36]. *)
Definition Number_toString (n radix : Z) : outcome string :=
  if (radix <? 2) || (36 <? radix) then Throw RangeError_radix
  else Return (integer_text radix n).

(** [n++] leaves in the variable the double nearest to [n + 1]; from [0]
    upwards that is [n + 1] until [2^53], where it stays. *)
Definition js_succ (n : Z) : Z := if n <? 2 ^ 53 then n + 1 else n.

(** ** Id generator: counter *)

(** A [CounterIdGen] is a function object: the [radix] its closure captured
    and its [count] property. *)
Record CounterIdGen : Type := mkCounter {
  radix : Z;
  count : Z
}.

(** [counter(radix = 10)]. *)
Definition counter (radix : option Z) : CounterIdGen :=
  mkCounter (default 10 radix) 0.

(** One call [result(prefix = '', join = '.')] of the generator [result]:
    the value returned (or the exception) and the generator afterwards.
    [result.count++] is evaluated before [toString] is called. *)
Definition CounterIdGen_call (result : CounterIdGen) (prefix join : option string)
  : outcome string * CounterIdGen :=
  let prefix := default "" prefix in
  let join := default "." join in
  let n := count result in
  let result' := mkCounter (radix result) (js_succ n) in
  (text ← Number_toString n (radix result);
   mret ((if truthy (VStr prefix) then prefix +:+ join else "") +:+ text),
   result').

(** Generator objects live in a heap; an instance is its address there. *)
Abbreviation heap := (gmap nat CounterIdGen).

Definition new_counter (radix : option Z) (h : heap) : nat * heap :=
  let l := fresh (dom h) in (l, <[ l := counter radix ]> h).

(** Calling the instance at address [l]; [None] when nothing lives there. *)
Definition call_counter (l : nat) (prefix join : option string) (h : heap)
  : option (outcome string * heap) :=
  match h !! l with
  | Some g => let '(r, g') := CounterIdGen_call g prefix join in Some (r, <[ l := g' ]> h)
  | None => None
  end.

(** ** Error codec: asMessageError *)

(** [asMessageError(e, addStack = false)]. *)
Definition asMessageError (e : thrown) (addStack : bool) : object :=
  match e with
  | ThrownError e =>
      let response : object :=
        {[ "error" := error_prop e "message"; "type" := error_prop e "name" ]} in
      if instanceof_ErrorResponse e then <[ "details" := error_prop e "details" ]> response
      else if addStack then <[ "stack" := error_prop e "stack" ]> response
      else response
  | ThrownValue (VStr s) _ =>
      {[ "error" := VStr s; "type" := VStr "string" ]}
  | ThrownValue v toString =>
      match (if truthy v then toString else None) with
      | Some text => {[ "error" := VStr text; "type" := VStr "object"; "details" := v ]}
      | None => {[ "error" := VStr "unknown error"; "type" := VStr "unknown"; "details" := v ]}
      end
  end.

(** ** class RemoteError *)

(** [new RemoteError({error, stack, ...rest})].  The parameter is declared a
    [MessageError]: [error] a string, [stack] a string when it is there.  On
    such an argument the result is [Some] error object; on an argument
    outside that type ([None]) the texts are the engine's conversions, which
    are not part of the embedding.  [Object.assign] assigns the fields of
    [rest] one by one, so a field named [__proto__] goes to the setter of
    [Object.prototype] and makes no property: a primitive value is dropped,
    an object or null replaces the prototype of the failure, which is not
    part of the embedding either ([None]). *)
Definition RemoteError (m : object) : option JsError :=
  match m !! "error" with
  | Some (VStr error) =>
      let stack := default VUndefined (m !! "stack") in
      let rest : object := delete "stack" (delete "error" m) in
      (* super(error) *)
      let this : object := {[ "message" := VStr error ]} in
      (* this.stack = stack ? this.name + ': ' + stack : '' *)
      let name := proto_name RemoteErrorClass in
      stack' ← (if truthy stack
                then match stack with
                     | VStr s => Some (name +:+ ": " +:+ s)
                     | _ => None
                     end
                else Some "");
      let this := <[ "stack" := VStr stack' ]> this in
      (* Object.assign(this, rest) *)
      match rest !! "__proto__" with
      | Some (VObj _) | Some (VArr _ _) | Some VNull => None
      | _ => Some (mkJsError RemoteErrorClass (delete "__proto__" rest ∪ this))
      end
  | _ => None
  end.

(** ** JSON.parse

    The engine's parser, written out over the JSON grammar (ECMA-404) so that
    the definitions below run on concrete frames.  A failure is a
    [SyntaxError]; its message has the two shapes V8 has long used
    ("Unexpected end of JSON input", "Unexpected token c in JSON at position
    n"), and nothing proved below depends on that text. *)
Module JSON.

Definition presult (A : Type) : Type := (A * list ascii) + list ascii.
(* [inl (a, rest)]: parsed [a], [rest] follows; [inr rest]: failed where
   [rest] starts. *)

Notation "'parsed' p := m 'then' k" :=
  (match m with inl p => k | inr rest => inr rest end)
  (at level 10, p pattern, m at level 100, k at level 200, only parsing).

(** [ch c s]: [c] is the first character of [s]. *)
Definition ch (c : ascii) (s : string) : bool :=
  match s with
  | String d _ => Ascii.eqb c d
  | EmptyString => false
  end.

Definition code (c : ascii) : Z := Z.of_N (N_of_ascii c).

(** The double quote. *)
Definition is_quote (c : ascii) : bool := code c =? 34.

Definition is_ws (c : ascii) : bool :=
  let n := code c in (n =? 32) || (n =? 9) || (n =? 10) || (n =? 13).

Definition is_digit (c : ascii) : bool :=
  let n := code c in (48 <=? n) && (n <=? 57).

Fixpoint skip_ws (s : list ascii) : list ascii :=
  match s with
  | c :: r => if is_ws c then skip_ws r else s
  | [] => []
  end.

(** *** Numbers *)

(** Reads digits; returns their value appended to [acc], how many there
    were, and what follows. *)
Fixpoint read_digits (s : list ascii) (acc : Z) (n : Z) : Z * Z * list ascii :=
  match s with
  | c :: r => if is_digit c then read_digits r (10 * acc + (code c - 48)) (n + 1)
              else (acc, n, s)
  | [] => (acc, n, [])
  end.

Definition parse_exponent (s : list ascii) : presult Z :=
  match s with
  | c :: r =>
      if ch c "e" || ch c "E" then
        let '(neg, r1) :=
          match r with
          | d :: r' => if ch d "-" then (true, r')
                       else if ch d "+" then (false, r') else (false, r)
          | [] => (false, r)
          end in
        let '(x, n, r2) := read_digits r1 0 0 in
        if n =? 0 then inr r2 else inl (if neg : bool then - x else x, r2)
      else inl (0, s)
  | [] => inl (0, s)
  end.

Definition parse_fraction (int : Z) (s : list ascii) : presult (Z * Z) :=
  match s with
  | c :: r =>
      if ch c "." then
        let '(m, n, r1) := read_digits r int 0 in
        if n =? 0 then inr r1 else inl ((m, n), r1)
      else inl ((int, 0), s)
  | [] => inl ((int, 0), s)
  end.

Definition parse_number (s : list ascii) : presult value :=
  let '(neg, s1) :=
    match s with
    | c :: r => if ch c "-" then (true, r) else (false, s)
    | [] => (false, s)
    end in
  match s1 with
  | c :: r =>
      if is_digit c then
        let '(int, s2) :=
          if ch c "0" then (0, r)
          else let '(x, _, r') := read_digits s1 0 0 in (x, r') in
        parsed ((m, k), s3) := parse_fraction int s2 then
        parsed (x, s4) := parse_exponent s3 then
        inl (VNum (if neg : bool then - m else m) (x - k), s4)
      else inr s1
  | [] => inr s1
  end.

(** *** Strings *)

Definition hex_digit (c : ascii) : option Z :=
  let n := code c in
  if (48 <=? n) && (n <=? 57) then Some (n - 48)
  else if (97 <=? n) && (n <=? 102) then Some (n - 87)
  else if (65 <=? n) && (n <=? 70) then Some (n - 55)
  else None.

Definition byte (n : Z) : ascii := ascii_of_N (Z.to_N n).

(** UTF-8 of a code point (a lone surrogate is written the same way). *)
Definition utf8 (cp : Z) : list ascii :=
  if cp <? 128 then [byte cp]
  else if cp <? 2048 then
    [byte (192 + cp / 64); byte (128 + cp mod 64)]
  else if cp <? 65536 then
    [byte (224 + cp / 4096); byte (128 + (cp / 64) mod 64); byte (128 + cp mod 64)]
  else
    [byte (240 + cp / 262144); byte (128 + (cp / 4096) mod 64);
     byte (128 + (cp / 64) mod 64); byte (128 + cp mod 64)].

(** The pieces of a string literal: bytes copied from the input, and
    UTF-16 code units written as [\uXXXX]. *)
Inductive piece : Type :=
| Raw (c : ascii)
| Unit16 (u : Z).

Fixpoint encode (ps : list piece) : list ascii :=
  match ps with
  | Raw c :: r => c :: encode r
  | Unit16 hi :: r =>
      match r with
      | Unit16 lo :: r' =>
          if (55296 <=? hi) && (hi <? 56320) && (56320 <=? lo) && (lo <? 57344)
          then utf8 (65536 + (hi - 55296) * 1024 + (lo - 56320)) ++ encode r'
          else utf8 hi ++ encode r
      | _ => utf8 hi ++ encode r
      end
  | [] => []
  end.

Definition escape (c : ascii) : option ascii :=
  if is_quote c || ch c "\" || ch c "/" then Some c
  else if ch c "b" then Some (byte 8)
  else if ch c "f" then Some (byte 12)
  else if ch c "n" then Some (byte 10)
  else if ch c "r" then Some (byte 13)
  else if ch c "t" then Some (byte 9)
  else None.

(** The characters of a string literal after its opening quote. *)
Fixpoint parse_chars (s : list ascii) (acc : list piece) : presult string :=
  match s with
  | [] => inr []
  | c :: r =>
      if is_quote c then inl (string_of_list_ascii (encode (reverse acc)), r)
      else if code c <? 32 then inr s
      else if ch c "\" then
        match r with
        | [] => inr []
        | d :: r1 =>
            if ch d "u" then
              match r1 with
              | h1 :: h2 :: h3 :: h4 :: r2 =>
                  match hex_digit h1, hex_digit h2, hex_digit h3, hex_digit h4 with
                  | Some a, Some b, Some c', Some d' =>
                      parse_chars r2 (Unit16 (((a * 16 + b) * 16 + c') * 16 + d') :: acc)
                  | _, _, _, _ => inr r1
                  end
              | _ => inr r1
              end
            else match escape d with
                 | Some x => parse_chars r1 (Raw x :: acc)
                 | None => inr r
                 end
        end
      else parse_chars r (Raw c :: acc)
  end.

Fixpoint parse_literal (word : string) (v : value) (s : list ascii) : presult value :=
  match word with
  | EmptyString => inl (v, s)
  | String w word' =>
      match s with
      | c :: r => if Ascii.eqb c w then parse_literal word' v r else inr s
      | [] => inr []
      end
  end.

(** *** Values *)

Fixpoint parse_value (fuel : nat) (s : list ascii) {struct fuel} : presult value :=
  match fuel with
  | O => inr s
  | S fuel =>
      match skip_ws s with
      | [] => inr []
      | c :: r =>
          if ch c "{" then
            match skip_ws r with
            | d :: r' => if ch d "}" then inl (VObj ∅, r') else parse_members fuel r ∅
            | [] => inr []
            end
          else if ch c "[" then
            match skip_ws r with
            | d :: r' => if ch d "]" then inl (VArr [] ∅, r') else parse_elements fuel r []
            | [] => inr []
            end
          else if is_quote c then
            parsed (text, r') := parse_chars r [] then inl (VStr text, r')
          else if ch c "n" then parse_literal "null" VNull (c :: r)
          else if ch c "t" then parse_literal "true" (VBool true) (c :: r)
          else if ch c "f" then parse_literal "false" (VBool false) (c :: r)
          else parse_number (c :: r)
      end
  end
with parse_elements (fuel : nat) (s : list ascii) (acc : list value) {struct fuel}
  : presult value :=
  match fuel with
  | O => inr s
  | S fuel =>
      parsed (v, r) := parse_value fuel s then
      match skip_ws r with
      | c :: r' =>
          if ch c "," then parse_elements fuel r' (v :: acc)
          else if ch c "]" then inl (VArr (reverse (v :: acc)) ∅, r')
          else inr (c :: r')
      | [] => inr []
      end
  end
with parse_members (fuel : nat) (s : list ascii) (acc : object) {struct fuel}
  : presult value :=
  match fuel with
  | O => inr s
  | S fuel =>
      match skip_ws s with
      | q :: r0 =>
          if is_quote q then
            parsed (key, r1) := parse_chars r0 [] then
            match skip_ws r1 with
            | c :: r2 =>
                if ch c ":" then
                  parsed (v, r3) := parse_value fuel r2 then
                  match skip_ws r3 with
                  | d :: r4 =>
                      if ch d "," then parse_members fuel r4 (<[ key := v ]> acc)
                      else if ch d "}" then inl (VObj (<[ key := v ]> acc), r4)
                      else inr (d :: r4)
                  | [] => inr []
                  end
                else inr (c :: r2)
            | [] => inr []
            end
          else inr (q :: r0)
      | [] => inr []
      end
  end.

Definition SyntaxError (text : list ascii) (rest : list ascii) : JsError :=
  native_error "SyntaxError"
    match rest with
    | [] => "Unexpected end of JSON input"
    | c :: _ =>
        "Unexpected token " +:+ String c "" +:+ " in JSON at position "
        +:+ integer_text 10 (Z.of_nat (length text) - Z.of_nat (length rest))
    end.

(** [JSON.parse(text)]: the value, or the [SyntaxError] thrown. *)
Definition parse (text : string) : value + JsError :=
  let s := list_ascii_of_string text in
  match parse_value (2 * length s + 2) s with
  | inl (v, rest) =>
      match skip_ws rest with
      | [] => inl v
      | rest' => inr (SyntaxError s rest')
      end
  | inr rest => inr (SyntaxError s rest)
  end.

End JSON.

(** ** Frame reader: messagesReader *)

Definition newline : ascii := ascii_of_N 10.

(** The delimiter and the double quote, as texts. *)
Definition LF : string := String newline "".
Definition DQ : string := String (ascii_of_N 34) "".

(** [data.split('\n')]: one more piece than there are newlines. *)
Fixpoint split_nl (data : string) : list string :=
  match data with
  | EmptyString => [""]
  | String c rest =>
      if Ascii.eqb c newline then "" :: split_nl rest
      else match split_nl rest with
           | piece :: pieces => String c piece :: pieces
           | [] => [String c ""]
           end
  end.

(** [pieces.join('')]. *)
Definition join (pieces : list string) : string := foldr String.append "" pieces.

(** [interface MessageReaderContext]: a context of type [G] offers
    [reqestIdGenerator(prefix?)], a call that returns an id (or throws) and
    leaves the context changed. *)
Class MessageReaderContext (G : Type) : Type :=
  reqestIdGenerator : G → option string → outcome string * G.

#[global] Instance CounterIdGen_context : MessageReaderContext CounterIdGen :=
  fun g prefix => CounterIdGen_call g prefix None.

(** What the socket emits while the reader waits at its [Promise.race]: a
    ['data'] chunk, ['end'], or ['error'] (on which [once] rejects). *)
Inductive event : Type :=
| Data (data : string)
| End
| Fault (t : thrown).

(** [o.k = v] in strict mode (the module is an ES module): a property is
    created on an object or an array, the assignment throws on anything
    else. *)
Definition set_property (o : value) (k : string) (v : value) : outcome value :=
  match o with
  | VObj props => Return (VObj (<[ k := v ]> props))
  | VArr elems props => Return (VArr elems (<[ k := v ]> props))
  | _ => Throw (ThrownError (native_error "TypeError" ("Cannot create property '" +:+ k +:+ "'")))
  end.

Definition empty_response : value :=
  VObj {[ "body" := VNull; "emptyResponse" := VBool true ]}.

(** Lines 64-68: the message a raw frame stands for. *)
Definition frame_message (rawBody : string) : value :=
  if 0 <? Z.of_nat (String.length rawBody) then
    match JSON.parse rawBody with
    | inl message => message
    | inr e => VObj {[ "error" := error_prop e "message"; "type" := error_prop e "name";
                       "invalidResponse" := VStr rawBody ]}
    end
  else empty_response.

(** Line 69: [if (message && this && this.reqestIdGenerator) message.id =
    this.reqestIdGenerator(socket.id)].  [this] is [None] when the reader is
    called unbound. *)
Definition assign_id `{MessageReaderContext G} (this : option G)
    (socket_id : option string) (message : value) : outcome value * option G :=
  match this with
  | Some g =>
      if truthy message then
        let '(id, g') := reqestIdGenerator g socket_id in
        (id ← id; set_property message "id" (VStr id), Some g')
      else (Return message, this)
  | None => (Return message, None)
  end.

(** The generator object [messagesReader.call(this, socket)]: its bound
    context, [socket.id], the accumulation [buffer], the pieces [chunks[i..]]
    the [for] loop has still to visit, and whether the generator has
    finished. *)
Record reader (G : Type) : Type := mkReader {
  this : option G;
  socket_id : option string;
  buffer : list string;
  chunks : list string;
  finished : bool
}.
Arguments mkReader {G} _ _ _ _ _.
Arguments this {G} _.
Arguments socket_id {G} _.
Arguments buffer {G} _.
Arguments chunks {G} _.
Arguments finished {G} _.

Definition messagesReader {G} (this : option G) (socket_id : option string) : reader G :=
  mkReader this socket_id [] [] false.

(** How one turn of the [for] loop leaves the generator. *)
Inductive turn (G : Type) : Type :=
| Yield (message : value) (r : reader G)
| Raise (t : thrown) (r : reader G)
| Await (r : reader G).
Arguments Yield {G} _ _.
Arguments Raise {G} _ _.
Arguments Await {G} _.

(** The [for] loop from its current index to its next [yield], or to its
    end. *)
Definition for_turn `{MessageReaderContext G} (r : reader G) : turn G :=
  match chunks r with
  | [] => Await r
  | piece :: rest =>
      let buffer := (buffer r ++ [piece])%list in
      match rest with
      | [] => Await (mkReader (this r) (socket_id r) buffer [] false)
      | _ :: _ =>
          let rawBody := join buffer in
          let message := frame_message rawBody in
          let '(message, this') := assign_id (this r) (socket_id r) message in
          match message with
          | Return message => Yield message (mkReader this' (socket_id r) [] rest false)
          | Throw t => Raise t (mkReader this' (socket_id r) [] rest true)
          end
      end
  end.

(** What [reader.next()] settles to. *)
Inductive next_result : Type :=
| Value (message : value)       (* resolves with {value: message, done: false} *)
| Done                          (* resolves with {value: undefined, done: true} *)
| Rejected (t : thrown)         (* rejects *)
| Pending.                      (* does not settle: no event is left *)

(** [reader.next()]: the result, the generator afterwards and the events not
    yet taken. *)
Fixpoint next `{MessageReaderContext G} (r : reader G) (events : list event)
  : next_result * reader G * list event :=
  if finished r then (Done, r, events)
  else match for_turn r with
       | Yield message r' => (Value message, r', events)
       | Raise t r' => (Rejected t, r', events)
       | Await r' =>
           match events with
           | [] => (Pending, r', [])
           | End :: events' =>
               (Done, mkReader (this r') (socket_id r') (buffer r') [] true, events')
           | Fault t :: events' =>
               (Rejected t, mkReader (this r') (socket_id r') (buffer r') [] true, events')
           | Data data :: events' =>
               next (mkReader (this r') (socket_id r') (buffer r') (split_nl data) false) events'
           end
       end.

(** [for await (message of reader)]: every message up to the first result
    that is not a message.  [None] stands for a consumer that gave up after
    [fuel] messages. *)
Fixpoint collect `{MessageReaderContext G} (fuel : nat) (r : reader G) (events : list event)
  : list value * option next_result :=
  match fuel with
  | O => ([], None)
  | S fuel =>
      match next r events with
      | (Value message, r', events') =>
          let '(messages, ending) := collect fuel r' events' in (message :: messages, ending)
      | (ending, _, _) => ([], Some ending)
      end
  end.

(** No more messages can come than there are pieces and characters left. *)
Definition budget {G} (r : reader G) (events : list event) : nat :=
  length (chunks r)
  + foldr (fun e n => match e with Data data => String.length data + n | _ => n end)%nat
          0%nat events.

(** The whole sequence the reader yields on [events], and how it ends. *)
Definition drain `{MessageReaderContext G} (r : reader G) (events : list event)
  : list value * option next_result :=
  collect (S (budget r events)) r events.

(** ** Client: the [call] function of requestService *)

(** Property read [o.k], for a name [k] that no built-in prototype defines
    (the program reads [error] and [body]). *)
Definition get_property (o : value) (k : string) : outcome value :=
  match o with
  | VUndefined | VNull =>
      Throw (ThrownError (native_error "TypeError" ("Cannot read property '" +:+ k +:+ "'")))
  | VObj props | VArr _ props => Return (default VUndefined (props !! k))
  | VBool _ | VNum _ _ | VStr _ => Return VUndefined
  end.

(** The own enumerable properties a rest pattern or [Object.assign] sees. *)
Definition own_enumerable (o : value) : object :=
  match o with
  | VObj props => props
  | VArr elems props =>
      props ∪ list_to_map (imap (fun i x => (integer_text 10 (Z.of_nat i), x)) elems)
  | _ => ∅
  end.

(** What the promise returned by [call] does. *)
Inductive settled : Type :=
| Resolves (v : value)
| Rejects (t : thrown)
| RejectsRemote (e : option JsError)   (* throw new RemoteError(value) *)
| Stalls.

(** Lines 226-230: the [then] callback on [reader.next()]. *)
Definition on_response (result : next_result) : settled :=
  match result with
  | Done => Resolves VNull
  | Value value =>
      match get_property value "error" with
      | Throw t => Rejects t
      | Return error =>
          if truthy error then RejectsRemote (RemoteError (own_enumerable value))
          else match get_property value "body" with
               | Return body => Resolves body
               | Throw t => Rejects t
               end
      end
  | Rejected t => Rejects t
  | Pending => Stalls
  end.

(** The client side of one connection: its reader, the events its socket
    will emit, and the objects it has written (each as handed to
    [JSON.stringify], a newline after each). *)
Record client (G : Type) : Type := mkClient {
  client_reader : reader G;
  incoming : list event;
  written : list value
}.
Arguments mkClient {G} _ _ _.
Arguments client_reader {G} _.
Arguments incoming {G} _.
Arguments written {G} _.

(** [let reader = messagesReader(client)]: the reader is called unbound. *)
Definition connected {G} (incoming : list event) : client G :=
  mkClient (messagesReader None None) incoming [].

(** Lines 224-231: [call(body)]. *)
Definition call `{MessageReaderContext G} (c : client G) (body : value) : settled * client G :=
  let written := (written c ++ [VObj {[ "body" := body ]}])%list in
  let '(result, reader, incoming) := next (client_reader c) (incoming c) in
  (on_response result, mkClient reader incoming written).

(** ** Service: startService *)

(** A factory of id generators, [() => CounterIdGen]: it returns the address
    of a generator, which it may have created. *)
Definition factory : Type := heap → nat * heap.

Inductive log_option : Type :=
| LogConsole                      (* log: true *)
| LogWith (logger : nat).         (* log: a function, named by a number *)

Record ServiceOpts : Type := mkOpts {
  on : string;
  connetionIdGenerator : option nat;
  serviceId : option string;
  idGenerator : option factory;
  opts_reqestIdGenerator : option factory;
  log : option log_option;
  traceErrors : option bool
}.

Definition ServiceHandler : Type := value → outcome value.

(** Listeners the module installs on a service. *)
Inductive service_listener : Type :=
| AcceptConnection                          (* the callback given to createServer *)
| LogStarted
| LogStopped
| Dispatch (handler : ServiceHandler).      (* lines 141-148 *)

(** Listeners on the process object; [StopService s] is
    [service.stop.bind(service)] for the service at address [s]. *)
Inductive process_listener : Type :=
| StopService (s : nat)
| OtherListener (tag : nat).

Record Service : Type := mkService {
  id : option string;                       (* [None]: the property is undefined *)
  listening_on : string;
  connectionIdGenerator : nat;
  service_listeners : list (string * service_listener)
}.

(** The part of the process startService touches. *)
Record World : Type := mkWorld {
  hostname : string;                        (* require('os').hostname() *)
  now : Z;                                  (* Date.now() *)
  generators : heap;
  services : list Service;
  process_listeners : list (string * process_listener)
}.

(** Lines 103-153.  The result is the address of the new service (its index
    among the services of the process). *)
Definition startService (options : string + ServiceOpts) (handler : option ServiceHandler)
    (w : World) : nat * World :=
  let opts :=
    match options with
    | inl address => mkOpts address None None None None None None
    | inr opts => opts
    end in
  let '(connectionIdGenerator, generators) :=
    match connetionIdGenerator opts with
    | Some g => (g, generators w)
    | None =>
        match idGenerator opts with
        | Some make => make (generators w)
        | None => new_counter (Some 16) (generators w)
        end
    end in
  let service := length (services w) in
  let listeners := [("connection", AcceptConnection)] in
  (* if (!opts.serviceId) service.id = ... *)
  let id :=
    if negb (truthy (from_option VStr VUndefined (serviceId opts)))
    then Some (hostname w +:+ "." +:+ integer_text 16 (now w))   (* toString(16) returns *)
    else None in
  let listeners :=
    if bool_decide (is_Some (log opts))
    then (listeners ++ [("start", LogStarted); ("stop", LogStopped)])%list
    else listeners in
  (* process.on('SIGINT', service.stop.bind(service)) *)
  let process_listeners := (process_listeners w ++ [("SIGINT", StopService service)])%list in
  let listeners :=
    match handler with
    | Some handler => (listeners ++ [("connect", Dispatch handler)])%list
    | None => listeners
    end in
  (service,
   mkWorld (hostname w) (now w) generators
     (services w ++ [mkService id (on opts) connectionIdGenerator listeners])%list
     process_listeners).

(** Lines 143-146: the response the service writes for one request.
    [Object.assign({ id: request.id }, response)] lets the fields of the
    response win over [id]. *)
Definition respond (handler : ServiceHandler) (traceErrors : option bool) (request : value)
  : outcome value :=
  let response : object :=
    match handler request with
    | Return body => {[ "body" := body ]}
    | Throw e => asMessageError e (default false traceErrors)
    end in
  id ← get_property request "id";
  mret (VObj (response ∪ {[ "id" := id ]})).

(** ** The raw frames ahead of a reader

    Used to state what the reader does: the frames that the text still to be
    read is cut into, without parsing any of them. *)

(** The complete frames in [pieces] (the last piece is not complete) when
    [pre] is the text already accumulated, and the text that remains. *)
Fixpoint frames_of (pre : string) (pieces : list string) : list string * string :=
  match pieces with
  | [] => ([], pre)
  | piece :: rest =>
      match rest with
      | [] => ([], pre +:+ piece)
      | _ :: _ => let '(frames, remainder) := frames_of "" rest in ((pre +:+ piece) :: frames, remainder)
      end
  end.

(** The same, read off the text itself. *)
Fixpoint text_frames (pre : string) (text : string) : list string * string :=
  match text with
  | EmptyString => ([], pre)
  | String c rest =>
      if Ascii.eqb c newline
      then let '(frames, remainder) := text_frames "" rest in (pre :: frames, remainder)
      else text_frames (pre +:+ String c "") rest
  end.

(** The frames the [events] complete after the text [pre], and what ends
    the sequence. *)
Fixpoint stream_frames (pre : string) (events : list event) : list string * next_result :=
  match events with
  | [] => ([], Pending)
  | End :: _ => ([], Done)
  | Fault t :: _ => ([], Rejected t)
  | Data data :: events =>
      let '(frames, remainder) := frames_of pre (split_nl data) in
      let '(frames', ending) := stream_frames remainder events in
      ((frames ++ frames')%list, ending)
  end.

Definition pending_frames {G} (r : reader G) (events : list event)
  : list string * next_result :=
  let '(frames, remainder) := frames_of (join (buffer r)) (chunks r) in
  let '(frames', ending) := stream_frames remainder events in
  ((frames ++ frames')%list, ending).

(** The messages for a list of raw frames, each tagged in turn; a throw ends
    the sequence. *)
Fixpoint deliver `{MessageReaderContext G} (this : option G) (socket_id : option string)
    (frames : list string) (ending : next_result) : list value * option next_result :=
  match frames with
  | [] => ([], Some ending)
  | rawBody :: frames =>
      match assign_id this socket_id (frame_message rawBody) with
      | (Return message, this') =>
          let '(messages, ending) := deliver this' socket_id frames ending in
          (message :: messages, ending)
      | (Throw t, _) => ([], Some (Rejected t))
      end
  end.

(** ** Successive calls of one generator *)

(** The result of each call and the generator after it. *)
Fixpoint invocations (g : CounterIdGen) (args : list (option string * option string))
  : list (outcome string * CounterIdGen) :=
  match args with
  | [] => []
  | (prefix, join) :: args =>
      let '(result, g') := CounterIdGen_call g prefix join in
      (result, g') :: invocations g' args
  end.

(** The id the spec describes for counter value [n]: [prefix + join +
    n.toString(radix)], or the number alone without a prefix. *)
Definition id_text (radix : Z) (prefix join : option string) (n : Z) : string :=
  match prefix with
  | Some (String c p) => String c p +:+ default "." join +:+ integer_text radix n
  | Some EmptyString | None => integer_text radix n
  end.

(** Reading digits back, most significant first. *)
Definition digit_value (c : ascii) : Z :=
  let n := Z.of_N (N_of_ascii c) in if n <? 58 then n - 48 else n - 87.

Fixpoint undigits (radix : Z) (text : string) (acc : Z) : Z :=
  match text with
  | EmptyString => acc
  | String c rest => undigits radix rest (acc * radix + digit_value c)
  end.

(** ** The Error Codec's table, in the spec's words *)

(** [spec_encode exposing thrown trace message]: [message] is what the table
    of section 4.2 gives for [thrown] with the trace flag [trace].  A failure
    object carrying a details payload is an [ErrorResponse].  Which values
    the row "object exposing a textual representation" is about is left to
    [exposing]: the row applies to a value [v] that is not a string when
    [exposing v] holds and [v] has a [toString]. *)
Inductive spec_encode (exposing : value → bool) : thrown → bool → object → Prop :=
| encode_failure e trace :
    cls e ≠ ErrorResponseClass →
    spec_encode exposing (ThrownError e) trace
      (let message : object :=
         {[ "error" := error_prop e "message"; "type" := error_prop e "name" ]} in
       if trace then <[ "stack" := error_prop e "stack" ]> message else message)
| encode_details e trace :
    cls e = ErrorResponseClass →
    spec_encode exposing (ThrownError e) trace
      {[ "error" := error_prop e "message"; "type" := error_prop e "name";
         "details" := error_prop e "details" ]}
| encode_string s toString trace :
    spec_encode exposing (ThrownValue (VStr s) toString) trace
      {[ "error" := VStr s; "type" := VStr "string" ]}
| encode_object v text trace :
    (∀ s, v ≠ VStr s) → exposing v = true →
    spec_encode exposing (ThrownValue v (Some text)) trace
      {[ "error" := VStr text; "type" := VStr "object"; "details" := v ]}
| encode_unknown v toString trace :
    (∀ s, v ≠ VStr s) → exposing v = false ∨ toString = None →
    spec_encode exposing (ThrownValue v toString) trace
      {[ "error" := VStr "unknown error"; "type" := VStr "unknown"; "details" := v ]}.

(** ** The Error variant of a message *)

Definition string_or_absent (v : option value) : bool :=
  match v with
  | None | Some (VStr _) => true
  | Some _ => false
  end.

(** [interface MessageError]: [error] and [type] are strings, [id],
    [invalidResponse] and [stack] are strings when present, [details] is
    anything, and there is no other field. *)
Definition is_MessageError (m : object) : bool :=
  match m !! "error", m !! "type" with
  | Some (VStr _), Some (VStr _) =>
      string_or_absent (m !! "id") && string_or_absent (m !! "invalidResponse")
      && string_or_absent (m !! "stack")
      && bool_decide (dom m ⊆ ({[ "id"; "error"; "type"; "invalidResponse"; "stack"; "details" ]} : gset string))
  | _, _ => false
  end.

(** ** The dispatch loop of a connection *)

(** Lines 141-148: [for await (let request of connetion.requests())], one
    response written per request, in order; a throw outside the [try] (the
    read of [request.id]) ends the loop.  The result is the responses handed
    to [sendResult] and the exception the listener ends with, if any. *)
Fixpoint dispatch (handler : ServiceHandler) (traceErrors : option bool)
    (requests : list value) : list value * option thrown :=
  match requests with
  | [] => ([], None)
  | request :: requests =>
      match respond handler traceErrors request with
      | Return response =>
          let '(responses, failure) := dispatch handler traceErrors requests in
          (response :: responses, failure)
      | Throw t => ([], Some t)
      end
  end.

(** [message.id = id] on a message that can take it. *)
Definition tagged (message : value) (id : string) : value :=
  match message with
  | VObj props => VObj (<[ "id" := VStr id ]> props)
  | VArr elems props => VArr elems (<[ "id" := VStr id ]> props)
  | _ => message
  end.

(** The number of delimiters in a text. *)
Fixpoint count_nl (text : string) : nat :=
  match text with
  | EmptyString => 0%nat
  | String c rest => ((if Ascii.eqb c newline then 1 else 0) + count_nl rest)%nat
  end.

(** [pieces.join('\n')]. *)
Fixpoint join_nl (pieces : list string) : string :=
  match pieces with
  | [] => ""
  | [piece] => piece
  | piece :: pieces => piece +:+ LF +:+ join_nl pieces
  end.

(** ** Accepting connections *)

(** [opts] as startService computes it on line 104. *)
Definition opts_of (options : string + ServiceOpts) : ServiceOpts :=
  match options with
  | inl address => mkOpts address None None None None None None
  | inr opts => opts
  end.

(** A connection object as the callback of [createServer] leaves it: the
    [id] it was given and the address of the generator bound as
    [this.reqestIdGenerator] of its reader ([None] where the callback threw
    before getting there). *)
Record Connection : Type := mkConnection {
  connection_id : option string;
  request_generator : option nat
}.

(** The listening side of a service: the connections accepted so far (a
    connection is named by its index) and the membership set
    [connections]. *)
Record Server : Type := mkServer {
  accepted : list Connection;
  connections : gset nat
}.

(** Lines 109-129, the callback run for each accepted connection.  [None]
    when the service's generator address holds no generator. *)
Definition accept (opts : ServiceOpts) (service : Service) (srv : Server) (h : heap)
  : option (Server * heap) :=
  let connection := length (accepted srv) in
  (* connections.add(connection) *)
  let connections := {[ connection ]} ∪ connections srv in
  (* connection.id = connectionIdGenerator(service.id) *)
  match call_counter (connectionIdGenerator service) (id service) None h with
  | None => None
  | Some (Throw _, h) =>
      Some (mkServer (accepted srv ++ [mkConnection None None]) connections, h)
  | Some (Return connection_id, h) =>
      let '(g, h) :=
        match opts_reqestIdGenerator opts with
        | Some make => make h
        | None =>
            match idGenerator opts with
            | Some make => make h
            | None => new_counter (Some 16) h
            end
        end in
      Some (mkServer (accepted srv ++ [mkConnection (Some connection_id) (Some g)])
                     connections, h)
  end.

(** Line 111: the ['end'] listener of a connection. *)
Definition connection_ended (connection : nat) (srv : Server) : Server :=
  mkServer (accepted srv) (connections srv ∖ {[ connection ]}).

(** What a listening service sees: a new connection, or the end of one. *)
Inductive server_event : Type :=
| Incoming
| Ended (connection : nat).

Fixpoint serve (opts : ServiceOpts) (service : Service) (events : list server_event)
    (srv : Server) (h : heap) : option (Server * heap) :=
  match events with
  | [] => Some (srv, h)
  | Incoming :: events =>
      match accept opts service srv h with
      | Some (srv, h) => serve opts service events srv h
      | None => None
      end
  | Ended connection :: events =>
      serve opts service events (connection_ended connection srv) h
  end.

(** Starting services one after another in one process. *)
Fixpoint start_all (starts : list ((string + ServiceOpts) * option ServiceHandler))
    (w : World) : World :=
  match starts with
  | [] => w
  | (options, handler) :: starts => start_all starts (startService options handler w).2
  end.

(** ** Client: requestService *)

(** A caller, [(call) => Promise], that makes its calls one at a time, as
    a script: it settles, or it awaits [call(body)] and goes on from what
    that call settled to.  (It is never resumed from a call that stalls.) *)
Inductive driver : Type :=
| Finish (result : settled)
| CallThen (body : value) (continue : settled → driver).

(** Running a caller against a connection: what its promise settles to, the
    connection afterwards, and each call it made with its answer. *)
Fixpoint run `{MessageReaderContext G} (d : driver) (c : client G)
  : settled * client G * list (value * settled) :=
  match d with
  | Finish result => (result, c, [])
  | CallThen body continue =>
      let '(answer, c) := call c body in
      match answer with
      | Stalls => (Stalls, c, [(body, Stalls)])
      | _ =>
          let '(result, c, calls) := run (continue answer) c in
          (result, c, (body, answer) :: calls)
      end
  end.

(** Lines 201-235, for a [callerOrBody] that is a function ([inl]) or a
    payload ([inr]); the third shape, a readline interface, goes through
    createReply and the terminal.  [isConnected] is the outcome of the race
    on line 212, [incoming] what the socket then emits, [closes] whether
    [whenClose] ever settles (the socket emits ['close'], or an ['error']
    that the [catch] swallows).  The result: what the promise settles to,
    the connection, and whether [client.end()] was called. *)
Definition requestService `{MessageReaderContext G} (isConnected : bool)
    (callerOrBody : driver + value) (incoming : list event) (closes : bool)
  : settled * client G * bool :=
  let client := connected incoming in
  let caller :=
    match callerOrBody with
    | inl caller => caller
    | inr body => CallThen body Finish
    end in
  if negb isConnected then (Resolves VUndefined, client, false)
  else
    let '(result, client, _) := run caller client in
    match result with
    | Resolves result => (if closes then Resolves result else Stalls, client, true)
    | _ => (result, client, false)
    end.

(** ** Command line: argOf *)

(** [argv.indexOf(opt)]. *)
Fixpoint indexOf (argv : list string) (opt : string) : option nat :=
  match argv with
  | [] => None
  | arg :: argv => if String.eqb arg opt then Some 0%nat else S <$> indexOf argv opt
  end.

(** Lines 240-245.  [inr message]: [fail(message)] printed the message and
    left the process with status 1. *)
Definition argOf (argv : list string) (opt : string) (defaultValue : option string)
  : string + string :=
  let defaultValue := default "" defaultValue in
  match indexOf argv opt with
  | Some i =>
      match argv !! S i with
      | Some (String c arg) => inl (String c arg)
      | Some EmptyString | None => inr ("Missing argument for option " +:+ opt)
      end
  | None =>
      match defaultValue with
      | String c d => inl (String c d)
      | EmptyString => inr ("Missing required option " +:+ opt)
      end
  end.

(** ** JSON.stringify

    The texts [JSON.stringify] gives for the values that cross the wire.
    The order in which the properties of an object are written is the
    order in which they were created, which a map does not record: the
    relation below allows every order, so what is proved of every text it
    relates to a value holds of the text the engine writes.  It covers
    null, booleans, the integers that a double holds exactly (written
    without exponent), ASCII texts, arrays and objects of these; a property
    whose value is [undefined] is left out, an element that is [undefined]
    is written [null], and the named properties of an array are not
    written.  The third argument is the value the text denotes. *)

Definition backslash : ascii := ascii_of_N 92.

(** QuoteJSONString on one character. *)
Definition quote_char (c : ascii) : list ascii :=
  let n := JSON.code c in
  if (n =? 34) || (n =? 92) then [backslash; c]
  else if n =? 8 then [backslash; "b"%char]
  else if n =? 12 then [backslash; "f"%char]
  else if n =? 10 then [backslash; "n"%char]
  else if n =? 13 then [backslash; "r"%char]
  else if n =? 9 then [backslash; "t"%char]
  else if n <? 32 then
    [backslash; "u"%char; "0"%char; "0"%char; digit_char (n / 16); digit_char (n mod 16)]
  else [c].

Definition quote (s : string) : list ascii :=
  ascii_of_N 34 :: flat_map quote_char (list_ascii_of_string s) ++ [ascii_of_N 34].

(** A text of ASCII characters. *)
Definition plain (s : string) : bool :=
  forallb (fun c => JSON.code c <? 128) (list_ascii_of_string s).

(** An integer that a double holds exactly. *)
Definition safe_integer (n : Z) : bool := (- 2 ^ 53 <=? n) && (n <=? 2 ^ 53).

Definition is_undefined (v : value) : bool :=
  match v with VUndefined => true | _ => false end.

(** The properties [JSON.stringify] writes. *)
Definition written_properties (props : object) : object :=
  filter (fun kv => is_undefined kv.2 = false) props.

Inductive stringify : value → list ascii → value → Prop :=
| stringify_null :
    stringify VNull (list_ascii_of_string "null") VNull
| stringify_bool (b : bool) :
    stringify (VBool b) (list_ascii_of_string (if b then "true" else "false")) (VBool b)
| stringify_integer (n : Z) :
    safe_integer n = true →
    stringify (VNum n 0) (list_ascii_of_string (integer_text 10 n)) (VNum n 0)
| stringify_text (s : string) :
    plain s = true →
    stringify (VStr s) (quote s) (VStr s)
| stringify_empty_array (props : object) :
    stringify (VArr [] props) (list_ascii_of_string "[]") (VArr [] ∅)
| stringify_array (elems : list value) (props : object) (text : list ascii)
    (elems' : list value) :
    stringify_elements elems text elems' →
    stringify (VArr elems props) ("["%char :: text ++ ["]"%char]) (VArr elems' ∅)
| stringify_empty_object (props : object) :
    written_properties props = ∅ →
    stringify (VObj props) (list_ascii_of_string "{}") (VObj ∅)
| stringify_object (props : object) (members : list (string * value)) (text : list ascii)
    (members' : list (string * value)) :
    NoDup members.*1 →
    list_to_map members = written_properties props →
    stringify_members members text members' →
    stringify (VObj props) ("{"%char :: text ++ ["}"%char]) (VObj (list_to_map members'))
with stringify_elements : list value → list ascii → list value → Prop :=
| stringify_last (v : value) (text : list ascii) (v' : value) :
    stringify v text v' →
    stringify_elements [v] text [v']
| stringify_last_undefined :
    stringify_elements [VUndefined] (list_ascii_of_string "null") [VNull]
| stringify_element (v : value) (text : list ascii) (v' : value) (elems : list value)
    (texts : list ascii) (elems' : list value) :
    stringify v text v' →
    stringify_elements elems texts elems' →
    stringify_elements (v :: elems) (text ++ ","%char :: texts) (v' :: elems')
| stringify_element_undefined (elems : list value) (texts : list ascii)
    (elems' : list value) :
    stringify_elements elems texts elems' →
    stringify_elements (VUndefined :: elems)
      (list_ascii_of_string "null" ++ ","%char :: texts) (VNull :: elems')
with stringify_members : list (string * value) → list ascii → list (string * value) → Prop :=
| stringify_last_member (k : string) (v : value) (text : list ascii) (v' : value) :
    plain k = true →
    stringify v text v' →
    stringify_members [(k, v)] (quote k ++ ":"%char :: text) [(k, v')]
| stringify_member (k : string) (v : value) (text : list ascii) (v' : value)
    (members : list (string * value)) (texts : list ascii)
    (members' : list (string * value)) :
    plain k = true →
    stringify v text v' →
    stringify_members members texts members' →
    stringify_members ((k, v) :: members) (quote k ++ ":"%char :: text ++ ","%char :: texts)
      ((k, v') :: members').

Scheme stringify_mut := Minimality for stringify Sort Prop
  with stringify_elements_mut := Minimality for stringify_elements Sort Prop
  with stringify_members_mut := Minimality for stringify_members Sort Prop.
Combined Scheme stringify_mutind
  from stringify_mut, stringify_elements_mut, stringify_members_mut.

(** [connection.sendResult(data)], line 126: the text written, delimiter
    included, and the message it denotes. *)
Definition sendResult (data : value) (written : string) (message : value) : Prop :=
  ∃ text, stringify data text message ∧ written = string_of_list_ascii text +:+ LF.

(** Auxiliary notions for reading such texts back. *)

(** What the parser makes of a character that [quote_char] wrote. *)
Definition piece_of (c : ascii) : JSON.piece :=
  let n := JSON.code c in
  if (n <? 32) && negb ((n =? 8) || (n =? 12) || (n =? 10) || (n =? 13) || (n =? 9))
  then JSON.Unit16 n else JSON.Raw c.

(** What can follow a value in a text. *)
Definition after_value (rest : list ascii) : bool :=
  match rest with
  | [] => true
  | c :: _ => JSON.ch c "," || JSON.ch c "]" || JSON.ch c "}"
  end.

Definition all_digits (text : string) : Prop :=
  Forall (fun c => JSON.is_digit c = true) (list_ascii_of_string text).

(** A text that begins with a character of a value. *)
Definition starts_value (text : list ascii) : Prop :=
  ∃ c r, text = c :: r ∧ JSON.is_ws c = false ∧ JSON.ch c "]" = false.

(** What the parser does with a member it has read. *)
Definition add_member (m : object) (kv : string * value) : object := <[ kv.1 := kv.2 ]> m.

Definition no_newline (text : list ascii) : Prop :=
  Forall (fun c => Ascii.eqb c newline = false) text.

(** * Properties *)

(** ** Strings and frames *)

Lemma append_cons (c : ascii) (s t : string) : String c s +:+ t = String c (s +:+ t).
Proof. reflexivity. Qed.

Lemma append_nil_r (s : string) : s +:+ "" = s.
Proof. induction s as [|c s IH]; [done | by rewrite append_cons, IH]. Qed.

Lemma append_assoc (s t u : string) : (s +:+ t) +:+ u = s +:+ (t +:+ u).
Proof. induction s as [|c s IH]; [done | by rewrite !append_cons, IH]. Qed.

Lemma join_snoc (pieces : list string) (piece : string) :
  join (pieces ++ [piece]) = join pieces +:+ piece.
Proof.
  induction pieces as [|p pieces IH].
  - change (piece +:+ "" = piece). apply append_nil_r.
  - change (p +:+ join (pieces ++ [piece]) = (p +:+ join pieces) +:+ piece).
    by rewrite IH, append_assoc.
Qed.

Lemma split_nl_cons (data : string) : ∃ piece pieces, split_nl data = piece :: pieces.
Proof.
  induction data as [|c data (p & ps & IH)]; simpl; [by eauto |].
  destruct (Ascii.eqb c newline); [by eauto |]. rewrite IH. eauto.
Qed.

Lemma frames_of_cons2 (pre p q : string) (pieces : list string) :
  frames_of pre (p :: q :: pieces) =
  let '(frames, remainder) := frames_of "" (q :: pieces) in ((pre +:+ p) :: frames, remainder).
Proof. reflexivity. Qed.

Lemma frames_of_cons_char (pre : string) (c : ascii) (piece : string) (pieces : list string) :
  frames_of pre (String c piece :: pieces) = frames_of (pre +:+ String c "") (piece :: pieces).
Proof. simpl. destruct pieces; by rewrite append_assoc. Qed.

(** Cutting a chunk into pieces and reading the frames off the pieces is
    reading them off the text. *)
Lemma frames_of_split (data pre : string) :
  frames_of pre (split_nl data) = text_frames pre data.
Proof.
  revert pre. induction data as [|c data IH]; intros pre; simpl.
  - by rewrite append_nil_r.
  - destruct (Ascii.eqb c newline).
    + destruct (split_nl_cons data) as (p & ps & Hs).
      rewrite <- IH, Hs. cbn [frames_of]. by rewrite append_nil_r.
    + destruct (split_nl_cons data) as (p & ps & Hs).
      rewrite Hs, frames_of_cons_char, <- Hs. apply IH.
Qed.

Lemma text_frames_app (x y pre : string) :
  text_frames pre (x +:+ y) =
  let '(frames, remainder) := text_frames pre x in
  let '(frames', remainder') := text_frames remainder y in
  ((frames ++ frames')%list, remainder').
Proof.
  revert pre. induction x as [|c x IH]; intros pre.
  - change ("" +:+ y) with y. simpl. by destruct (text_frames pre y).
  - rewrite append_cons. simpl. destruct (Ascii.eqb c newline).
    + rewrite IH. destruct (text_frames "" x) as [f1 r1].
      by destruct (text_frames r1 y).
    + apply IH.
Qed.

Lemma text_frames_length (text pre : string) :
  (length (text_frames pre text).1 ≤ String.length text)%nat.
Proof.
  revert pre. induction text as [|c text IH]; intros pre; simpl; [lia |].
  destruct (Ascii.eqb c newline).
  - specialize (IH ""). destruct (text_frames "" text). simpl in *. lia.
  - specialize (IH (pre +:+ String c "")). lia.
Qed.

Lemma frames_of_length (pieces : list string) (pre : string) :
  (length (frames_of pre pieces).1 ≤ length pieces)%nat.
Proof.
  revert pre. induction pieces as [|p pieces IH]; intros pre; [simpl; lia |].
  destruct pieces as [|q pieces]; [simpl; lia |].
  specialize (IH ""). rewrite frames_of_cons2.
  destruct (frames_of "" (q :: pieces)). simpl in *. lia.
Qed.

(** Chunk boundaries do not matter to the frames of a stream. *)
Lemma stream_frames_chunks (datas : list string) (rest : list event) (pre : string) :
  stream_frames pre ((Data <$> datas) ++ rest) = stream_frames pre (Data (join datas) :: rest).
Proof.
  revert pre. induction datas as [|d datas IH]; intros pre.
  - simpl. rewrite append_nil_r. by destruct (stream_frames pre rest).
  - cbn [fmap list_fmap app stream_frames].
    change (join (d :: datas)) with (d +:+ join datas).
    rewrite !frames_of_split, text_frames_app.
    destruct (text_frames pre d) as [f1 r1].
    rewrite IH. cbn [stream_frames]. rewrite frames_of_split.
    destruct (text_frames r1 (join datas)) as [f2 r2].
    destruct (stream_frames r2 rest) as [f3 e].
    by rewrite app_assoc.
Qed.

(** ** The reader, frame by frame *)

Section reader_facts.
Context `{MessageReaderContext G}.
Implicit Types (r : reader G) (events : list event).

Lemma next_unfold r events :
  next r events =
  if finished r then (Done, r, events)
  else match for_turn r with
       | Yield message r' => (Value message, r', events)
       | Raise t r' => (Rejected t, r', events)
       | Await r' =>
           match events with
           | [] => (Pending, r', [])
           | End :: events' =>
               (Done, mkReader (this r') (socket_id r') (buffer r') [] true, events')
           | Fault t :: events' =>
               (Rejected t, mkReader (this r') (socket_id r') (buffer r') [] true, events')
           | Data data :: events' =>
               next (mkReader (this r') (socket_id r') (buffer r') (split_nl data) false)
                    events'
           end
       end.
Proof. destruct events; reflexivity. Qed.

(** With no complete frame among its pieces, the loop runs to its end and
    the reader waits, holding the text that remains. *)
Lemma for_turn_await r remainder :
  finished r = false →
  frames_of (join (buffer r)) (chunks r) = ([], remainder) →
  ∃ r', for_turn r = Await r' ∧ join (buffer r') = remainder ∧ chunks r' = []
        ∧ this r' = this r ∧ socket_id r' = socket_id r ∧ finished r' = false.
Proof.
  intros Hrun Hframes. unfold for_turn. destruct r as [t s b c f].
  cbn [buffer chunks this socket_id finished] in *.
  destruct c as [|p [|q c]].
  - exists (mkReader t s b [] f). simpl in *. naive_solver.
  - exists (mkReader t s (b ++ [p]) [] false). simpl in *.
    rewrite join_snoc. naive_solver.
  - rewrite frames_of_cons2 in Hframes. by destruct (frames_of "" (q :: c)).
Qed.

(** With a complete frame among its pieces, the loop's next turn handles
    exactly that frame. *)
Lemma for_turn_frame r rawBody frames remainder :
  frames_of (join (buffer r)) (chunks r) = (rawBody :: frames, remainder) →
  ∃ rest,
    frames_of "" rest = (frames, remainder) ∧
    for_turn r =
    match assign_id (this r) (socket_id r) (frame_message rawBody) with
    | (Return message, this') => Yield message (mkReader this' (socket_id r) [] rest false)
    | (Throw t, this') => Raise t (mkReader this' (socket_id r) [] rest true)
    end.
Proof.
  intros Hframes. unfold for_turn. destruct r as [t s b c f].
  cbn [buffer chunks this socket_id finished] in *.
  destruct c as [|p [|q c]]; [done | done |].
  exists (q :: c). rewrite frames_of_cons2 in Hframes.
  destruct (frames_of "" (q :: c)) as [fs rm] eqn:Hrest.
  injection Hframes as <- <- <-. split; [done |].
  rewrite join_snoc.
  by destruct (assign_id t s (frame_message (join b +:+ p))) as [[m|e] t'].
Qed.

Lemma stream_frames_ending pre events message :
  (stream_frames pre events).2 ≠ Value message.
Proof.
  revert pre. induction events as [|[d| |t] events IH]; intros pre; simpl; try done.
  destruct (frames_of pre (split_nl d)) as [fs rm].
  specialize (IH rm). by destruct (stream_frames rm events).
Qed.

(** [next] takes the first frame ahead of the reader, if there is one, and
    leaves the others ahead of it. *)
Lemma next_spec r events :
  finished r = false →
  match pending_frames r events with
  | (rawBody :: frames, ending) =>
      ∃ r' events',
        pending_frames r' events' = (frames, ending) ∧
        socket_id r' = socket_id r ∧
        match assign_id (this r) (socket_id r) (frame_message rawBody) with
        | (Return message, this') =>
            next r events = (Value message, r', events')
            ∧ this r' = this' ∧ finished r' = false
        | (Throw t, this') =>
            next r events = (Rejected t, r', events')
            ∧ this r' = this' ∧ finished r' = true
        end
  | ([], ending) => ∃ r' events', next r events = (ending, r', events')
  end.
Proof.
  revert r. induction events as [|e events IH]; intros r Hrun;
    rewrite next_unfold, Hrun; unfold pending_frames;
    destruct (frames_of (join (buffer r)) (chunks r)) as [[|f fs] rm] eqn:Hf.
  - destruct (for_turn_await r rm Hrun Hf) as (r' & -> & _). simpl. eauto.
  - destruct (for_turn_frame r f fs rm Hf) as (rest & Hrest & ->). simpl.
    destruct (assign_id (this r) (socket_id r) (frame_message f)) as [[m|t] this'].
    + exists (mkReader this' (socket_id r) [] rest false), [].
      unfold pending_frames. simpl. rewrite Hrest. simpl. by rewrite app_nil_r.
    + exists (mkReader this' (socket_id r) [] rest true), [].
      unfold pending_frames. simpl. rewrite Hrest. simpl. by rewrite app_nil_r.
  - destruct (for_turn_await r rm Hrun Hf) as (r' & -> & Hb & Hc & Ht & Hs & Hr).
    destruct e as [d| |t]; simpl; [| by eauto | by eauto].
    specialize (IH (mkReader (this r') (socket_id r') (buffer r') (split_nl d) false) eq_refl).
    unfold pending_frames in IH. simpl in IH. rewrite Hb in IH.
    destruct (frames_of rm (split_nl d)) as [fs' rm'].
    destruct (stream_frames rm' events) as [fs'' ending].
    rewrite Ht, Hs in IH. rewrite Ht, Hs. destruct (fs' ++ fs'')%list; exact IH.
  - destruct (for_turn_frame r f fs rm Hf) as (rest & Hrest & ->).
    cbn [app]. destruct (stream_frames rm (e :: events)) as [fs' ending] eqn:Hs.
    destruct (assign_id (this r) (socket_id r) (frame_message f)) as [[m|t] this'].
    + exists (mkReader this' (socket_id r) [] rest false), (e :: events).
      unfold pending_frames. cbn [buffer chunks this socket_id finished join foldr].
      rewrite Hrest, Hs. done.
    + exists (mkReader this' (socket_id r) [] rest true), (e :: events).
      unfold pending_frames. cbn [buffer chunks this socket_id finished join foldr].
      rewrite Hrest, Hs. done.
Qed.

Lemma next_finished r events : finished r = true → next r events = (Done, r, events).
Proof. intros Hfin. by rewrite next_unfold, Hfin. Qed.

Lemma collect_spec fuel r events :
  finished r = false →
  (length (pending_frames r events).1 < fuel)%nat →
  collect fuel r events =
  deliver (this r) (socket_id r) (pending_frames r events).1 (pending_frames r events).2.
Proof.
  revert r events. induction fuel as [|fuel IH]; intros r events Hrun Hlen; [lia |].
  pose proof (next_spec r events Hrun) as Hnext.
  pose proof (stream_frames_ending) as Hend.
  destruct (pending_frames r events) as [[|f fs] ending] eqn:Hp; simpl in *.
  - destruct Hnext as (r' & events' & ->).
    assert (∀ m, ending ≠ Value m) as Hne.
    { intros m. unfold pending_frames in Hp.
      destruct (frames_of (join (buffer r)) (chunks r)) as [fs rm].
      specialize (Hend rm events m).
      destruct (stream_frames rm events). injection Hp as _ <-. done. }
    destruct ending; [by destruct (Hne message) | done..].
  - destruct Hnext as (r' & events' & Hp' & Hs & Hnext).
    destruct (assign_id (this r) (socket_id r) (frame_message f)) as [[m|t] this'].
    + destruct Hnext as (-> & <- & Hrun'). rewrite IH; [| done | rewrite Hp'; simpl; lia].
      by rewrite Hp', Hs.
    + by destruct Hnext as (-> & _).
Qed.

Lemma pending_frames_length r events :
  (length (pending_frames r events).1 ≤ budget r events)%nat.
Proof.
  unfold pending_frames, budget.
  pose proof (frames_of_length (chunks r) (join (buffer r))) as Hc.
  destruct (frames_of (join (buffer r)) (chunks r)) as [fs rm]. simpl in Hc.
  assert (∀ pre, length (stream_frames pre events).1
            ≤ foldr (fun e n => match e with Data data => String.length data + n | _ => n end)
                    0 events)%nat as Hs.
  { induction events as [|[d| |t] events IH]; intros pre; simpl; try lia.
    pose proof (text_frames_length d pre) as Hd. rewrite <- frames_of_split in Hd.
    destruct (frames_of pre (split_nl d)) as [fs' rm']. specialize (IH rm').
    destruct (stream_frames rm' events). simpl in *. rewrite length_app. lia. }
  specialize (Hs rm). destruct (stream_frames rm events). simpl in *.
  rewrite length_app. lia.
Qed.

(** The whole sequence: the frames ahead, delivered in order. *)
Lemma drain_spec r events :
  finished r = false →
  drain r events =
  deliver (this r) (socket_id r) (pending_frames r events).1 (pending_frames r events).2.
Proof.
  intros Hrun. apply collect_spec; [done |].
  pose proof (pending_frames_length r events). lia.
Qed.

Lemma drain_finished r events : finished r = true → drain r events = ([], Some Done).
Proof. intros Hfin. unfold drain. simpl. by rewrite next_finished. Qed.

Lemma deliver_ends (this : option G) (socket_id : option string) (frames : list string)
    (ending : next_result) :
  ∃ messages ending', deliver this socket_id frames ending = (messages, Some ending').
Proof.
  revert this. induction frames as [|f frames IH]; intros this; simpl; [by eauto |].
  destruct (assign_id this socket_id (frame_message f)) as [[m|t] this']; [| by eauto].
  destruct (IH this') as (ms & e & ->). eauto.
Qed.

(** The budget always suffices: [drain] runs the reader to the end of its
    sequence. *)
Lemma drain_ends r events : ∃ messages ending, drain r events = (messages, Some ending).
Proof.
  destruct (finished r) eqn:Hfin.
  - rewrite drain_finished by done. eauto.
  - rewrite drain_spec by done. apply deliver_ends.
Qed.

End reader_facts.

(** ** Claims about the frame reader *)

Lemma frame_message_malformed (rawBody : string) (e : JsError) :
  rawBody ≠ "" →
  JSON.parse rawBody = inr e →
  frame_message rawBody =
  VObj {[ "error" := error_prop e "message"; "type" := error_prop e "name";
          "invalidResponse" := VStr rawBody ]}.
Proof.
  intros Hne Hparse. unfold frame_message. rewrite Hparse.
  destruct rawBody; [done |]. reflexivity.
Qed.

Lemma assign_id_inv `{MessageReaderContext G} (g : G) (socket_id : option string)
    (message message' : value) (this' : option G) :
  assign_id (Some g) socket_id message = (Return message', this') →
  if truthy message
  then ∃ id g', reqestIdGenerator g socket_id = (Return id, g')
                ∧ set_property message "id" (VStr id) = Return message'
                ∧ this' = Some g'
  else message' = message ∧ this' = Some g.
Proof.
  unfold assign_id. destruct (truthy message); [| naive_solver].
  destruct (reqestIdGenerator g socket_id) as [[id|t] g']; [| done].
  intros [= Hset <-]. eauto.
Qed.

Lemma set_property_get (o : value) (k : string) (v o' : value) :
  set_property o k v = Return o' → truthy o' = true ∧ get_property o' k = Return v.
Proof.
  destruct o; simpl; try done; intros [= <-]; simpl; by rewrite lookup_insert_eq.
Qed.

(** C1 (as amended).  A raw frame that is not empty and that [JSON.parse]
    rejects makes the reader yield the Error-variant message whose [error]
    and [type] are the parser failure's message and name and whose
    [invalidResponse] is the raw text (with the id a bound generator adds);
    the reader does not raise as long as the bound generator returns, and it
    goes on: it has not finished and the frames that followed are still
    ahead of it. *)
Theorem malformed_frame_yields_error `{MessageReaderContext G} (r : reader G)
    (events : list event) (rawBody : string) (frames : list string)
    (ending : next_result) (e : JsError) :
  finished r = false →
  pending_frames r events = (rawBody :: frames, ending) →
  rawBody ≠ "" →
  JSON.parse rawBody = inr e →
  (∀ g, this r = Some g → ∃ id g', reqestIdGenerator g (socket_id r) = (Return id, g')) →
  ∃ (message : object) (r' : reader G) (events' : list event),
    next r events = (Value (VObj message), r', events')
    ∧ delete "id" message =
        {[ "error" := error_prop e "message"; "type" := error_prop e "name";
           "invalidResponse" := VStr rawBody ]}
    ∧ finished r' = false
    ∧ pending_frames r' events' = (frames, ending).
Proof.
  intros Hrun Hpending Hne Hparse Hgen.
  pose proof (next_spec r events Hrun) as Hnext. rewrite Hpending in Hnext.
  destruct Hnext as (r' & events' & Hpending' & _ & Hnext).
  rewrite (frame_message_malformed rawBody e Hne Hparse) in Hnext.
  unfold assign_id in Hnext. destruct (this r) as [g|].
  - destruct (Hgen g eq_refl) as (id & g' & Hid). simpl in Hnext. rewrite Hid in Hnext.
    simpl in Hnext. destruct Hnext as (Hnext & _ & Hrun').
    eexists _, r', events'. split_and!; [exact Hnext | | done | done].
    by rewrite delete_insert_id.
  - destruct Hnext as (Hnext & _ & Hrun').
    eexists _, r', events'. split_and!; [exact Hnext | | done | done].
    by rewrite delete_id.
Qed.

Lemma malformed_frame_yields_error_witness :
  ∃ (message : object) (r' : reader CounterIdGen) (events' : list event),
    next (messagesReader (Some (counter (Some 16))) (Some "a.1"))
         [Data ("oops" +:+ LF +:+ "{}" +:+ LF); End]
    = (Value (VObj message), r', events')
    ∧ delete "id" message =
        {[ "error" := VStr "Unexpected token o in JSON at position 0";
           "type" := VStr "SyntaxError"; "invalidResponse" := VStr "oops" ]}
    ∧ finished r' = false
    ∧ pending_frames r' events' = (["{}"], Done).
Proof.
  apply (malformed_frame_yields_error
           (messagesReader (Some (counter (Some 16))) (Some "a.1"))
           [Data ("oops" +:+ LF +:+ "{}" +:+ LF); End] "oops" ["{}"] Done
           (JSON.SyntaxError (list_ascii_of_string "oops") (list_ascii_of_string "oops"))).
  - reflexivity.
  - vm_compute. reflexivity.
  - discriminate.
  - vm_compute. reflexivity.
  - intros g [= <-]. eexists _, _. reflexivity.
Defined.

(** C1, as it was stated, fails at the empty frame: [JSON.parse] rejects the
    empty text, and the reader yields the empty-response marker for it. *)
Lemma empty_frame_is_no_error :
  ¬ (∀ (r : reader CounterIdGen) (events : list event) (rawBody : string)
       (frames : list string) (ending : next_result) (e : JsError),
       finished r = false →
       pending_frames r events = (rawBody :: frames, ending) →
       JSON.parse rawBody = inr e →
       (∀ g, this r = Some g → ∃ id g', reqestIdGenerator g (socket_id r) = (Return id, g')) →
       ∃ (message : object) (r' : reader CounterIdGen) (events' : list event),
         next r events = (Value (VObj message), r', events')
         ∧ message !! "invalidResponse" = Some (VStr rawBody)).
Proof.
  intros Hclaim.
  destruct (Hclaim (messagesReader None None) [Data LF] "" [] Pending
              (JSON.SyntaxError [] []))
    as (message & r' & events' & Hnext & Hfield).
  - reflexivity.
  - reflexivity.
  - vm_compute. reflexivity.
  - intros g [=].
  - vm_compute in Hnext. injection Hnext as <- _ _.
    vm_compute in Hfield. discriminate.
Qed.

(** C2.  However a stream is cut into chunks, the reader yields the same
    messages, and ends the same way, as on the stream delivered as one
    chunk: [datas] are the chunks in order, [join datas] is the whole stream,
    and [rest] is what the socket emits afterwards.  In both cases the reader
    is run to the end of its sequence. *)
Theorem chunk_boundary_invariance `{MessageReaderContext G} (r : reader G)
    (datas : list string) (rest : list event) :
  drain r ((Data <$> datas) ++ rest) = drain r (Data (join datas) :: rest)
  ∧ ∃ messages ending, drain r (Data (join datas) :: rest) = (messages, Some ending).
Proof.
  split; [| apply drain_ends].
  destruct (finished r) eqn:Hfin.
  - by rewrite !drain_finished.
  - rewrite !drain_spec by done. unfold pending_frames.
    destruct (frames_of (join (buffer r)) (chunks r)) as [frames remainder].
    by rewrite stream_frames_chunks.
Qed.

(** C9 (as amended).  When a generator is bound, a yielded message that is
    an object (a parsed object or array, a parse failure, an empty response)
    carries as [id] the next id of the generator, which has advanced by that
    one call; a yielded message that is falsy (the frames [null], [false],
    [0] and the empty string literal) is yielded without the generator being
    called.  And the messages are yielded: a frame that gives an object is
    yielded with the id the generator returns, and a frame that gives a
    falsy value is yielded as that value, on which no [id] can be read, the
    reader going on with the frames that follow. *)
Theorem yielded_message_gets_next_id `{MessageReaderContext G} (r : reader G)
    (events : list event) (g : G) :
  this r = Some g →
  (∀ (message : value) (r' : reader G) (events' : list event),
     next r events = (Value message, r', events') →
     (is_object message = true →
      ∃ id g', reqestIdGenerator g (socket_id r) = (Return id, g')
               ∧ get_property message "id" = Return (VStr id)
               ∧ this r' = Some g')
     ∧ (truthy message = false → this r' = Some g))
  ∧ (∀ (rawBody : string) (frames : list string) (ending : next_result),
       finished r = false →
       pending_frames r events = (rawBody :: frames, ending) →
       (is_object (frame_message rawBody) = true →
        ∀ id g',
          reqestIdGenerator g (socket_id r) = (Return id, g') →
          ∃ r' events',
            next r events = (Value (tagged (frame_message rawBody) id), r', events')
            ∧ this r' = Some g'
            ∧ finished r' = false
            ∧ pending_frames r' events' = (frames, ending))
       ∧ (truthy (frame_message rawBody) = false →
          (∃ r' events',
             next r events = (Value (frame_message rawBody), r', events')
             ∧ this r' = Some g
             ∧ finished r' = false
             ∧ pending_frames r' events' = (frames, ending))
          ∧ ∀ id, get_property (frame_message rawBody) "id" ≠ Return (VStr id))).
Proof.
  intros Hthis. split.
  - intros message r' events' Hnext.
    destruct (finished r) eqn:Hfin; [by rewrite next_finished in Hnext |].
    pose proof (next_spec r events Hfin) as Hspec.
    pose proof (stream_frames_ending) as Hend.
    destruct (pending_frames r events) as [[|f fs] ending] eqn:Hp.
    + destruct Hspec as (r1 & ev1 & Hspec). rewrite Hspec in Hnext.
      injection Hnext as Hvalue _ _. unfold pending_frames in Hp.
      destruct (frames_of (join (buffer r)) (chunks r)) as [fs rm].
      specialize (Hend rm events message).
      destruct (stream_frames rm events). injection Hp as _ Hending.
      simpl in Hend. congruence.
    + destruct Hspec as (r1 & ev1 & _ & _ & Hspec). rewrite Hthis in Hspec.
      destruct (assign_id (Some g) (socket_id r) (frame_message f))
        as [[m|t] this'] eqn:Hassign.
      * destruct Hspec as (Hspec & Hthis' & _). rewrite Hspec in Hnext.
        injection Hnext as Hm Hr _. subst m r1. apply assign_id_inv in Hassign.
        destruct (truthy (frame_message f)) eqn:Htruthy.
        -- destruct Hassign as (id & g' & Hid & Hset & ->).
           apply set_property_get in Hset as [Htrue Hget].
           split; [by eauto | congruence].
        -- destruct Hassign as [-> ->]. split; [| done].
           intros Hobj. by destruct (frame_message f).
      * destruct Hspec as (Hspec & _). rewrite Hspec in Hnext. done.
  - intros rawBody frames ending Hfin Hp.
    pose proof (next_spec r events Hfin) as Hspec. rewrite Hp, Hthis in Hspec.
    destruct Hspec as (r' & events' & Hp' & _ & Hspec). split.
    + intros Hobj id g' Hid. unfold assign_id in Hspec.
      replace (truthy (frame_message rawBody)) with true in Hspec
        by (by destruct (frame_message rawBody)).
      rewrite Hid in Hspec. cbn [mbind outcome_bind] in Hspec.
      replace (set_property (frame_message rawBody) "id" (VStr id))
        with (Return (tagged (frame_message rawBody) id) : outcome value) in Hspec
        by (by destruct (frame_message rawBody)).
      destruct Hspec as (Hnext & Hthis' & Hfin'). by exists r', events'.
    + intros Hfalsy. unfold assign_id in Hspec. rewrite Hfalsy in Hspec.
      destruct Hspec as (Hnext & Hthis' & Hfin'). split; [by exists r', events' |].
      intros id. by destruct (frame_message rawBody).
Qed.

Lemma yielded_message_gets_next_id_witness :
  (∀ (message : value) (r' : reader CounterIdGen) (events' : list event),
     next (messagesReader (Some (counter (Some 16))) (Some "a.1"))
          [Data ("null" +:+ LF +:+ "{}" +:+ LF)]
     = (Value message, r', events') →
     (is_object message = true →
      ∃ id g', reqestIdGenerator (counter (Some 16))
                 (socket_id (messagesReader (Some (counter (Some 16))) (Some "a.1")))
               = (Return id, g')
               ∧ get_property message "id" = Return (VStr id)
               ∧ this r' = Some g')
     ∧ (truthy message = false → this r' = Some (counter (Some 16))))
  ∧ (∀ (rawBody : string) (frames : list string) (ending : next_result),
       finished (messagesReader (Some (counter (Some 16))) (Some "a.1")) = false →
       pending_frames (messagesReader (Some (counter (Some 16))) (Some "a.1"))
                      [Data ("null" +:+ LF +:+ "{}" +:+ LF)]
       = (rawBody :: frames, ending) →
       (is_object (frame_message rawBody) = true →
        ∀ id g',
          reqestIdGenerator (counter (Some 16))
            (socket_id (messagesReader (Some (counter (Some 16))) (Some "a.1")))
          = (Return id, g') →
          ∃ r' events',
            next (messagesReader (Some (counter (Some 16))) (Some "a.1"))
                 [Data ("null" +:+ LF +:+ "{}" +:+ LF)]
            = (Value (tagged (frame_message rawBody) id), r', events')
            ∧ this r' = Some g'
            ∧ finished r' = false
            ∧ pending_frames r' events' = (frames, ending))
       ∧ (truthy (frame_message rawBody) = false →
          (∃ r' events',
             next (messagesReader (Some (counter (Some 16))) (Some "a.1"))
                  [Data ("null" +:+ LF +:+ "{}" +:+ LF)]
             = (Value (frame_message rawBody), r', events')
             ∧ this r' = Some (counter (Some 16))
             ∧ finished r' = false
             ∧ pending_frames r' events' = (frames, ending))
          ∧ ∀ id, get_property (frame_message rawBody) "id" ≠ Return (VStr id))).
Proof.
  apply (yielded_message_gets_next_id
           (messagesReader (Some (counter (Some 16))) (Some "a.1"))
           [Data ("null" +:+ LF +:+ "{}" +:+ LF)]
           (counter (Some 16))).
  reflexivity.
Defined.

(** C9, as it was stated, fails at the frame [null]: the reader yields the
    value [null], on which there is no [id]. *)
Lemma null_frame_gets_no_id :
  ¬ (∀ (r : reader CounterIdGen) (events : list event) (g : CounterIdGen)
       (message : value) (r' : reader CounterIdGen) (events' : list event),
       this r = Some g →
       next r events = (Value message, r', events') →
       ∃ id g', reqestIdGenerator g (socket_id r) = (Return id, g')
                ∧ get_property message "id" = Return (VStr id)).
Proof.
  intros Hclaim.
  destruct (Hclaim (messagesReader (Some (counter (Some 16))) (Some "a.1"))
              [Data ("null" +:+ LF)] (counter (Some 16)) VNull
              (mkReader (Some (counter (Some 16))) (Some "a.1") [] [""] false) [])
    as (id & g' & _ & Hget).
  - reflexivity.
  - vm_compute. reflexivity.
  - discriminate.
Qed.

(** A frame that parses to a truthy primitive cannot take the [id]: with a
    generator bound the assignment throws, the reader rejects and yields
    nothing more. *)
Example number_frame_rejects :
  ∃ t, drain (messagesReader (Some (counter (Some 16))) (Some "a.1"))
             [Data ("7" +:+ LF +:+ "{}" +:+ LF); End]
       = ([], Some (Rejected (ThrownError t)))
       ∧ error_prop t "name" = VStr "TypeError".
Proof. eexists. split; vm_compute; reflexivity. Qed.

(** ** Error codec *)

(** C3 (as amended).  [asMessageError] follows the table of the Error Codec
    row by row, the row "object exposing a textual representation" being
    about every truthy value that is not a string and has a [toString] (an
    object, and also a number other than zero or [true]), and every other
    value (a falsy one, or one without [toString]) falling under "anything
    else"; the message has a [stack] only when the trace flag is on. *)
Theorem asMessageError_follows_table (e : thrown) (addStack : bool) :
  spec_encode truthy e addStack (asMessageError e addStack)
  ∧ (is_Some (asMessageError e addStack !! "stack") → addStack = true).
Proof.
  destruct e as [e | v toString].
  - unfold asMessageError, instanceof_ErrorResponse.
    destruct (cls e) eqn:Hcls.
    + split; [by constructor; rewrite Hcls |].
      destruct addStack; [done |]. intros [x Hx]. by simplify_map_eq.
    + split; [by apply encode_details |]. intros [x Hx]. by simplify_map_eq.
    + split; [by constructor; rewrite Hcls |].
      destruct addStack; [done |]. intros [x Hx]. by simplify_map_eq.
  - assert (∀ m : object, m !! "stack" = None → is_Some (m !! "stack") → addStack = true)
      as Hno by (intros m -> [x Hx]; done).
    destruct v as [| | b | m x | s | elems props | props].
    + split; [apply encode_unknown; naive_solver | by apply Hno].
    + split; [apply encode_unknown; naive_solver | by apply Hno].
    + destruct b, toString as [text|];
        (split; [first [ by apply encode_object | apply encode_unknown; naive_solver ]
                | by apply Hno]).
    + unfold asMessageError. destruct (truthy (VNum m x)) eqn:Hz, toString as [text|];
        (split; [first [ by apply encode_object | apply encode_unknown; naive_solver ]
                | by apply Hno]).
    + split; [by apply encode_string | by apply Hno].
    + destruct toString as [text|];
        (split; [first [ by apply encode_object | apply encode_unknown; naive_solver ]
                | by apply Hno]).
    + destruct toString as [text|];
        (split; [first [ by apply encode_object | apply encode_unknown; naive_solver ]
                | by apply Hno]).
Qed.

(** C3, as it was stated, fails on thrown booleans: [true] is put in the row
    of objects with a textual representation and [false] under "anything
    else", though both have a [toString] and neither is an object.  No
    reading of that row which treats the two alike fits. *)
Lemma thrown_booleans_fall_in_different_rows :
  ¬ (∃ exposing : value → bool,
       exposing (VBool true) = exposing (VBool false)
       ∧ ∀ e addStack, spec_encode exposing e addStack (asMessageError e addStack)).
Proof.
  intros (exposing & Halike & Htable).
  pose proof (Htable (ThrownValue (VBool true) (Some "true")) false) as Htrue.
  pose proof (Htable (ThrownValue (VBool false) (Some "false")) false) as Hfalse.
  assert (exposing (VBool true) = true) as Ht by (by inversion Htrue).
  assert (exposing (VBool false) = false) as Hf
    by (inversion Hfalse; intuition congruence).
  congruence.
Qed.

(** ** Client call *)

Lemma on_response_error (m : object) (error : string) :
  m !! "error" = Some (VStr error) → error ≠ "" →
  on_response (Value (VObj m)) = RejectsRemote (RemoteError m).
Proof.
  intros Herror Hne. unfold on_response. simpl. rewrite Herror. simpl.
  by destruct error.
Qed.

Lemma on_response_empty_error (m : object) :
  m !! "error" = Some (VStr "") →
  on_response (Value (VObj m)) = Resolves (default VUndefined (m !! "body")).
Proof. intros Herror. unfold on_response. simpl. by rewrite Herror. Qed.

Lemma on_response_ok (m : object) :
  m !! "error" = None →
  on_response (Value (VObj m)) = Resolves (default VUndefined (m !! "body")).
Proof. intros Herror. unfold on_response. simpl. by rewrite Herror. Qed.

(** The scenario of the spec: the handler rejects the name ["socket"] with an
    [ErrorResponse] carrying [{name: "socket"}]; the client's [call] raises a
    failure with that message, those details and the id of the request. *)
Example error_fidelity :
  ∃ response e,
    respond (fun _ => Throw (ThrownError
                               (ErrorResponse "Name is invalid (should start with cappital char)"
                                  (VObj {[ "name" := VStr "socket" ]}) "at handler")))
            (Some true)
            (VObj {[ "id" := VStr "a.0.0"; "body" := VStr "socket" ]})
    = Return response
    ∧ on_response (Value response) = RejectsRemote (Some e)
    ∧ error_prop e "message" = VStr "Name is invalid (should start with cappital char)"
    ∧ error_prop e "details" = VObj {[ "name" := VStr "socket" ]}
    ∧ error_prop e "id" = VStr "a.0.0".
Proof. eexists _, _. split_and!; vm_compute; reflexivity. Qed.

(** C4.  When the handler throws a failure with an empty message
    ([new Error('')]), the service answers with the Error-variant message
    [{id, error: '', type: 'Error'}]; on that message [call] does not raise:
    it resolves with the [body] the message does not have. *)
Theorem empty_error_text_resolves :
  respond (fun _ => Throw (ThrownError (mkJsError (ErrorClass "Error")
                                          {[ "message" := VStr "" ]})))
          None (VObj {[ "id" := VStr "a.0.0"; "body" := VStr "socket" ]})
  = Return (VObj {[ "id" := VStr "a.0.0"; "error" := VStr ""; "type" := VStr "Error" ]})
  ∧ on_response
      (Value (VObj {[ "id" := VStr "a.0.0"; "error" := VStr ""; "type" := VStr "Error" ]}))
    = Resolves VUndefined
  ∧ (call (connected (G := CounterIdGen)
             [Data ("{" +:+ DQ +:+ "id" +:+ DQ +:+ ":" +:+ DQ +:+ "a.0.0" +:+ DQ +:+ ","
                    +:+ DQ +:+ "error" +:+ DQ +:+ ":" +:+ DQ +:+ DQ +:+ ","
                    +:+ DQ +:+ "type" +:+ DQ +:+ ":" +:+ DQ +:+ "Error" +:+ DQ +:+ "}" +:+ LF)])
          (VStr "socket")).1
    = Resolves VUndefined.
Proof. split_and!; vm_compute; reflexivity. Qed.

(** C10.  When the reader has finished, [call] writes its request and
    resolves with [null]. *)
Theorem call_on_finished_reader `{MessageReaderContext G} (c : client G) (body : value) :
  finished (client_reader c) = true →
  call c body
  = (Resolves VNull,
     mkClient (client_reader c) (incoming c) (written c ++ [VObj {[ "body" := body ]}])).
Proof. intros Hfin. unfold call. by rewrite next_finished. Qed.

Lemma call_on_finished_reader_witness :
  call (mkClient (mkReader (G := CounterIdGen) None None [] [] true) [] []) (VStr "Socket")
  = (Resolves VNull,
     mkClient (mkReader None None [] [] true) [] [VObj {[ "body" := VStr "Socket" ]}]).
Proof.
  apply (call_on_finished_reader
           (mkClient (mkReader (G := CounterIdGen) None None [] [] true) [] [])
           (VStr "Socket")).
  reflexivity.
Defined.

(** ** RemoteError *)

Lemma MessageError_fields (m : object) :
  is_MessageError m = true →
  ∃ error type,
    m !! "error" = Some (VStr error) ∧ m !! "type" = Some (VStr type)
    ∧ string_or_absent (m !! "stack") = true
    ∧ m !! "message" = None ∧ m !! "name" = None.
Proof.
  unfold is_MessageError. intros Hm.
  destruct (m !! "error") as [[]|]; try done.
  destruct (m !! "type") as [[]|]; try done.
  apply andb_prop in Hm as [Hm Hdom]. apply andb_prop in Hm as [_ Hstack].
  apply bool_decide_eq_true in Hdom.
  eexists _, _. split_and!; [done | done | done | |].
  - apply not_elem_of_dom. intros Hin. apply Hdom in Hin.
    set_unfold. intuition discriminate.
  - apply not_elem_of_dom. intros Hin. apply Hdom in Hin.
    set_unfold. intuition discriminate.
Qed.

Lemma MessageError_no_proto (m : object) :
  is_MessageError m = true → m !! "__proto__" = None.
Proof.
  unfold is_MessageError. intros Hm.
  destruct (m !! "error") as [[]|]; try done.
  destruct (m !! "type") as [[]|]; try done.
  apply andb_prop in Hm as [_ Hdom]. apply bool_decide_eq_true in Hdom.
  apply not_elem_of_dom. intros Hin. apply Hdom in Hin.
  set_unfold. intuition discriminate.
Qed.

(** C5 (as amended).  The failure built from an Error-variant message [m]
    has [m.error] as its message and keeps the name [Error] of its class,
    [m.type] being attached as the attribute [type]; its trace is
    ["Error: " + m.stack] when [m.stack] is a non-empty string and the empty
    string otherwise; and [id], [type], [invalidResponse] and [details] are
    attached as they are in [m]. *)
Theorem RemoteError_fields (m : object) :
  is_MessageError m = true →
  ∃ e, RemoteError m = Some e
    ∧ Some (error_prop e "message") = m !! "error"
    ∧ error_prop e "name" = VStr "Error"
    ∧ error_prop e "stack"
      = VStr (match m !! "stack" with
              | Some (VStr (String c s)) => "Error: " +:+ String c s
              | _ => ""
              end)
    ∧ ∀ k, k ∈ ["id"; "type"; "invalidResponse"; "details"] → own e !! k = m !! k.
Proof.
  intros Hm. destruct (MessageError_fields m Hm) as (error & type & He & Ht & Hs & Hmsg & Hname).
  unfold RemoteError. rewrite He.
  assert (∃ stack',
            (if truthy (default VUndefined (m !! "stack"))
             then match default VUndefined (m !! "stack") with
                  | VStr s => Some (proto_name RemoteErrorClass +:+ ": " +:+ s)
                  | _ => None
                  end
             else Some "") = Some stack'
            ∧ stack' = match m !! "stack" with
                       | Some (VStr (String c s)) => "Error: " +:+ String c s
                       | _ => ""
                       end) as (stack' & -> & Hstack').
  { destruct (m !! "stack") as [[| | | |[|c s]| |]|]; try done; simpl; eauto. }
  rewrite !lookup_delete_ne, (MessageError_no_proto m Hm) by done.
  simpl. eexists. split; [done |]. unfold error_prop. simpl.
  split_and!.
  - rewrite lookup_union_r by (by rewrite !lookup_delete_ne, Hmsg).
    by rewrite lookup_insert_ne, lookup_singleton_eq.
  - rewrite lookup_union_r by (by rewrite !lookup_delete_ne, Hname).
    by rewrite lookup_insert_ne, lookup_singleton_ne.
  - rewrite lookup_union_r by (by rewrite lookup_delete_ne, lookup_delete_eq).
    by rewrite lookup_insert_eq, Hstack'.
  - intros k Hk.
    assert (k ≠ "error" ∧ k ≠ "stack" ∧ k ≠ "message" ∧ k ≠ "__proto__") as (? & ? & ? & ?).
    { set_unfold. intuition (subst; discriminate). }
    destruct (m !! k) as [x|] eqn:Hx.
    + apply lookup_union_Some_l. by rewrite !lookup_delete_ne.
    + apply lookup_union_None. split; [by rewrite !lookup_delete_ne |].
      by rewrite lookup_insert_ne, lookup_singleton_ne.
Qed.

Lemma RemoteError_fields_witness :
  ∃ e, RemoteError ({[ "id" := VStr "a.0.0"; "error" := VStr "Name is invalid";
                       "type" := VStr "Error"; "details" := VObj {[ "name" := VStr "socket" ]};
                       "stack" := VStr "at handler" ]} : object) = Some e
    ∧ Some (error_prop e "message")
      = ({[ "id" := VStr "a.0.0"; "error" := VStr "Name is invalid";
            "type" := VStr "Error"; "details" := VObj {[ "name" := VStr "socket" ]};
            "stack" := VStr "at handler" ]} : object) !! "error"
    ∧ error_prop e "name" = VStr "Error"
    ∧ error_prop e "stack"
      = VStr (match ({[ "id" := VStr "a.0.0"; "error" := VStr "Name is invalid";
                        "type" := VStr "Error";
                        "details" := VObj {[ "name" := VStr "socket" ]};
                        "stack" := VStr "at handler" ]} : object) !! "stack" with
              | Some (VStr (String c s)) => "Error: " +:+ String c s
              | _ => ""
              end)
    ∧ ∀ k, k ∈ ["id"; "type"; "invalidResponse"; "details"] →
           own e !! k
           = ({[ "id" := VStr "a.0.0"; "error" := VStr "Name is invalid";
                 "type" := VStr "Error"; "details" := VObj {[ "name" := VStr "socket" ]};
                 "stack" := VStr "at handler" ]} : object) !! k.
Proof.
  apply (RemoteError_fields
           {[ "id" := VStr "a.0.0"; "error" := VStr "Name is invalid";
              "type" := VStr "Error"; "details" := VObj {[ "name" := VStr "socket" ]};
              "stack" := VStr "at handler" ]}).
  vm_compute. reflexivity.
Defined.

(** C5, as it was stated, fails for a message whose [type] is not ["Error"]:
    the name of the failure is not the message's [type], and its trace does
    not begin with that [type] either. *)
Lemma RemoteError_name_is_not_type :
  ¬ (∀ (m : object) (e : JsError),
       is_MessageError m = true → RemoteError m = Some e →
       Some (error_prop e "name") = m !! "type"
       ∨ ∃ type rest, m !! "type" = Some (VStr type)
                      ∧ error_prop e "stack" = VStr (type +:+ rest)).
Proof.
  intros Hclaim.
  pose (m := {[ "error" := VStr "boom"; "type" := VStr "TypeError";
                "stack" := VStr "at f" ]} : object).
  destruct (RemoteError m) as [e|] eqn:He; [| vm_compute in He; discriminate].
  specialize (Hclaim m e eq_refl He).
  vm_compute in He. injection He as <-.
  destruct Hclaim as [Hname | (type & rest & Htype & Hstack)].
  - vm_compute in Hname. discriminate.
  - vm_compute in Htype. injection Htype as <-.
    vm_compute in Hstack. discriminate.
Qed.

(** ** Id generator *)

Lemma CounterIdGen_call_spec (g : CounterIdGen) (prefix join : option string) :
  2 ≤ radix g ≤ 36 →
  count g < 2 ^ 53 →
  CounterIdGen_call g prefix join
  = (Return (id_text (radix g) prefix join (count g)), mkCounter (radix g) (count g + 1)).
Proof.
  intros Hradix Hcount. unfold CounterIdGen_call, Number_toString, js_succ.
  replace (radix g <? 2) with false by lia.
  replace (36 <? radix g) with false by lia.
  replace (count g <? 2 ^ 53) with true by lia.
  destruct prefix as [[|c p]|]; simpl; [done | | done].
  by rewrite append_assoc.
Qed.

Lemma invocations_spec (args : list (option string * option string)) (g : CounterIdGen)
    (k : nat) (prefix join : option string) :
  2 ≤ radix g ≤ 36 →
  count g + Z.of_nat (length args) ≤ 2 ^ 53 →
  args !! k = Some (prefix, join) →
  invocations g args !! k
  = Some (Return (id_text (radix g) prefix join (count g + Z.of_nat k)),
          mkCounter (radix g) (count g + Z.of_nat k + 1)).
Proof.
  revert g k. induction args as [|[p j] args IH]; intros g k Hradix Hcount Hk; [done |].
  simpl in Hcount. cbn [invocations].
  rewrite CounterIdGen_call_spec by lia.
  destruct k as [|k].
  - injection Hk as -> ->. simpl. by rewrite Z.add_0_r.
  - simpl in Hk. simpl. rewrite (IH (mkCounter (radix g) (count g + 1)) k); simpl; [| lia.. | done].
    do 3 f_equal; [f_equal |]; lia.
Qed.

Lemma digit_value_char (d : Z) : 0 ≤ d < 36 → digit_value (digit_char d) = d.
Proof.
  intros Hd. unfold digit_value, digit_char.
  rewrite N_ascii_embedding by (destruct (d <? 10); lia).
  rewrite Z2N.id by (destruct (d <? 10); lia).
  destruct (d <? 10) eqn:Hlt; [replace (48 + d <? 58) with true by lia
                             | replace (87 + d <? 58) with false by lia]; lia.
Qed.

Lemma undigits_digits (fuel : nat) (radix n : Z) (acc : string) :
  2 ≤ radix ≤ 36 →
  0 ≤ n < radix ^ Z.of_nat (S fuel) →
  undigits radix (digits fuel radix n acc) 0 = undigits radix acc n.
Proof.
  intros Hradix. revert n acc. induction fuel as [|fuel IH]; intros n acc Hn.
  - simpl. rewrite digit_value_char by (pose proof (Z.mod_pos_bound n radix); lia).
    change (Z.of_nat 1) with 1 in Hn. rewrite Z.pow_1_r in Hn.
    rewrite Z.mod_small by lia. f_equal.
  - cbn [digits]. destruct (n / radix =? 0) eqn:Hq.
    + simpl. rewrite digit_value_char by (pose proof (Z.mod_pos_bound n radix); lia).
      assert (n / radix = 0) as Hq' by lia.
      apply Z.div_small_iff in Hq' as [Hq'|Hq']; [| lia..].
      rewrite Z.mod_small by lia. f_equal.
    + rewrite IH.
      * simpl. rewrite digit_value_char by (pose proof (Z.mod_pos_bound n radix); lia).
        f_equal. pose proof (Z.div_mod n radix). lia.
      * split; [apply Z.div_pos; lia |].
        apply Z.div_lt_upper_bound; [lia |].
        rewrite <- Z.pow_succ_r by lia. rewrite <- Nat2Z.inj_succ. lia.
Qed.

(** Distinct counter values have distinct renderings. *)
Lemma integer_text_inj (radix n n' : Z) :
  2 ≤ radix ≤ 36 → 0 ≤ n → 0 ≤ n' →
  integer_text radix n = integer_text radix n' → n = n'.
Proof.
  intros Hradix Hn Hn' Heq.
  assert (∀ x, 0 ≤ x → undigits radix (integer_text radix x) 0 = x) as Hback.
  { intros x Hx. unfold integer_text. replace (x <? 0) with false by lia.
    rewrite Z.abs_eq by done. rewrite undigits_digits; [done | done |].
    split; [done |]. rewrite Nat2Z.inj_succ, Z2Nat.id by apply Z.log2_nonneg.
    destruct (Z.eq_dec x 0) as [-> | Hx0]; [simpl; lia |].
    pose proof (Z.log2_spec x ltac:(lia)) as [_ Hlog].
    eapply Z.lt_le_trans; [exact Hlog |].
    apply Z.pow_le_mono_l. lia. }
  rewrite <- (Hback n Hn), <- (Hback n' Hn'). by rewrite Heq.
Qed.

Lemma call_counter_frame (l l' : nat) (prefix join : option string) (h h' : heap)
    (result : outcome string) :
  l ≠ l' →
  call_counter l prefix join h = Some (result, h') →
  h' !! l' = h !! l'.
Proof.
  unfold call_counter. intros Hne Hcall. destruct (h !! l) as [g|]; [| done].
  destruct (CounterIdGen_call g prefix join) as [r g']. injection Hcall as _ <-.
  by rewrite lookup_insert_ne.
Qed.

Lemma new_counter_fresh (radix : option Z) (h : heap) :
  h !! (new_counter radix h).1 = None
  ∧ (new_counter radix h).2 !! (new_counter radix h).1 = Some (counter radix)
  ∧ ∀ l, is_Some (h !! l) → (new_counter radix h).2 !! l = h !! l.
Proof.
  unfold new_counter. simpl.
  assert (h !! fresh (dom h) = None) as Hfresh.
  { apply not_elem_of_dom. apply is_fresh. }
  split_and!; [done | by rewrite lookup_insert_eq |].
  intros l [g Hl]. rewrite lookup_insert_ne; [done |]. intros <-. congruence.
Qed.

(** C6 (as amended).  An instance made by [counter(radix)] with a radix
    that [toString] accepts (10 when none is given) returns, at its [k]-th
    call from its creation ([k] below [2^53]), the text for [k] in that
    radix (prefix and join first when there is a prefix, the join being
    ["."] by default) and holds [k + 1] afterwards: the counts used run 0,
    1, 2, ..., strictly increasing, and their renderings never repeat.  A
    call of one instance leaves every other instance as it was, and
    [counter] makes an instance that no earlier one is. *)
Theorem counter_ids (radix : option Z) (args : list (option string * option string)) :
  2 ≤ default 10 radix ≤ 36 →
  Z.of_nat (length args) ≤ 2 ^ 53 →
  (∀ k prefix join,
     args !! k = Some (prefix, join) →
     invocations (counter radix) args !! k
     = Some (Return (id_text (default 10 radix) prefix join (Z.of_nat k)),
             mkCounter (default 10 radix) (Z.of_nat k + 1)))
  ∧ (∀ i j : nat,
       i ≠ j →
       integer_text (default 10 radix) (Z.of_nat i)
       ≠ integer_text (default 10 radix) (Z.of_nat j))
  ∧ (∀ (h h' : heap) (l l' : nat) prefix join result,
       l ≠ l' →
       call_counter l prefix join h = Some (result, h') →
       h' !! l' = h !! l')
  ∧ (∀ (h : heap) (radix : option Z),
       h !! (new_counter radix h).1 = None
       ∧ (new_counter radix h).2 !! (new_counter radix h).1 = Some (counter radix)
       ∧ ∀ l, is_Some (h !! l) → (new_counter radix h).2 !! l = h !! l).
Proof.
  intros Hradix Hlen. split_and!.
  - intros k prefix join Hk.
    rewrite (invocations_spec args (counter radix) k prefix join); [done | done | | done].
    simpl. lia.
  - intros i j Hij Heq. apply integer_text_inj in Heq; lia.
  - intros h h' l l' prefix join result. apply call_counter_frame.
  - intros h radix'. apply new_counter_fresh.
Qed.

Lemma counter_ids_witness :
  (∀ k prefix join,
     [(Some "host.18c", None); (None, None); (Some "a", Some "/")] !! k = Some (prefix, join) →
     invocations (counter (Some 16))
       [(Some "host.18c", None); (None, None); (Some "a", Some "/")] !! k
     = Some (Return (id_text (default 10 (Some 16)) prefix join (Z.of_nat k)),
             mkCounter (default 10 (Some 16)) (Z.of_nat k + 1)))
  ∧ (∀ i j : nat,
       i ≠ j →
       integer_text (default 10 (Some 16)) (Z.of_nat i)
       ≠ integer_text (default 10 (Some 16)) (Z.of_nat j))
  ∧ (∀ (h h' : heap) (l l' : nat) prefix join result,
       l ≠ l' →
       call_counter l prefix join h = Some (result, h') →
       h' !! l' = h !! l')
  ∧ (∀ (h : heap) (radix : option Z),
       h !! (new_counter radix h).1 = None
       ∧ (new_counter radix h).2 !! (new_counter radix h).1 = Some (counter radix)
       ∧ ∀ l, is_Some (h !! l) → (new_counter radix h).2 !! l = h !! l).
Proof.
  apply (counter_ids (Some 16)
           [(Some "host.18c", None); (None, None); (Some "a", Some "/")]).
  - simpl. lia.
  - simpl. lia.
Defined.

(** C6, as it was stated, fails for [counter(1)]: [toString] refuses the
    radix, so the first call already (like every later one) throws and
    returns no id. *)
Lemma counter_of_radix_1_returns_no_id :
  ¬ (∀ (radix : option Z) (prefix join : option string),
       ∃ id g', CounterIdGen_call (counter radix) prefix join = (Return id, g')).
Proof.
  intros Hclaim. destruct (Hclaim (Some 1) (Some "host") None) as (id & g' & Hcall).
  vm_compute in Hcall. discriminate.
Qed.

(** ** Service start *)

(** C7 (as amended).  Every call of startService adds one listener to the
    process, for SIGINT, bound to the [stop] of the service it creates; the
    listeners the process already had are kept. *)
Theorem startService_registers_SIGINT (options : string + ServiceOpts)
    (handler : option ServiceHandler) (w : World) :
  process_listeners (startService options handler w).2
  = (process_listeners w ++ [("SIGINT", StopService (startService options handler w).1)])%list
  ∧ (startService options handler w).1 = length (services w).
Proof.
  unfold startService.
  destruct (connetionIdGenerator _) as [g|]; [done |].
  destruct (idGenerator _) as [make|].
  - by destruct (make (generators w)).
  - done.
Qed.

(** C7, as it was stated, fails on the first call already: the process has
    a SIGINT listener afterwards that it did not have. *)
Lemma startService_changes_signal_handlers :
  ¬ (∀ (options : string + ServiceOpts) (handler : option ServiceHandler) (w : World),
       process_listeners (startService options handler w).2 = process_listeners w).
Proof.
  intros Hclaim.
  specialize (Hclaim (inl "link.sock") None (mkWorld "host" 0 ∅ [] [])).
  vm_compute in Hclaim. discriminate.
Qed.

Lemma startService_derived_id (options : string + ServiceOpts)
    (handler : option ServiceHandler) (w : World) :
  match options with
  | inl _ => True
  | inr opts => serviceId opts = None ∨ serviceId opts = Some ""
  end →
  id <$> services (startService options handler w).2 !! (startService options handler w).1
  = Some (Some (hostname w +:+ "." +:+ integer_text 16 (now w))).
Proof.
  intros Hid. unfold startService.
  set (opts := match options with inl a => _ | inr o => o end).
  assert (serviceId opts = None ∨ serviceId opts = Some "") as Hopts
    by (subst opts; destruct options; naive_solver).
  destruct (connetionIdGenerator opts) as [g|];
    [| destruct (idGenerator opts) as [make|]; [destruct (make (generators w)) |]];
    simpl; rewrite list_lookup_middle by done; simpl;
    by destruct Hopts as [-> | ->].
Qed.

(** C8.  Started with a [serviceId] (any text that is not empty), whatever
    the other options, the service has no [id]: the option is only tested,
    never stored. *)
Theorem supplied_serviceId_is_not_assigned (opts : ServiceOpts) (c : ascii) (s : string)
    (handler : option ServiceHandler) (w : World) :
  id <$> services
           (startService
              (inr (mkOpts (on opts) (connetionIdGenerator opts) (Some (String c s))
                           (idGenerator opts) (opts_reqestIdGenerator opts) (log opts)
                           (traceErrors opts)))
              handler w).2
         !! (startService
               (inr (mkOpts (on opts) (connetionIdGenerator opts) (Some (String c s))
                            (idGenerator opts) (opts_reqestIdGenerator opts) (log opts)
                            (traceErrors opts)))
               handler w).1
  = Some None.
Proof.
  unfold startService. cbn [connetionIdGenerator idGenerator serviceId on log].
  destruct (connetionIdGenerator opts) as [g|];
    [| destruct (idGenerator opts) as [make|]; [destruct (make (generators w)) |]];
    simpl; by rewrite list_lookup_middle.
Qed.

(** * Further properties *)

(** ** split and join *)

Lemma count_nl_app (s t : string) : count_nl (s +:+ t) = (count_nl s + count_nl t)%nat.
Proof.
  induction s as [|c s IH]; [done |].
  rewrite append_cons. simpl. rewrite IH. lia.
Qed.

Lemma split_nl_length (data : string) : length (split_nl data) = S (count_nl data).
Proof.
  induction data as [|c data IH]; [done |]. simpl.
  destruct (Ascii.eqb c newline); simpl; [by rewrite IH |].
  destruct (split_nl data); simpl in *; lia.
Qed.

(** X1.  [data.split('\n')] loses nothing and leaves no delimiter behind:
    the pieces joined by newlines are the data again, and no piece contains
    a newline. *)
Theorem split_nl_round_trip (data : string) :
  join_nl (split_nl data) = data
  ∧ Forall (fun piece => count_nl piece = 0%nat) (split_nl data).
Proof.
  induction data as [|c data [IHj IHf]]; [by repeat constructor |].
  simpl. destruct (Ascii.eqb c newline) eqn:Hc.
  - apply Ascii.eqb_eq in Hc as ->. split; [| by constructor].
    destruct (split_nl_cons data) as (p & ps & Hs). rewrite Hs in *.
    change (join_nl ("" :: p :: ps)) with (LF +:+ join_nl (p :: ps)).
    by rewrite IHj.
  - destruct (split_nl_cons data) as (p & ps & Hs). rewrite Hs in *.
    apply Forall_cons in IHf as [Hp Hps]. split.
    + destruct ps as [|q ps]; simpl in *; [by rewrite IHj |].
      rewrite append_cons. by rewrite IHj.
    + constructor; [| done]. simpl. by rewrite Hc.
Qed.

Lemma frames_of_removelast (pre piece : string) (pieces : list string) :
  frames_of pre (piece :: pieces)
  = (removelast ((pre +:+ piece) :: pieces), List.last ((pre +:+ piece) :: pieces) "").
Proof.
  revert pre piece. induction pieces as [|q pieces IH]; intros pre piece; [done |].
  rewrite frames_of_cons2, IH. reflexivity.
Qed.

(** The frames of a whole text: its pieces but the last. *)
Lemma text_frames_split (text : string) :
  (text_frames "" text).1 = removelast (split_nl text).
Proof.
  rewrite <- frames_of_split. destruct (split_nl_cons text) as (p & ps & Hs).
  rewrite Hs, frames_of_removelast. reflexivity.
Qed.

Lemma removelast_length {A} (l : list A) : length (removelast l) = pred (length l).
Proof.
  induction l as [|x [|y l] IH]; [done | done |].
  change (removelast (x :: y :: l)) with (x :: removelast (y :: l)).
  simpl in *. rewrite IH. lia.
Qed.

(** ** The reader on a whole stream *)

Section stream_facts.
Context `{MessageReaderContext G}.

(** Ahead of a reader that has read nothing, on chunks followed by the end
    of the stream, are the pieces of the whole stream but the last. *)
Lemma pending_frames_fresh (this : option G) (socket_id : option string)
    (datas : list string) (rest : list event) :
  pending_frames (messagesReader this socket_id) ((Data <$> datas) ++ End :: rest)
  = (removelast (split_nl (join datas)), Done).
Proof.
  unfold pending_frames. simpl. rewrite stream_frames_chunks. cbn [stream_frames].
  rewrite frames_of_split. rewrite <- text_frames_split.
  destruct (text_frames "" (join datas)) as [fs rm]. simpl. by rewrite app_nil_r.
Qed.

Lemma deliver_unbound (socket_id : option string) (frames : list string)
    (ending : next_result) :
  deliver (None : option G) socket_id frames ending = (frame_message <$> frames, Some ending).
Proof.
  induction frames as [|f frames IH]; [done |]. simpl. by rewrite IH.
Qed.

End stream_facts.

Lemma drain_unbound_stream `{MessageReaderContext G}
    (socket_id : option string) (datas : list string) (rest : list event) :
  drain (messagesReader (None : option G) socket_id) ((Data <$> datas) ++ End :: rest)
  = (frame_message <$> removelast (split_nl (join datas)), Some Done).
Proof.
  rewrite drain_spec by done. rewrite pending_frames_fresh. apply deliver_unbound.
Qed.

(** X2.  A reader called unbound (the client's) yields, for chunks followed
    by the end of the stream, the message of each piece of the whole stream
    in order, the last piece left out, and then ends: it tags nothing,
    raises on no frame, and drops the text after the last delimiter. *)
Theorem unbound_reader_yields_every_frame `{MessageReaderContext G}
    (socket_id : option string) (datas : list string) (rest : list event) :
  drain (messagesReader (None : option G) socket_id) ((Data <$> datas) ++ End :: rest)
  = (frame_message <$> removelast (split_nl (join datas)), Some Done).
Proof.
  rewrite drain_spec by done. rewrite pending_frames_fresh. simpl.
  induction (removelast (split_nl (join datas))) as [|f frames IH]; [done |].
  cbn [deliver assign_id fmap list_fmap]. by rewrite IH.
Qed.

(** X3.  The unbound reader yields exactly one message per delimiter in the
    stream. *)
Theorem one_message_per_delimiter `{MessageReaderContext G}
    (socket_id : option string) (datas : list string) (rest : list event) :
  length (drain (messagesReader (None : option G) socket_id)
                ((Data <$> datas) ++ End :: rest)).1
  = count_nl (join datas).
Proof.
  rewrite drain_unbound_stream. simpl.
  rewrite length_fmap, removelast_length, split_nl_length. done.
Qed.

(** ** The end of the sequence *)

Lemma text_frames_no_newline (text pre : string) :
  count_nl text = 0%nat → text_frames pre text = ([], pre +:+ text).
Proof.
  revert pre. induction text as [|c text IH]; intros pre Hnl.
  - by rewrite append_nil_r.
  - simpl in *. destruct (Ascii.eqb c newline); [done |].
    rewrite IH by done. by rewrite append_assoc.
Qed.

Lemma stream_frames_partial (datas : list string) (text pre : string) (rest : list event) :
  count_nl text = 0%nat →
  stream_frames pre ((Data <$> datas) ++ Data text :: End :: rest)
  = stream_frames pre ((Data <$> datas) ++ End :: rest).
Proof.
  intros Hnl. revert pre. induction datas as [|d datas IH]; intros pre.
  - simpl. rewrite frames_of_split, text_frames_no_newline by done. done.
  - cbn [fmap list_fmap app stream_frames].
    destruct (frames_of pre (split_nl d)) as [fs rm]. by rewrite IH.
Qed.

(** X4.  Text that arrives after the last delimiter and before the end of
    the stream is never delivered: with or without it, the reader (bound or
    not, in any state) yields the same messages. *)
Theorem partial_frame_is_dropped `{MessageReaderContext G} (r : reader G)
    (datas : list string) (text : string) (rest : list event) :
  count_nl text = 0%nat →
  drain r ((Data <$> datas) ++ Data text :: End :: rest)
  = drain r ((Data <$> datas) ++ End :: rest).
Proof.
  intros Hnl. destruct (finished r) eqn:Hfin.
  - by rewrite !drain_finished.
  - rewrite !drain_spec by done. unfold pending_frames.
    destruct (frames_of (join (buffer r)) (chunks r)) as [fs rm].
    by rewrite stream_frames_partial.
Qed.

Lemma partial_frame_is_dropped_witness :
  drain (messagesReader (Some (counter (Some 16))) (Some "a.0"))
        ((Data <$> ["{}" +:+ LF +:+ "{"; "}" +:+ LF]) ++ Data "[1, 2" :: End :: [])
  = drain (messagesReader (Some (counter (Some 16))) (Some "a.0"))
          ((Data <$> ["{}" +:+ LF +:+ "{"; "}" +:+ LF]) ++ End :: []).
Proof.
  apply (partial_frame_is_dropped (messagesReader (Some (counter (Some 16))) (Some "a.0"))
           ["{}" +:+ LF +:+ "{"; "}" +:+ LF] "[1, 2" []).
  reflexivity.
Defined.

Lemma for_turn_finished `{MessageReaderContext G} (r : reader G) :
  finished r = false →
  match for_turn r with
  | Yield _ r' | Await r' => finished r' = false
  | Raise _ r' => finished r' = true
  end.
Proof.
  intros Hrun. unfold for_turn. destruct (chunks r) as [|p [|q c]]; [done | done |].
  by destruct (assign_id _ _ _) as [[m|t] this'].
Qed.

Lemma next_settles `{MessageReaderContext G} (r : reader G) (events : list event) :
  match next r events with
  | (Value _, r', _) => finished r' = false
  | (Done, r', _) | (Rejected _, r', _) => finished r' = true
  | (Pending, r', events') => finished r' = false ∧ events' = []
  end.
Proof.
  revert r. induction events as [|e events IH]; intros r;
    rewrite next_unfold; destruct (finished r) eqn:Hfin; try done;
    pose proof (for_turn_finished r Hfin) as Hturn;
    destruct (for_turn r) as [m r'|t r'|r']; try done.
  destruct e as [d| |t]; [| done | done]. apply IH.
Qed.

(** X5.  Once [next()] has reported the end of the sequence or has
    rejected, the generator is finished: every later [next()] reports the
    end, without taking any event. *)
Theorem sequence_ends_once `{MessageReaderContext G} (r r' : reader G)
    (events events' later : list event) (result : next_result) :
  next r events = (result, r', events') →
  result = Done ∨ (∃ t, result = Rejected t) →
  next r' later = (Done, r', later).
Proof.
  intros Hnext Hres. apply next_finished.
  pose proof (next_settles r events) as Hs. rewrite Hnext in Hs.
  by destruct Hres as [-> | [t ->]].
Qed.

Lemma sequence_ends_once_witness :
  next (mkReader (Some (mkCounter 16 1)) (Some "a.0") [] ["{"] true) [Data ("{}" +:+ LF)]
  = (Done, mkReader (Some (mkCounter 16 1)) (Some "a.0") [] ["{"] true, [Data ("{}" +:+ LF)]).
Proof.
  apply (sequence_ends_once
           (messagesReader (Some (counter (Some 16))) (Some "a.0"))
           (mkReader (Some (mkCounter 16 1)) (Some "a.0") [] ["{"] true)
           [Data ("5" +:+ LF +:+ "{"); Fault (ThrownValue VNull None)]
           [Fault (ThrownValue VNull None)] [Data ("{}" +:+ LF)]
           (Rejected (ThrownError (native_error "TypeError" "Cannot create property 'id'")))).
  - vm_compute. reflexivity.
  - right. eexists. reflexivity.
Defined.

(** ** Request ids *)

Lemma deliver_counter (frames : list string) (g : CounterIdGen) (socket_id : option string)
    (ending : next_result) :
  2 ≤ radix g ≤ 36 →
  count g + Z.of_nat (length frames) ≤ 2 ^ 53 →
  Forall (fun rawBody => is_object (frame_message rawBody) = true) frames →
  deliver (Some g) socket_id frames ending
  = (imap (fun k rawBody =>
             tagged (frame_message rawBody)
                    (id_text (radix g) socket_id None (count g + Z.of_nat k)))
          frames,
     Some ending).
Proof.
  revert g. induction frames as [|f frames IH]; intros g Hradix Hcount Hobj; [done |].
  apply Forall_cons in Hobj as [Hf Hobj]. simpl in Hcount.
  cbn [deliver assign_id].
  replace (truthy (frame_message f)) with true by (by destruct (frame_message f)).
  change (reqestIdGenerator g socket_id) with (CounterIdGen_call g socket_id None).
  rewrite CounterIdGen_call_spec by lia.
  assert (set_property (frame_message f) "id"
            (VStr (id_text (radix g) socket_id None (count g)))
          = Return (tagged (frame_message f) (id_text (radix g) socket_id None (count g))))
    as Hset by (by destruct (frame_message f)).
  cbn [mbind outcome_bind]. rewrite Hset.
  rewrite (IH (mkCounter (radix g) (count g + 1))); simpl; [| lia.. | done].
  rewrite Z.add_0_r. do 2 f_equal.
  apply imap_ext. intros k x _. simpl. do 2 f_equal. lia.
Qed.

(** X6.  On a connection whose reader is bound to a counter (radix within
    2..36, counts below [2^53]), when every frame gives an object (a parsed
    object or array, a parse failure, an empty response), the [k]-th message
    yielded carries the id [socket.id + "." + (count + k).toString(radix)]:
    the ids follow the frames in order, with no gap. *)
Theorem request_ids_follow_frames (g : CounterIdGen) (socket_id : option string)
    (datas : list string) (rest : list event) :
  2 ≤ radix g ≤ 36 →
  count g + Z.of_nat (length (removelast (split_nl (join datas)))) ≤ 2 ^ 53 →
  Forall (fun rawBody => is_object (frame_message rawBody) = true)
         (removelast (split_nl (join datas))) →
  drain (messagesReader (Some g) socket_id) ((Data <$> datas) ++ End :: rest)
  = (imap (fun k rawBody =>
             tagged (frame_message rawBody)
                    (id_text (radix g) socket_id None (count g + Z.of_nat k)))
          (removelast (split_nl (join datas))),
     Some Done).
Proof.
  intros Hradix Hcount Hobj.
  rewrite drain_spec by done. rewrite pending_frames_fresh.
  by apply deliver_counter.
Qed.

Lemma request_ids_follow_frames_witness :
  drain (messagesReader (Some (counter (Some 16))) (Some "host.0"))
        ((Data <$> ["{}" +:+ LF +:+ "oo"; "ps" +:+ LF +:+ LF +:+ "[1]" +:+ LF]) ++ End :: [])
  = (imap (fun k rawBody =>
             tagged (frame_message rawBody)
                    (id_text (radix (counter (Some 16))) (Some "host.0") None
                             (count (counter (Some 16)) + Z.of_nat k)))
          (removelast (split_nl (join ["{}" +:+ LF +:+ "oo"; "ps" +:+ LF +:+ LF +:+ "[1]" +:+ LF]))),
     Some Done).
Proof.
  apply (request_ids_follow_frames (counter (Some 16)) (Some "host.0")
           ["{}" +:+ LF +:+ "oo"; "ps" +:+ LF +:+ LF +:+ "[1]" +:+ LF] []).
  - simpl. lia.
  - vm_compute. discriminate.
  - repeat (apply List.Forall_cons; [vm_compute; reflexivity |]). apply List.Forall_nil.
Defined.

Lemma CounterIdGen_call_bad_radix (g : CounterIdGen) (prefix join : option string) :
  radix g < 2 ∨ 36 < radix g →
  CounterIdGen_call g prefix join
  = (Throw RangeError_radix, mkCounter (radix g) (js_succ (count g))).
Proof.
  intros Hradix. unfold CounterIdGen_call, Number_toString.
  replace ((radix g <? 2) || (36 <? radix g)) with true; [done |].
  symmetry. apply orb_true_iff. destruct Hradix; [left | right]; lia.
Qed.

(** X7.  A generator made with a radix that [toString] refuses (below 2 or
    above 36) never returns an id: every one of its calls throws a
    [RangeError], whatever the arguments and however many calls were made
    before. *)
Theorem counter_with_bad_radix_throws (g : CounterIdGen)
    (args : list (option string * option string)) :
  radix g < 2 ∨ 36 < radix g →
  Forall (fun result => result.1 = Throw RangeError_radix) (invocations g args)
  ∧ length (invocations g args) = length args.
Proof.
  revert g. induction args as [|[prefix join] args IH]; intros g Hradix.
  - split; [constructor | done].
  - cbn [invocations]. rewrite CounterIdGen_call_bad_radix by done.
    destruct (IH (mkCounter (radix g) (js_succ (count g))) Hradix) as [IHall IHlen].
    split; [by constructor | by rewrite length_cons, IHlen].
Qed.

Lemma counter_with_bad_radix_throws_witness :
  Forall (fun result => result.1 = Throw RangeError_radix)
         (invocations (counter (Some 1)) [(Some "host", None); (None, None)])
  ∧ length (invocations (counter (Some 1)) [(Some "host", None); (None, None)])
    = length [(Some "host", None); (None : option string, None : option string)].
Proof.
  apply (counter_with_bad_radix_throws (counter (Some 1))
           [(Some "host", None); (None, None)]).
  left. simpl. lia.
Defined.




Lemma id_text_inj (radix : Z) (prefix join : option string) (n n' : Z) :
  2 ≤ radix ≤ 36 → 0 ≤ n → 0 ≤ n' →
  id_text radix prefix join n = id_text radix prefix join n' → n = n'.
Proof.
  intros Hradix Hn Hn'. unfold id_text.
  destruct prefix as [[|c p]|]; [by apply integer_text_inj | | by apply integer_text_inj].
  intros Heq. injection Heq as Heq.
  apply (inj (String.app p)) in Heq. apply (inj (String.app (default "." join))) in Heq.
  by apply integer_text_inj in Heq.
Qed.

(** X9.  Two different calls of one generator with the same prefix and join
    never return the same id. *)
Theorem same_prefix_ids_differ (g : CounterIdGen)
    (args : list (option string * option string)) (i j : nat)
    (prefix join : option string) (id id' : outcome string) (g' g'' : CounterIdGen) :
  2 ≤ radix g ≤ 36 →
  0 ≤ count g →
  count g + Z.of_nat (length args) ≤ 2 ^ 53 →
  i ≠ j →
  args !! i = Some (prefix, join) →
  args !! j = Some (prefix, join) →
  invocations g args !! i = Some (id, g') →
  invocations g args !! j = Some (id', g'') →
  id ≠ id'.
Proof.
  intros Hradix Hcount Hlen Hij Hi Hj Hri Hrj.
  rewrite (invocations_spec args g i prefix join) in Hri by done.
  rewrite (invocations_spec args g j prefix join) in Hrj by done.
  injection Hri as <- _. injection Hrj as <- _.
  intros [= Heq]. apply id_text_inj in Heq; lia.
Qed.

Lemma same_prefix_ids_differ_witness :
  (Return "a.0" : outcome string) ≠ Return "a.2".
Proof.
  apply (same_prefix_ids_differ (counter (Some 16))
           [(Some "a", None); (Some "b", None); (Some "a", None)] 0 2 (Some "a") None
           (Return "a.0") (Return "a.2") (mkCounter 16 1) (mkCounter 16 3)).
  - simpl. lia.
  - simpl. lia.
  - simpl. lia.
  - lia.
  - reflexivity.
  - reflexivity.
  - reflexivity.
  - reflexivity.
Defined.

(** ** Empty frames *)

(** X10.  An empty raw frame (two delimiters in a row, or a delimiter first)
    makes the reader yield the empty-response message [{body: null,
    emptyResponse: true}], with the id a bound generator adds, and go on. *)
Theorem empty_frame_yields_empty_response `{MessageReaderContext G} (r : reader G)
    (events : list event) (frames : list string) (ending : next_result) :
  finished r = false →
  pending_frames r events = ("" :: frames, ending) →
  (∀ g, this r = Some g → ∃ id g', reqestIdGenerator g (socket_id r) = (Return id, g')) →
  ∃ (message : object) (r' : reader G) (events' : list event),
    next r events = (Value (VObj message), r', events')
    ∧ delete "id" message = {[ "body" := VNull; "emptyResponse" := VBool true ]}
    ∧ finished r' = false
    ∧ pending_frames r' events' = (frames, ending).
Proof.
  intros Hrun Hpending Hgen.
  pose proof (next_spec r events Hrun) as Hnext. rewrite Hpending in Hnext.
  destruct Hnext as (r' & events' & Hpending' & _ & Hnext).
  change (frame_message "") with empty_response in Hnext.
  unfold assign_id in Hnext. destruct (this r) as [g|].
  - destruct (Hgen g eq_refl) as (id & g' & Hid). simpl in Hnext. rewrite Hid in Hnext.
    simpl in Hnext. destruct Hnext as (Hnext & _ & Hrun').
    eexists _, r', events'. split_and!; [exact Hnext | | done | done].
    by rewrite delete_insert_id.
  - destruct Hnext as (Hnext & _ & Hrun').
    eexists _, r', events'. split_and!; [exact Hnext | | done | done].
    by rewrite delete_id.
Qed.

Lemma empty_frame_yields_empty_response_witness :
  ∃ (message : object) (r' : reader CounterIdGen) (events' : list event),
    next (messagesReader (Some (counter (Some 16))) (Some "a.1"))
         [Data (LF +:+ "{}" +:+ LF); End]
    = (Value (VObj message), r', events')
    ∧ delete "id" message = {[ "body" := VNull; "emptyResponse" := VBool true ]}
    ∧ finished r' = false
    ∧ pending_frames r' events' = (["{}"], Done).
Proof.
  apply (empty_frame_yields_empty_response
           (messagesReader (Some (counter (Some 16))) (Some "a.1"))
           [Data (LF +:+ "{}" +:+ LF); End] ["{}"] Done).
  - reflexivity.
  - reflexivity.
  - intros g [= <-]. eexists _, _. reflexivity.
Defined.

(** X11.  A call whose answer is an empty frame resolves with [null], as it
    does when the stream has ended: whatever follows the delimiter, and
    whatever was asked. *)
Theorem call_answered_by_empty_frame `{MessageReaderContext G} (text : string)
    (events : list event) (body : value) :
  (call (connected (G := G) (Data (LF +:+ text) :: events)) body).1 = Resolves VNull.
Proof.
  unfold call, connected. cbn [client_reader incoming written].
  rewrite next_unfold. cbn [finished messagesReader for_turn chunks].
  rewrite next_unfold. cbn [finished for_turn chunks buffer].
  change (split_nl (LF +:+ text)) with ("" :: split_nl text).
  destruct (split_nl_cons text) as (p & ps & ->). reflexivity.
Qed.

(** ** Responses *)

Lemma asMessageError_keys (e : thrown) (addStack : bool) :
  is_Some (asMessageError e addStack !! "error")
  ∧ is_Some (asMessageError e addStack !! "type")
  ∧ asMessageError e addStack !! "id" = None
  ∧ asMessageError e addStack !! "body" = None.
Proof.
  destruct e as [e | v toString].
  - unfold asMessageError. destruct (instanceof_ErrorResponse e), addStack;
      split_and!; by simplify_map_eq.
  - unfold asMessageError. repeat case_match; split_and!; by simplify_map_eq.
Qed.

(** X12.  The response to a request echoes the request's [id] and has
    exactly one of the two shapes: [body] and no [error] when the handler
    returned, [error] and [type] and no [body] when it threw. *)
Theorem response_echoes_id (handler : ServiceHandler) (traceErrors : option bool)
    (request id : value) :
  get_property request "id" = Return id →
  ∃ response : object,
    respond handler traceErrors request = Return (VObj response)
    ∧ response !! "id" = Some id
    ∧ match handler request with
      | Return body => response !! "body" = Some body ∧ response !! "error" = None
      | Throw _ =>
          response !! "body" = None
          ∧ is_Some (response !! "error") ∧ is_Some (response !! "type")
      end.
Proof.
  intros Hid. unfold respond. rewrite Hid. cbn [mbind outcome_bind mret outcome_ret].
  eexists. split; [done |].
  destruct (handler request) as [body | e].
  - split_and!; by simplify_map_eq.
  - destruct (asMessageError_keys e (default false traceErrors)) as ([x Hx] & [y Hy] & Hi & Hb).
    split_and!.
    + rewrite lookup_union_r by done. by simplify_map_eq.
    + apply lookup_union_None. split; [done |]. by simplify_map_eq.
    + exists x. by apply lookup_union_Some_l.
    + exists y. by apply lookup_union_Some_l.
Qed.

Lemma response_echoes_id_witness :
  ∃ response : object,
    respond (fun _ => Throw (ThrownValue (VStr "no") (Some "no"))) None
            (VObj {[ "id" := VStr "a.0.3"; "body" := VNull ]})
    = Return (VObj response)
    ∧ response !! "id" = Some (VStr "a.0.3")
    ∧ response !! "body" = None
    ∧ is_Some (response !! "error") ∧ is_Some (response !! "type").
Proof.
  apply (response_echoes_id (fun _ => Throw (ThrownValue (VStr "no") (Some "no"))) None
           (VObj {[ "id" := VStr "a.0.3"; "body" := VNull ]}) (VStr "a.0.3")).
  reflexivity.
Defined.

Lemma get_property_object (request : value) (k : string) :
  is_object request = true → ∃ v, get_property request k = Return v.
Proof. destruct request; try done; simpl; eauto. Qed.

Lemma respond_object (handler : ServiceHandler) (traceErrors : option bool) (request : value) :
  is_object request = true →
  ∃ response, respond handler traceErrors request = Return response
              ∧ get_property response "id" = get_property request "id".
Proof.
  intros Hobj. destruct (get_property_object request "id" Hobj) as [id Hid].
  unfold respond. rewrite Hid. cbn [mbind outcome_bind mret outcome_ret].
  eexists. split; [done |]. simpl. f_equal.
  destruct (handler request) as [body | e].
  - by simplify_map_eq.
  - destruct (asMessageError_keys e (default false traceErrors)) as (_ & _ & Hi & _).
    rewrite lookup_union_r by done. by simplify_map_eq.
Qed.

Lemma dispatch_objects (handler : ServiceHandler) (traceErrors : option bool)
    (requests : list value) :
  Forall (fun request => is_object request = true) requests →
  ∃ responses,
    dispatch handler traceErrors requests = (responses, None)
    ∧ Forall2 (fun request response =>
                 get_property response "id" = get_property request "id")
              requests responses.
Proof.
  induction 1 as [|request requests Hobj _ (responses & Hd & Hall)].
  - exists []. split; [done | constructor].
  - destruct (respond_object handler traceErrors request Hobj) as (response & Hr & Hid).
    exists (response :: responses). simpl. rewrite Hr, Hd. split; [done |]. by constructor.
Qed.

(** X13.  The dispatch loop answers every request that is an object, in the
    order of arrival, one response each, and each response carries the [id]
    of its request; whether the handler returns or throws makes no
    difference to that. *)
Theorem dispatch_answers_in_order (handler : ServiceHandler) (traceErrors : option bool)
    (requests : list value) :
  Forall (fun request => is_object request = true) requests →
  ∃ responses,
    dispatch handler traceErrors requests = (responses, None)
    ∧ Forall2 (fun request response =>
                 get_property response "id" = get_property request "id")
              requests responses.
Proof.
  intros Hobj. induction Hobj as [|request requests Hobj _ (responses & Hd & Hall)].
  - exists []. split; [done | constructor].
  - destruct (respond_object handler traceErrors request Hobj) as (response & Hr & Hid).
    exists (response :: responses). cbn [dispatch]. rewrite Hr, Hd.
    split; [done |]. by constructor.
Qed.

Lemma dispatch_answers_in_order_witness :
  ∃ responses,
    dispatch (fun request => get_property request "body") (Some true)
             [VObj {[ "id" := VStr "a.0.0"; "body" := VStr "Socket" ]};
              VArr [VNull] {[ "id" := VStr "a.0.1" ]}]
    = (responses, None)
    ∧ Forall2 (fun request response =>
                 get_property response "id" = get_property request "id")
              [VObj {[ "id" := VStr "a.0.0"; "body" := VStr "Socket" ]};
               VArr [VNull] {[ "id" := VStr "a.0.1" ]}]
              responses.
Proof.
  apply (dispatch_answers_in_order (fun request => get_property request "body") (Some true)
           [VObj {[ "id" := VStr "a.0.0"; "body" := VStr "Socket" ]};
            VArr [VNull] {[ "id" := VStr "a.0.1" ]}]).
  repeat constructor.
Defined.

(** X14.  A request that is [null] (the frame [null], which the reader
    yields untagged) stops the dispatch loop whatever the handler does: the
    read of [request.id] throws outside the [try], the requests before it
    have been answered, and neither it nor any request after it is. *)
Theorem null_request_stops_dispatch (handler : ServiceHandler) (traceErrors : option bool)
    (before after : list value) :
  Forall (fun request => is_object request = true) before →
  ∃ responses t,
    dispatch handler traceErrors (before ++ VNull :: after) = (responses, Some t)
    ∧ length responses = length before.
Proof.
  induction 1 as [|request requests Hobj _ (responses & t & Hd & Hlen)].
  - eexists [], _. simpl. unfold respond. simpl. done.
  - destruct (respond_object handler traceErrors request Hobj) as (response & Hr & _).
    exists (response :: responses), t. simpl. rewrite Hr, Hd. simpl. by rewrite Hlen.
Qed.

Lemma null_request_stops_dispatch_witness :
  ∃ responses t,
    dispatch (fun _ => Return (VStr "ok")) None
             ([VObj {[ "id" := VStr "a.0.0" ]}] ++ VNull :: [VObj {[ "id" := VStr "a.0.1" ]}])
    = (responses, Some t)
    ∧ length responses = length [VObj {[ "id" := VStr "a.0.0" ]}].
Proof.
  apply (null_request_stops_dispatch (fun _ => Return (VStr "ok")) None
           [VObj {[ "id" := VStr "a.0.0" ]}] [VObj {[ "id" := VStr "a.0.1" ]}]).
  repeat constructor.
Defined.

(** ** Fields of a remote failure *)

Lemma RemoteError_own (m : object) (error : string) :
  m !! "error" = Some (VStr error) →
  string_or_absent (m !! "stack") = true →
  (∀ p, m !! "__proto__" = Some p → is_object p = false ∧ p ≠ VNull) →
  ∃ stack : string,
    RemoteError m
    = Some (mkJsError RemoteErrorClass
              (delete "__proto__" (delete "stack" (delete "error" m))
               ∪ <[ "stack" := VStr stack ]> {[ "message" := VStr error ]}))
    ∧ stack = match m !! "stack" with
              | Some (VStr (String c s)) => "Error: " +:+ String c s
              | _ => ""
              end.
Proof.
  intros He Hs Hp. unfold RemoteError. rewrite He, !lookup_delete_ne by done.
  assert (match m !! "__proto__" with
          | Some (VObj _) | Some (VArr _ _) | Some VNull => False
          | _ => True
          end) as Hproto.
  { destruct (m !! "__proto__") as [p|]; [| done].
    destruct (Hp p eq_refl) as [Hobj Hnull]. by destruct p. }
  destruct (m !! "stack") as [[| | | |[|c s]| |]|]; try done; simpl;
    destruct (m !! "__proto__") as [[]|]; try done; eauto.
Qed.

(** X16.  A field of the message other than [error], [stack] and
    [__proto__] becomes an own property of the failure under its own name,
    also when that name is [message] or [name]: such a field replaces the
    text taken from [error], or the name [Error].  A field [__proto__] with
    a primitive value leaves no property behind. *)
Theorem message_fields_override (m : object) (error : string) (k : string) (v : value) :
  m !! "error" = Some (VStr error) →
  string_or_absent (m !! "stack") = true →
  (∀ p, m !! "__proto__" = Some p → is_object p = false ∧ p ≠ VNull) →
  k ≠ "error" → k ≠ "stack" → k ≠ "__proto__" →
  m !! k = Some v →
  ∃ e, RemoteError m = Some e ∧ error_prop e k = v ∧ own e !! "__proto__" = None.
Proof.
  intros He Hs Hp Hk1 Hk2 Hk3 Hv.
  destruct (RemoteError_own m error He Hs Hp) as (stack & -> & _).
  eexists. split; [done |]. unfold error_prop. cbn [own]. split.
  - by rewrite (lookup_union_Some_l _ _ _ v) by (by rewrite !lookup_delete_ne).
  - apply lookup_union_None. split; [by rewrite lookup_delete_eq |].
    by rewrite lookup_insert_ne, lookup_singleton_ne.
Qed.

Lemma message_fields_override_witness :
  ∃ e, RemoteError {[ "error" := VStr "boom"; "type" := VStr "Error";
                      "message" := VStr "all is well"; "__proto__" := VBool true;
                      "stack" := VStr "at f" ]} = Some e
       ∧ error_prop e "message" = VStr "all is well"
       ∧ own e !! "__proto__" = None.
Proof.
  apply (message_fields_override
           {[ "error" := VStr "boom"; "type" := VStr "Error";
              "message" := VStr "all is well"; "__proto__" := VBool true;
              "stack" := VStr "at f" ]}
           "boom" "message" (VStr "all is well")).
  - reflexivity.
  - reflexivity.
  - intros p Hp. vm_compute in Hp. injection Hp as <-. split; [reflexivity | discriminate].
  - discriminate.
  - discriminate.
  - discriminate.
  - reflexivity.
Defined.

(** ** The client's calls *)

Lemma drain_next `{MessageReaderContext G} (r r' : reader G) (events events' : list event)
    (m : value) :
  next r events = (Value m, r', events') →
  drain r events = let '(messages, ending) := drain r' events' in (m :: messages, ending).
Proof.
  intros Hnext. destruct (finished r) eqn:Hfin.
  { by rewrite next_finished in Hnext. }
  pose proof (next_spec r events Hfin) as Hs.
  pose proof (pending_frames_length r events) as Hlen.
  unfold drain at 1. cbn [collect]. rewrite Hnext.
  destruct (pending_frames r events) as [[|f fs] ending] eqn:Hp.
  - destruct Hs as (r1 & ev1 & Hs). rewrite Hs in Hnext. injection Hnext as -> _ _.
    unfold pending_frames in Hp.
    destruct (frames_of (join (buffer r)) (chunks r)) as [fs rm].
    pose proof (stream_frames_ending rm events m) as Hend.
    destruct (stream_frames rm events). injection Hp as _ ->. done.
  - destruct Hs as (r1 & ev1 & Hp' & Hsid & Hs).
    destruct (assign_id (this r) (socket_id r) (frame_message f)) as [[m'|t] this'];
      destruct Hs as (Hn & Hthis & Hrun'); rewrite Hn in Hnext; [| done].
    injection Hnext as -> -> ->.
    rewrite collect_spec; [| done | rewrite Hp'; simpl in *; lia].
    by rewrite drain_spec.
Qed.

Lemma drain_settled `{MessageReaderContext G} (r r' : reader G) (events events' : list event)
    (result : next_result) :
  next r events = (result, r', events') →
  (∀ m, result ≠ Value m) →
  drain r events = ([], Some result).
Proof.
  intros Hnext Hres. unfold drain. cbn [collect]. rewrite Hnext.
  destruct result; [by destruct (Hres message) | done..].
Qed.

(** X18.  Answers are matched to calls by arrival alone.  For a caller
    that makes its calls one at a time, the [k]-th call is answered from the
    [k]-th message the connection's reader yields (the [id] of the message
    plays no part); the call after the last message is answered by how the
    sequence ends, and every later call resolves with null.  Each call
    writes one [{body}] and nothing else is written. *)
Theorem calls_answered_in_arrival_order `{MessageReaderContext G} (d : driver)
    (c c' : client G) (result : settled) (calls : list (value * settled))
    (messages : list value) (ending : next_result) :
  run d c = (result, c', calls) →
  drain (client_reader c) (incoming c) = (messages, Some ending) →
  (∀ k body answer,
     calls !! k = Some (body, answer) →
     answer = match messages !! k with
              | Some m => on_response (Value m)
              | None => if decide (k = length messages) then on_response ending
                        else Resolves VNull
              end)
  ∧ written c' = (written c ++ ((fun call => VObj {[ "body" := call.1 ]}) <$> calls))%list.
Proof.
  revert c c' result calls messages ending.
  induction d as [res|body continue IH]; intros c c' result calls messages ending Hrun Hdrain.
  { injection Hrun as _ <- <-. split; [done | by rewrite app_nil_r]. }
  cbn [run] in Hrun. unfold call in Hrun.
  destruct (next (client_reader c) (incoming c)) as [[res r1] ev1] eqn:Hnext.
  pose proof (next_settles (client_reader c) (incoming c)) as Hsettle.
  rewrite Hnext in Hsettle.
  assert (∀ answer result c' calls',
            run (continue answer)
                (mkClient r1 ev1 (written c ++ [VObj {[ "body" := body ]}]))
            = (result, c', calls') →
            ∀ messages' ending',
              drain r1 ev1 = (messages', Some ending') →
              (∀ k body' answer',
                 calls' !! k = Some (body', answer') →
                 answer' = match messages' !! k with
                           | Some m => on_response (Value m)
                           | None => if decide (k = length messages')
                                     then on_response ending' else Resolves VNull
                           end)
              ∧ written c'
                = (written c
                   ++ ((fun call => VObj {[ "body" := call.1 ]}) <$> (body, answer) :: calls'))%list)
    as Hrest.
  { intros answer result0 c0 calls' Hrun' messages' ending' Hdrain'.
    destruct (IH answer _ _ _ _ _ _ Hrun' Hdrain') as [Hanswers Hwritten].
    split; [done |]. rewrite Hwritten. cbn [written fmap list_fmap fst]. by rewrite <- app_assoc. }
  destruct res as [m| |t|].
  - rewrite (drain_next _ _ _ _ _ Hnext) in Hdrain.
    destruct (drain r1 ev1) as [ms e] eqn:Hdrain'. injection Hdrain as <- ->.
    assert (on_response (Value m) ≠ Stalls) as Hne.
    { unfold on_response. by repeat case_match. }
    set (answer := on_response (Value m)) in *.
    assert (∃ calls', run (continue answer)
                          (mkClient r1 ev1 (written c ++ [VObj {[ "body" := body ]}]))
                      = (result, c', calls')
                      ∧ calls = (body, answer) :: calls') as (calls' & Hrun' & ->).
    { destruct answer; [| | | done];
        destruct (run _ _) as [[res' c2] calls']; injection Hrun as <- <- <-; eauto. }
    destruct (Hrest _ _ _ _ Hrun' _ _ eq_refl) as [Hanswers Hwritten].
    split; [| done]. intros [|k] body' answer' Hk.
    + by injection Hk as _ <-.
    + apply Hanswers in Hk. change ((m :: ms) !! S k) with (ms !! k).
      destruct (ms !! k); [done |]. cbn [length].
      by repeat case_decide; simplify_eq.
  - rewrite (drain_settled _ _ _ _ _ Hnext) in Hdrain by done.
    injection Hdrain as <- <-. cbn [on_response] in Hrun.
    destruct (run _ _) as [[res' c2] calls'] eqn:Hrun'; injection Hrun as <- <- <-.
    destruct (Hrest _ _ _ _ Hrun' _ _ (drain_finished _ _ Hsettle))
      as [Hanswers Hwritten].
    split; [| done]. intros [|k] body' answer' Hk.
    + by injection Hk as _ <-.
    + apply Hanswers in Hk. by destruct k.
  - rewrite (drain_settled _ _ _ _ _ Hnext) in Hdrain by done.
    injection Hdrain as <- <-. cbn [on_response] in Hrun.
    destruct (run _ _) as [[res' c2] calls'] eqn:Hrun'; injection Hrun as <- <- <-.
    destruct (Hrest _ _ _ _ Hrun' _ _ (drain_finished _ _ Hsettle))
      as [Hanswers Hwritten].
    split; [| done]. intros [|k] body' answer' Hk.
    + by injection Hk as _ <-.
    + apply Hanswers in Hk. by destruct k.
  - rewrite (drain_settled _ _ _ _ _ Hnext) in Hdrain by done.
    injection Hdrain as <- <-. cbn [on_response] in Hrun. injection Hrun as <- <- <-.
    split; [| done]. intros [|k] body' answer' Hk; [| done].
    by injection Hk as _ <-.
Qed.

Lemma calls_answered_in_arrival_order_witness :
  (∀ k body answer,
     [(VStr "Ann", Resolves (VBool true)); (VStr "bob", Resolves VNull)] !! k
     = Some (body, answer) →
     answer = match [VObj {[ "body" := VBool true ]}] !! k with
              | Some m => on_response (Value m)
              | None => if decide (k = length [VObj {[ "body" := VBool true ]}])
                        then on_response Done
                        else Resolves VNull
              end)
  ∧ written (mkClient (mkReader (None : option CounterIdGen) None [""] [] true) []
               [VObj {[ "body" := VStr "Ann" ]}; VObj {[ "body" := VStr "bob" ]}])
    = (written (connected (G := CounterIdGen)
                  [Data ("{" +:+ DQ +:+ "body" +:+ DQ +:+ ":true}" +:+ LF); End])
       ++ ((fun call => VObj {[ "body" := call.1 ]})
             <$> [(VStr "Ann", Resolves (VBool true)); (VStr "bob", Resolves VNull)]))%list.
Proof.
  apply (calls_answered_in_arrival_order
           (CallThen (VStr "Ann") (fun _ => CallThen (VStr "bob") Finish))
           (connected [Data ("{" +:+ DQ +:+ "body" +:+ DQ +:+ ":true}" +:+ LF); End])
           (mkClient (mkReader None None [""] [] true) []
              [VObj {[ "body" := VStr "Ann" ]}; VObj {[ "body" := VStr "bob" ]}])
           (Resolves VNull)
           [(VStr "Ann", Resolves (VBool true)); (VStr "bob", Resolves VNull)]
           [VObj {[ "body" := VBool true ]}] Done).
  - vm_compute. reflexivity.
  - vm_compute. reflexivity.
Defined.

(** ** One-shot requests *)

Lemma next_of_drain `{MessageReaderContext G} (r : reader G) (events : list event)
    (messages : list value) (ending : next_result) :
  drain r events = (messages, Some ending) →
  ∃ r' events',
    next r events
    = (match messages with [] => ending | m :: _ => Value m end, r', events').
Proof.
  unfold drain. cbn [collect].
  destruct (next r events) as [[res r'] events'].
  destruct res; [destruct (collect _ _ _) |..]; intros ?; simplify_eq; eauto.
Qed.

(** X19.  A request with a plain payload is settled by the first line the
    server sends and by nothing after it.  With no complete line before the
    end of the stream the promise resolves with null; a first line that
    answers with a body resolves with it, once the socket has closed; a
    first line that makes [call] reject rejects the promise, and then
    [client.end()] is never called.  In each case exactly one [{body}] has
    been written. *)
Theorem one_shot_request `{MessageReaderContext G} (body : value) (datas : list string)
    (rest : list event) (closes : bool) :
  ∃ c : client G,
    written c = [VObj {[ "body" := body ]}]
    ∧ requestService true (inr body) ((Data <$> datas) ++ End :: rest) closes
      = match removelast (split_nl (join datas)) with
        | [] => (if closes then Resolves VNull else Stalls, c, true)
        | rawBody :: _ =>
            match on_response (Value (frame_message rawBody)) with
            | Resolves v => (if closes then Resolves v else Stalls, c, true)
            | failure => (failure, c, false)
            end
        end.
Proof.
  unfold requestService, connected. cbn [negb run]. unfold call.
  cbn [client_reader incoming written app].
  destruct (next_of_drain _ _ _ _ (drain_unbound_stream (G := G) None datas rest))
    as (r' & events' & ->).
  exists (mkClient r' events' [VObj {[ "body" := body ]}]). split; [done |].
  destruct (removelast (split_nl (join datas))) as [|rawBody frames]; [done |].
  cbn [fmap list_fmap].
  assert (on_response (Value (frame_message rawBody)) ≠ Stalls) as Hne.
  { unfold on_response. by repeat case_match. }
  by destruct (on_response (Value (frame_message rawBody))).
Qed.

(** ** Several services in one process *)

Lemma startService_world (options : string + ServiceOpts) (handler : option ServiceHandler)
    (w : World) :
  ∃ service,
    services (startService options handler w).2 = (services w ++ [service])%list
    ∧ process_listeners (startService options handler w).2
      = (process_listeners w ++ [("SIGINT", StopService (length (services w)))])%list.
Proof.
  unfold startService.
  destruct (connetionIdGenerator _) as [g|];
    [| destruct (idGenerator _) as [make|]; [destruct (make (generators w)) |]];
    cbn [snd services process_listeners]; eauto.
Qed.

(** X20.  Services started one after another in a process pile up on
    SIGINT: after [n] starts the process has [n] more listeners, the [k]-th
    bound to the [stop] of the [k]-th service started, behind the listeners
    it had; none is ever removed, and the services started before are
    still there. *)
Theorem SIGINT_listeners_accumulate
    (starts : list ((string + ServiceOpts) * option ServiceHandler)) (w : World) :
  process_listeners (start_all starts w)
  = (process_listeners w
     ++ imap (fun k _ => ("SIGINT", StopService (length (services w) + k))) starts)%list
  ∧ length (services (start_all starts w)) = (length (services w) + length starts)%nat
  ∧ services w `prefix_of` services (start_all starts w).
Proof.
  revert w. induction starts as [|[options handler] starts IH]; intros w.
  - cbn [start_all imap length]. rewrite app_nil_r. split_and!; [done | lia | done].
  - cbn [start_all imap length].
    destruct (startService_world options handler w) as (service & Hservices & Hlisteners).
    destruct (IH (startService options handler w).2) as (IHl & IHn & IHp).
    rewrite IHl, IHn, Hlisteners, Hservices, length_app, <- app_assoc. cbn [length app].
    split_and!.
    + rewrite Nat.add_0_r. do 2 f_equal. apply imap_ext. intros k x _. simpl.
      do 2 f_equal. lia.
    + lia.
    + rewrite Hservices in IHp. etrans; [by apply prefix_app_r | exact IHp].
Qed.

(** ** Command line *)

Lemma indexOf_first (pre post : list string) (opt : string) :
  opt ∉ pre → indexOf (pre ++ opt :: post) opt = Some (length pre).
Proof.
  induction pre as [|arg pre IH]; intros Hpre; simpl.
  - by rewrite String.eqb_refl.
  - apply not_elem_of_cons in Hpre as [Hne Hpre].
    destruct (String.eqb_spec arg opt) as [-> | _]; [done |].
    by rewrite IH.
Qed.

(** X21.  [argOf] reads the argument that follows the first occurrence of
    the option, whatever that argument is (another option included) and
    whatever comes later; when the option occurs the default plays no
    part. *)
Theorem argOf_takes_what_follows_first_occurrence (pre post : list string)
    (opt arg : string) (defaultValue : option string) :
  opt ∉ pre →
  arg ≠ "" →
  argOf (pre ++ opt :: arg :: post) opt defaultValue = inl arg.
Proof.
  intros Hpre Harg. unfold argOf. rewrite indexOf_first by done.
  rewrite (lookup_app_r pre) by lia.
  replace (S (length pre) - length pre)%nat with 1%nat by lia.
  by destruct arg.
Qed.

Lemma argOf_takes_what_follows_first_occurrence_witness :
  argOf (["node"; "socket-link.js"] ++ "--socket" :: "--service" :: ["--socket"; "b.sock"])
        "--socket" (Some "link.sock")
  = inl "--service".
Proof.
  apply (argOf_takes_what_follows_first_occurrence
           ["node"; "socket-link.js"] ["--socket"; "b.sock"] "--socket" "--service"
           (Some "link.sock")).
  - set_unfold. intuition discriminate.
  - discriminate.
Defined.

(** X22.  What [argOf] returns is never the empty text, and it is an
    argument of the command line or the default. *)
Theorem argOf_result (argv : list string) (opt : string) (defaultValue : option string)
    (value : string) :
  argOf argv opt defaultValue = inl value →
  value ≠ "" ∧ (value ∈ argv ∨ defaultValue = Some value).
Proof.
  unfold argOf. destruct (indexOf argv opt) as [i|].
  - destruct (argv !! S i) as [[|c arg]|] eqn:Hi; [done | | done].
    intros [= <-]. split; [done |]. left. by eapply list_elem_of_lookup_2.
  - destruct defaultValue as [[|c d]|]; simpl; [done | | done].
    intros [= <-]. split; [done |]. by right.
Qed.

Lemma argOf_result_witness :
  "link.sock" ≠ ""
  ∧ ("link.sock" ∈ ["node"; "socket-link.js"; "--service"]
     ∨ Some "link.sock" = Some "link.sock").
Proof.
  apply (argOf_result ["node"; "socket-link.js"; "--service"] "--socket" (Some "link.sock")
           "link.sock").
  reflexivity.
Defined.

(** X23.  An option whose first occurrence is the last argument, or is
    followed by an empty argument, makes [argOf] fail with the message for
    a missing argument, also when there is a default. *)
Theorem argOf_missing_argument (pre : list string) (argv : list string) (opt : string)
    (defaultValue : option string) :
  opt ∉ pre →
  argv = (pre ++ [opt])%list ∨ (∃ post, argv = (pre ++ opt :: "" :: post)%list) →
  argOf argv opt defaultValue = inr ("Missing argument for option " +:+ opt).
Proof.
  intros Hpre Hargv. unfold argOf.
  destruct Hargv as [-> | [post ->]]; rewrite indexOf_first by done.
  - by rewrite lookup_ge_None_2 by (rewrite length_app; simpl; lia).
  - rewrite (lookup_app_r pre) by lia.
    by replace (S (length pre) - length pre)%nat with 1%nat by lia.
Qed.

Lemma argOf_missing_argument_witness :
  argOf ["node"; "socket-link.js"; "--send"] "--send" (Some "hello")
  = inr ("Missing argument for option " +:+ "--send").
Proof.
  apply (argOf_missing_argument ["node"; "socket-link.js"]
           ["node"; "socket-link.js"; "--send"] "--send" (Some "hello")).
  - set_unfold. intuition discriminate.
  - left. reflexivity.
Defined.

(** ** Accepted connections *)

Section accept_facts.
Variables (opts : ServiceOpts) (service : Service).
Hypothesis no_reqestIdGenerator : opts_reqestIdGenerator opts = None.
Hypothesis no_idGenerator : idGenerator opts = None.

Lemma accept_default (srv : Server) (h : heap) (g : CounterIdGen) :
  h !! connectionIdGenerator service = Some g →
  2 ≤ radix g ≤ 36 →
  count g < 2 ^ 53 →
  let h1 := <[ connectionIdGenerator service := mkCounter (radix g) (count g + 1) ]> h in
  accept opts service srv h
  = Some (mkServer
            (accepted srv
             ++ [mkConnection (Some (id_text (radix g) (id service) None (count g)))
                              (Some (fresh (dom h1)))])
            ({[ length (accepted srv) ]} ∪ connections srv),
          <[ fresh (dom h1) := counter (Some 16) ]> h1).
Proof.
  intros Hg Hradix Hcount. unfold accept, call_counter. rewrite Hg.
  rewrite CounterIdGen_call_spec by done.
  by rewrite no_reqestIdGenerator, no_idGenerator.
Qed.

Lemma serve_default (events : list server_event) (srv : Server) (h : heap)
    (g : CounterIdGen) :
  h !! connectionIdGenerator service = Some g →
  2 ≤ radix g ≤ 36 →
  count g + Z.of_nat (length events) ≤ 2 ^ 53 →
  ∃ srv' h' news,
    serve opts service events srv h = Some (srv', h')
    ∧ accepted srv' = (accepted srv ++ news)%list
    ∧ (length news ≤ length events)%nat
    ∧ h' !! connectionIdGenerator service
      = Some (mkCounter (radix g) (count g + Z.of_nat (length news)))
    ∧ (∀ l, l ≠ connectionIdGenerator service → is_Some (h !! l) → h' !! l = h !! l)
    ∧ (∀ j conn,
         news !! j = Some conn →
         connection_id conn
         = Some (id_text (radix g) (id service) None (count g + Z.of_nat j))
         ∧ ∃ l, request_generator conn = Some l
                ∧ h !! l = None ∧ h' !! l = Some (counter (Some 16)))
    ∧ NoDup (request_generator <$> news).
Proof.
  revert srv h g. induction events as [|[|k] events IH]; intros srv h g Hg Hradix Hcount.
  - exists srv, h, []. rewrite app_nil_r, Z.add_0_r. destruct g.
    split_and!; try done. constructor.
  - cbn [length] in Hcount. cbn [serve]. rewrite (accept_default srv h g) by (done || lia).
    cbv zeta.
    set (h1 := <[ connectionIdGenerator service := mkCounter (radix g) (count g + 1) ]> h).
    set (l := fresh (dom h1)).
    assert (h1 !! l = None) as Hl by (apply not_elem_of_dom, is_fresh).
    assert (l ≠ connectionIdGenerator service) as Hne.
    { intros Heq. rewrite Heq in Hl. subst h1. by rewrite lookup_insert_eq in Hl. }
    assert (h !! l = None) as Hl0.
    { subst h1. by rewrite lookup_insert_ne in Hl. }
    edestruct (IH (mkServer
                     (accepted srv
                      ++ [mkConnection (Some (id_text (radix g) (id service) None (count g)))
                                       (Some l)])
                     ({[ length (accepted srv) ]} ∪ connections srv))
                  (<[ l := counter (Some 16) ]> h1)
                  (mkCounter (radix g) (count g + 1)))
      as (srv' & h' & news & -> & Hacc & Hlen & Hcg & Hframe & Hnews & Hdup).
    { rewrite lookup_insert_ne by done. subst h1. by rewrite lookup_insert_eq. }
    { done. }
    { cbn [count]. lia. }
    cbn [radix count accepted] in *.
    eexists srv', h', (_ :: news).
    split_and!.
    + done.
    + by rewrite Hacc, <- app_assoc.
    + simpl. lia.
    + rewrite Hcg. do 2 f_equal. cbn [length]. lia.
    + intros l' Hl' Hsome. rewrite Hframe; [| done |].
      * rewrite lookup_insert_ne by (intros <-; destruct Hsome; congruence).
        subst h1. by rewrite lookup_insert_ne.
      * rewrite lookup_insert_ne by (intros <-; destruct Hsome; congruence).
        subst h1. by rewrite lookup_insert_ne.
    + intros [|j] conn Hj.
      * injection Hj as <-. cbn [connection_id request_generator].
        rewrite Z.add_0_r. split; [done |]. exists l. split_and!; [done | done |].
        rewrite Hframe by (done || by rewrite lookup_insert_eq).
        by rewrite lookup_insert_eq.
      * destruct (Hnews j conn Hj) as (Hid & l' & Hgen & Hfresh & Hl').
        split; [rewrite Hid; do 2 f_equal; lia |].
        exists l'. split_and!; [done | | done].
        destruct (decide (l' = l)) as [-> | Hll]; [done |].
        rewrite lookup_insert_ne in Hfresh by done.
        destruct (decide (l' = connectionIdGenerator service)) as [-> | Hlc].
        { subst h1. by rewrite lookup_insert_eq in Hfresh. }
        subst h1. by rewrite lookup_insert_ne in Hfresh.
    + cbn [fmap list_fmap request_generator]. constructor; [| done].
      intros Hin. apply list_elem_of_fmap in Hin as (conn & Heq & Hin).
      apply list_elem_of_lookup in Hin as (j & Hj).
      destruct (Hnews j conn Hj) as (_ & l' & Hgen & Hfresh & _).
      rewrite Hgen in Heq. injection Heq as ->. by rewrite lookup_insert_eq in Hfresh.
  - cbn [length] in Hcount. cbn [serve].
    destruct (IH (connection_ended k srv) h g Hg Hradix ltac:(lia))
      as (srv' & h' & news & -> & Hacc & Hlen & Hcg & Hframe & Hnews & Hdup).
    exists srv', h', news. split_and!; try done. simpl. lia.
Qed.

End accept_facts.

(** X24.  With the default generators, the connections a service accepts
    are numbered by the service's generator: the [j]-th gets the id made of
    the service's id and the generator's [j]-th count, so no two get the
    same id; and each gets a request generator of its own, a new counter in
    base 16 that still stands at 0 and that neither the service nor any
    other connection holds.  Connections that end in between change
    nothing of this. *)
Theorem accepted_connections_are_numbered (opts : ServiceOpts) (service : Service)
    (events : list server_event) (h : heap) (g : CounterIdGen) :
  opts_reqestIdGenerator opts = None →
  idGenerator opts = None →
  h !! connectionIdGenerator service = Some g →
  2 ≤ radix g ≤ 36 →
  0 ≤ count g →
  count g + Z.of_nat (length events) ≤ 2 ^ 53 →
  ∃ srv' h',
    serve opts service events (mkServer [] ∅) h = Some (srv', h')
    ∧ (∀ j conn,
         accepted srv' !! j = Some conn →
         connection_id conn
         = Some (id_text (radix g) (id service) None (count g + Z.of_nat j))
         ∧ ∃ l, request_generator conn = Some l
                ∧ l ≠ connectionIdGenerator service
                ∧ h !! l = None
                ∧ h' !! l = Some (counter (Some 16)))
    ∧ NoDup (connection_id <$> accepted srv')
    ∧ NoDup (request_generator <$> accepted srv').
Proof.
  intros Hreq Hgen Hg Hradix Hcount Hlen.
  destruct (serve_default opts service Hreq Hgen events (mkServer [] ∅) h g Hg Hradix Hlen)
    as (srv' & h' & news & Hserve & Hacc & _ & _ & _ & Hnews & Hdup).
  cbn [accepted app] in Hacc. subst news.
  exists srv', h'. split_and!; [done | | | done].
  - intros j conn Hj. destruct (Hnews j conn Hj) as (Hid & l & Hl & Hfresh & Hl').
    split; [done |]. exists l. split_and!; [done | | done | done].
    intros ->. congruence.
  - apply NoDup_alt. intros i j x Hi Hj.
    apply list_lookup_fmap_Some in Hi as (ci & -> & Hi).
    apply list_lookup_fmap_Some in Hj as (cj & Heq & Hj).
    destruct (Hnews i ci Hi) as (Hidi & _). destruct (Hnews j cj Hj) as (Hidj & _).
    rewrite Hidi, Hidj in Heq. injection Heq as Heq.
    apply id_text_inj in Heq; lia.
Qed.

Lemma accepted_connections_are_numbered_witness :
  ∃ srv' h',
    serve (mkOpts "link.sock" None None None None None None)
          (mkService (Some "host.18c") "link.sock" 0%nat [("connection", AcceptConnection)])
          [Incoming; Ended 0%nat; Incoming] (mkServer [] ∅)
          {[ 0%nat := counter (Some 16) ]}
    = Some (srv', h')
    ∧ (∀ j conn,
         accepted srv' !! j = Some conn →
         connection_id conn
         = Some (id_text (radix (counter (Some 16)))
                   (id (mkService (Some "host.18c") "link.sock" 0%nat
                          [("connection", AcceptConnection)]))
                   None (count (counter (Some 16)) + Z.of_nat j))
         ∧ ∃ l, request_generator conn = Some l
                ∧ l ≠ connectionIdGenerator
                        (mkService (Some "host.18c") "link.sock" 0%nat
                           [("connection", AcceptConnection)])
                ∧ ({[ 0%nat := counter (Some 16) ]} : heap) !! l = None
                ∧ h' !! l = Some (counter (Some 16)))
    ∧ NoDup (connection_id <$> accepted srv')
    ∧ NoDup (request_generator <$> accepted srv').
Proof.
  apply (accepted_connections_are_numbered
           (mkOpts "link.sock" None None None None None None)
           (mkService (Some "host.18c") "link.sock" 0%nat [("connection", AcceptConnection)])
           [Incoming; Ended 0%nat; Incoming]
           {[ 0%nat := counter (Some 16) ]} (counter (Some 16))).
  - reflexivity.
  - reflexivity.
  - reflexivity.
  - simpl. lia.
  - simpl. lia.
  - simpl. lia.
Defined.

(** ** A service with default options *)

Lemma id_text_prefix (radix : Z) (prefix : string) (n : Z) :
  prefix ≠ "" →
  id_text radix (Some prefix) None n = prefix +:+ "." +:+ integer_text radix n.
Proof. by destruct prefix. Qed.

(** X25.  A service started without [serviceId] and without generators of
    the caller's names itself after the host and the time of the start,
    and its connections after itself: the service's id is the host name, a
    dot and the time in base 16, and the [j]-th connection it accepts has
    that id, a dot and [j] in base 16.  This holds for the address-only
    form of the options in particular. *)
Theorem default_service_names_connections (options : string + ServiceOpts)
    (handler : option ServiceHandler) (w : World) (events : list server_event) :
  connetionIdGenerator (opts_of options) = None →
  idGenerator (opts_of options) = None →
  opts_reqestIdGenerator (opts_of options) = None →
  serviceId (opts_of options) = None ∨ serviceId (opts_of options) = Some "" →
  Z.of_nat (length events) ≤ 2 ^ 53 →
  ∃ service srv' h',
    services (startService options handler w).2 !! (startService options handler w).1
    = Some service
    ∧ id service = Some (hostname w +:+ "." +:+ integer_text 16 (now w))
    ∧ serve (opts_of options) service events (mkServer [] ∅)
            (generators (startService options handler w).2)
      = Some (srv', h')
    ∧ ∀ j conn,
        accepted srv' !! j = Some conn →
        connection_id conn
        = Some ((hostname w +:+ "." +:+ integer_text 16 (now w))
                +:+ "." +:+ integer_text 16 (Z.of_nat j)).
Proof.
  intros Hcg Hig Hrg Hsid Hlen.
  pose proof (new_counter_fresh (Some 16) (generators w)) as (_ & Hnew & _).
  unfold startService. fold (opts_of options). rewrite Hcg, Hig.
  destruct (new_counter (Some 16) (generators w)) as [l h1] eqn:Hcounter.
  cbn [fst snd services generators] in *.
  rewrite list_lookup_middle by done.
  replace (negb (truthy (from_option VStr VUndefined (serviceId (opts_of options)))))
    with true by (by destruct Hsid as [-> | ->]).
  set (service := mkService _ _ _ _). exists service.
  destruct (serve_default (opts_of options) service Hrg Hig events (mkServer [] ∅) h1
              (counter (Some 16)))
    as (srv' & h' & news & Hserve & Hacc & _ & _ & _ & Hnews & _).
  { exact Hnew. }
  { simpl. lia. }
  { simpl. lia. }
  exists srv', h'. split_and!; [done | done | exact Hserve |].
  intros j conn Hj. cbn [accepted app] in Hacc. rewrite Hacc in Hj.
  destruct (Hnews j conn Hj) as (-> & _). subst service.
  cbn [id radix count counter default].
  rewrite id_text_prefix by (by destruct (hostname w)). by rewrite Z.add_0_l.
Qed.

Lemma default_service_names_connections_witness :
  ∃ service srv' h',
    services (startService (inl "link.sock") None (mkWorld "host" 6348 ∅ [] [])).2
      !! (startService (inl "link.sock") None (mkWorld "host" 6348 ∅ [] [])).1
    = Some service
    ∧ id service
      = Some (hostname (mkWorld "host" 6348 ∅ [] [])
              +:+ "." +:+ integer_text 16 (now (mkWorld "host" 6348 ∅ [] [])))
    ∧ serve (opts_of (inl "link.sock")) service [Incoming; Incoming] (mkServer [] ∅)
            (generators (startService (inl "link.sock") None (mkWorld "host" 6348 ∅ [] [])).2)
      = Some (srv', h')
    ∧ ∀ j conn,
        accepted srv' !! j = Some conn →
        connection_id conn
        = Some ((hostname (mkWorld "host" 6348 ∅ [] [])
                 +:+ "." +:+ integer_text 16 (now (mkWorld "host" 6348 ∅ [] [])))
                +:+ "." +:+ integer_text 16 (Z.of_nat j)).
Proof.
  apply (default_service_names_connections (inl "link.sock") None
           (mkWorld "host" 6348 ∅ [] []) [Incoming; Incoming]).
  - reflexivity.
  - reflexivity.
  - reflexivity.
  - left. reflexivity.
  - simpl. lia.
Defined.

(** ** A served connection *)

(** X26.  On a connection of a service, read by a reader bound to a
    counter, every complete line that gives an object is answered, in
    order, and the [k]-th response carries the [k]-th id of the
    connection's generator, [socket.id + "." + (count + k).toString(radix)]:
    an [id] the client put in its request is overwritten before the
    handler sees it and never comes back. *)
Theorem served_requests_are_numbered (handler : ServiceHandler)
    (traceErrors : option bool) (g : CounterIdGen) (sid : option string)
    (datas : list string) (rest : list event) :
  2 ≤ radix g ≤ 36 →
  count g + Z.of_nat (count_nl (join datas)) ≤ 2 ^ 53 →
  Forall (fun rawBody => is_object (frame_message rawBody) = true)
         (removelast (split_nl (join datas))) →
  ∃ responses,
    dispatch handler traceErrors
             (drain (messagesReader (Some g) sid) ((Data <$> datas) ++ End :: rest)).1
    = (responses, None)
    ∧ length responses = count_nl (join datas)
    ∧ ∀ k response,
        responses !! k = Some response →
        get_property response "id"
        = Return (VStr (id_text (radix g) sid None (count g + Z.of_nat k))).
Proof.
  intros Hradix Hcount Hobj.
  assert (length (removelast (split_nl (join datas))) = count_nl (join datas)) as Hlen.
  { by rewrite removelast_length, split_nl_length. }
  rewrite drain_spec by done. rewrite pending_frames_fresh.
  cbn [fst snd messagesReader this socket_id].
  rewrite deliver_counter by (done || lia). cbn [fst].
  set (requests := imap _ _).
  assert (Forall (fun request => is_object request = true) requests) as Hrequests.
  { apply Forall_lookup. intros k request Hk. subst requests.
    rewrite list_lookup_imap in Hk.
    destruct (removelast (split_nl (join datas)) !! k) as [f|] eqn:Hf; [| done].
    injection Hk as <-. eapply Forall_lookup in Hobj; [| exact Hf].
    by destruct (frame_message f). }
  destruct (dispatch_objects handler traceErrors requests Hrequests)
    as (responses & Hdispatch & Hids).
  exists responses. split_and!; [done | |].
  - rewrite <- (Forall2_length _ _ _ Hids). subst requests. by rewrite length_imap.
  - intros k response Hk.
    destruct (Forall2_lookup_r _ _ _ _ _ Hids Hk) as (request & Hrequest & ->).
    subst requests. rewrite list_lookup_imap in Hrequest.
    destruct (removelast (split_nl (join datas)) !! k) as [f|] eqn:Hf; [| done].
    injection Hrequest as <-. eapply Forall_lookup in Hobj; [| exact Hf].
    destruct (frame_message f); try done; simpl; by rewrite lookup_insert_eq.
Qed.

Lemma served_requests_are_numbered_witness :
  ∃ responses,
    dispatch (fun request => get_property request "body") None
             (drain (messagesReader (Some (counter (Some 16))) (Some "host.0"))
                    ((Data <$> ["{" +:+ DQ +:+ "id" +:+ DQ +:+ ":7}" +:+ LF +:+ "[1]";
                                LF +:+ LF +:+ "{"])
                     ++ End :: [])).1
    = (responses, None)
    ∧ length responses
      = count_nl (join ["{" +:+ DQ +:+ "id" +:+ DQ +:+ ":7}" +:+ LF +:+ "[1]";
                        LF +:+ LF +:+ "{"])
    ∧ ∀ k response,
        responses !! k = Some response →
        get_property response "id"
        = Return (VStr (id_text (radix (counter (Some 16))) (Some "host.0") None
                          (count (counter (Some 16)) + Z.of_nat k))).
Proof.
  apply (served_requests_are_numbered (fun request => get_property request "body") None
           (counter (Some 16)) (Some "host.0")
           ["{" +:+ DQ +:+ "id" +:+ DQ +:+ ":7}" +:+ LF +:+ "[1]"; LF +:+ LF +:+ "{"] []).
  - simpl. lia.
  - vm_compute. discriminate.
  - repeat (apply List.Forall_cons; [vm_compute; reflexivity |]). apply List.Forall_nil.
Defined.

(** ** Socket errors *)

Lemma stream_frames_fault (datas : list string) (t : thrown) (rest rest' : list event)
    (pre : string) :
  stream_frames pre ((Data <$> datas) ++ Fault t :: rest)
  = ((stream_frames pre ((Data <$> datas) ++ End :: rest')).1, Rejected t)
  ∧ (stream_frames pre ((Data <$> datas) ++ End :: rest')).2 = Done.
Proof.
  revert pre. induction datas as [|d datas IH]; intros pre; [done |].
  cbn [fmap list_fmap app stream_frames].
  destruct (frames_of pre (split_nl d)) as [fs rm].
  destruct (IH rm) as [-> Hdone].
  destruct (stream_frames rm ((Data <$> datas) ++ End :: rest')) as [fs' e].
  simpl in *. by subst e.
Qed.

Lemma deliver_ending `{MessageReaderContext G} (this : option G) (socket_id : option string)
    (frames : list string) (ending : next_result) :
  deliver this socket_id frames ending
  = ((deliver this socket_id frames Done).1,
     match (deliver this socket_id frames Done).2 with
     | Some Done => Some ending
     | other => other
     end).
Proof.
  revert this. induction frames as [|f frames IH]; intros this; [done |].
  cbn [deliver]. destruct (assign_id this socket_id (frame_message f)) as [[m|t] this'];
    [| done].
  rewrite IH. by destruct (deliver this' socket_id frames Done).
Qed.

(** X27.  An ['error'] of the socket ends the sequence like the end of the
    stream does, but by rejecting: a reader yields the same messages up to
    the error as it would up to an ['end'] in its place, then [next]
    rejects with the error where it would have reported the end; text that
    no delimiter completed is dropped in both cases. *)
Theorem socket_error_ends_sequence `{MessageReaderContext G} (r : reader G)
    (datas : list string) (t : thrown) (rest rest' : list event) :
  finished r = false →
  drain r ((Data <$> datas) ++ Fault t :: rest)
  = ((drain r ((Data <$> datas) ++ End :: rest')).1,
     match (drain r ((Data <$> datas) ++ End :: rest')).2 with
     | Some Done => Some (Rejected t)
     | other => other
     end).
Proof.
  intros Hrun. rewrite !drain_spec by done. unfold pending_frames.
  destruct (frames_of (join (buffer r)) (chunks r)) as [fs rm].
  destruct (stream_frames_fault datas t rest rest' rm) as [-> Hdone].
  destruct (stream_frames rm ((Data <$> datas) ++ End :: rest')) as [fs' e].
  simpl in *. subst e. apply deliver_ending.
Qed.

Lemma socket_error_ends_sequence_witness :
  drain (messagesReader (Some (counter (Some 16))) (Some "a.0"))
        ((Data <$> ["{}" +:+ LF +:+ "[1"])
         ++ Fault (ThrownError (native_error "Error" "read ECONNRESET")) :: [])
  = ((drain (messagesReader (Some (counter (Some 16))) (Some "a.0"))
            ((Data <$> ["{}" +:+ LF +:+ "[1"]) ++ End :: [])).1,
     match (drain (messagesReader (Some (counter (Some 16))) (Some "a.0"))
                  ((Data <$> ["{}" +:+ LF +:+ "[1"]) ++ End :: [])).2 with
     | Some Done => Some (Rejected (ThrownError (native_error "Error" "read ECONNRESET")))
     | other => other
     end).
Proof.
  apply (socket_error_ends_sequence
           (messagesReader (Some (counter (Some 16))) (Some "a.0"))
           ["{}" +:+ LF +:+ "[1"] (ThrownError (native_error "Error" "read ECONNRESET"))
           [] []).
  reflexivity.
Defined.

(** ** JSON.stringify and JSON.parse *)

Lemma parse_chars_quote_char (c : ascii) (r : list ascii) (acc : list JSON.piece) :
  JSON.parse_chars (quote_char c ++ r) acc = JSON.parse_chars r (piece_of c :: acc).
Proof. destruct c as [[] [] [] [] [] [] [] []]; reflexivity. Qed.

Lemma encode_piece_of (c : ascii) (ps : list JSON.piece) :
  JSON.encode (piece_of c :: ps) = c :: JSON.encode ps.
Proof.
  destruct c as [[] [] [] [] [] [] [] []]; try reflexivity;
    destruct ps as [|[d|lo] ps]; reflexivity.
Qed.

Lemma encode_pieces (l : list ascii) : JSON.encode (piece_of <$> l) = l.
Proof.
  induction l as [|c l IH]; [done |].
  cbn [fmap list_fmap]. by rewrite encode_piece_of, IH.
Qed.

Lemma parse_chars_quoted (l : list ascii) (rest : list ascii) (acc : list JSON.piece) :
  JSON.parse_chars (flat_map quote_char l ++ ascii_of_N 34 :: rest) acc
  = inl (string_of_list_ascii (JSON.encode (reverse acc ++ (piece_of <$> l))), rest).
Proof.
  revert acc. induction l as [|c l IH]; intros acc.
  - cbn [flat_map app fmap list_fmap]. by rewrite app_nil_r.
  - cbn [flat_map fmap list_fmap]. rewrite <- app_assoc, parse_chars_quote_char, IH.
    by rewrite reverse_cons, <- app_assoc.
Qed.

Lemma quote_app (s : string) (rest : list ascii) :
  (quote s ++ rest)%list
  = ascii_of_N 34 :: (flat_map quote_char (list_ascii_of_string s) ++ ascii_of_N 34 :: rest)%list.
Proof. unfold quote. cbn [app]. by rewrite <- app_assoc. Qed.

(** A quoted text reads back as the text. *)
Lemma parse_chars_quote (s : string) (rest : list ascii) :
  JSON.parse_chars (flat_map quote_char (list_ascii_of_string s) ++ ascii_of_N 34 :: rest) []
  = inl (s, rest).
Proof.
  rewrite parse_chars_quoted, reverse_nil. cbn [app].
  by rewrite encode_pieces, string_of_list_ascii_of_string.
Qed.

(** *** Integers *)

Lemma after_value_head (c : ascii) (rest : list ascii) :
  after_value (c :: rest) = true →
  JSON.is_digit c = false ∧ JSON.is_ws c = false ∧ JSON.ch c "." = false
  ∧ JSON.ch c "e" = false ∧ JSON.ch c "E" = false.
Proof.
  unfold after_value, JSON.ch. intros Hc.
  repeat (apply orb_prop in Hc as [Hc | Hc]); apply Ascii.eqb_eq in Hc as ->; done.
Qed.

Lemma code_digit_char (d : Z) : 0 ≤ d < 10 → JSON.code (digit_char d) = 48 + d.
Proof.
  intros Hd. unfold JSON.code, digit_char. replace (d <? 10) with true by lia.
  rewrite N_ascii_embedding by lia. lia.
Qed.

Lemma is_digit_digit_char (d : Z) : 0 ≤ d < 10 → JSON.is_digit (digit_char d) = true.
Proof.
  intros Hd. unfold JSON.is_digit. rewrite code_digit_char by done.
  apply andb_true_intro. split; lia.
Qed.

Lemma digits_all_digits (fuel : nat) (n : Z) (acc : string) :
  0 ≤ n → all_digits acc → all_digits (digits fuel 10 n acc).
Proof.
  revert n acc. induction fuel as [|fuel IH]; intros n acc Hn Hacc.
  - constructor; [| done]. apply is_digit_digit_char. apply Z.mod_pos_bound. lia.
  - cbn [digits].
    assert (all_digits (String (digit_char (n mod 10)) acc)) as Hacc'.
    { constructor; [| done]. apply is_digit_digit_char. apply Z.mod_pos_bound. lia. }
    destruct (n / 10 =? 0); [done |]. apply IH; [| done]. apply Z.div_pos; lia.
Qed.

Lemma digits_head (fuel : nat) (n : Z) (acc : string) :
  0 < n < 10 ^ Z.of_nat (S fuel) →
  ∃ c text, digits fuel 10 n acc = String c text ∧ JSON.ch c "0" = false.
Proof.
  revert n acc. induction fuel as [|fuel IH]; intros n acc Hn.
  - change (Z.of_nat 1) with 1 in Hn. rewrite Z.pow_1_r in Hn.
    eexists _, _. split; [reflexivity |]. rewrite Z.mod_small by lia.
    unfold JSON.ch. apply Ascii.eqb_neq. intros Heq.
    pose proof (code_digit_char n ltac:(lia)) as Hcode. rewrite Heq in Hcode.
    change (JSON.code "0"%char) with 48 in Hcode. lia.
  - cbn [digits]. destruct (n / 10 =? 0) eqn:Hq.
    + assert (n / 10 = 0) as Hq' by lia.
      apply Z.div_small_iff in Hq' as [Hq'|Hq']; [| lia..].
      eexists _, _. split; [reflexivity |]. rewrite Z.mod_small by lia.
      unfold JSON.ch. apply Ascii.eqb_neq. intros Heq.
      pose proof (code_digit_char n ltac:(lia)) as Hcode. rewrite Heq in Hcode.
      change (JSON.code "0"%char) with 48 in Hcode. lia.
    + apply IH. split.
      * assert (n / 10 ≠ 0) by lia. pose proof (Z.div_pos n 10). lia.
      * apply Z.div_lt_upper_bound; [lia |].
        rewrite Nat2Z.inj_succ, Z.pow_succ_r in Hn by lia. lia.
Qed.

Lemma read_digits_text (text : string) (rest : list ascii) (acc k : Z) :
  all_digits text →
  after_value rest = true →
  JSON.read_digits (list_ascii_of_string text ++ rest) acc k
  = (undigits 10 text acc, k + Z.of_nat (String.length text), rest).
Proof.
  intros Htext Hrest. revert acc k.
  induction text as [|c text IH]; intros acc k.
  - cbn [list_ascii_of_string app undigits String.length]. rewrite Z.add_0_r.
    destruct rest as [|d rest]; [done |].
    apply after_value_head in Hrest as (Hd & _). cbn [JSON.read_digits]. by rewrite Hd.
  - apply Forall_cons in Htext as [Hc Htext].
    cbn [list_ascii_of_string app JSON.read_digits undigits String.length]. rewrite Hc.
    rewrite IH by done.
    assert (digit_value c = JSON.code c - 48) as ->.
    { unfold digit_value. fold (JSON.code c).
      unfold JSON.is_digit in Hc. apply andb_prop in Hc as [_ Hc].
      by replace (JSON.code c <? 58) with true by lia. }
    replace (acc * 10 + (JSON.code c - 48)) with (10 * acc + (JSON.code c - 48)) by lia.
    do 2 f_equal. lia.
Qed.

Lemma undigits_integer_text (n : Z) :
  0 ≤ n → undigits 10 (digits (Z.to_nat (Z.log2 n)) 10 n "") 0 = n
          ∧ n < 10 ^ Z.of_nat (S (Z.to_nat (Z.log2 n))).
Proof.
  intros Hn.
  assert (n < 10 ^ Z.of_nat (S (Z.to_nat (Z.log2 n)))) as Hbound.
  { rewrite Nat2Z.inj_succ, Z2Nat.id by apply Z.log2_nonneg.
    destruct (Z.eq_dec n 0) as [-> | Hn0]; [simpl; lia |].
    pose proof (Z.log2_spec n ltac:(lia)) as [_ Hlog].
    eapply Z.lt_le_trans; [exact Hlog |]. apply Z.pow_le_mono_l. lia. }
  split; [| done]. by rewrite undigits_digits by lia.
Qed.

(** The digits of a natural number read back as the number. *)
Lemma parse_number_digits (n : Z) (neg : bool) (rest : list ascii) :
  0 ≤ n → (neg = true → 0 < n) →
  after_value rest = true →
  ∃ c text,
    list_ascii_of_string (digits (Z.to_nat (Z.log2 n)) 10 n "") = c :: text
    ∧ JSON.is_digit c = true
    ∧ ∀ s, (s = (if neg then "-"%char :: c :: text ++ rest else c :: text ++ rest)%list) →
           JSON.parse_number s = inl (VNum (if neg then - n else n) 0, rest).
Proof.
  intros Hn Hneg Hrest.
  destruct (undigits_integer_text n Hn) as [Hback Hbound].
  pose proof (digits_all_digits (Z.to_nat (Z.log2 n)) n "" Hn ltac:(constructor)) as Hall.
  assert (∀ r, after_value r = true →
               JSON.parse_fraction n r = inl ((n, 0), r)
               ∧ JSON.parse_exponent r = inl (0, r)) as Htail.
  { intros [|d r] Hr; [done |]. apply after_value_head in Hr as (_ & _ & Hdot & He & HE).
    unfold JSON.parse_fraction, JSON.parse_exponent. by rewrite Hdot, He, HE. }
  destruct (Htail rest Hrest) as [Hfraction Hexponent].
  destruct (Z.eq_dec n 0) as [-> | Hn0].
  - destruct neg; [specialize (Hneg eq_refl); lia |].
    exists "0"%char, []. split; [reflexivity |]. split; [reflexivity |].
    intros s ->. cbn [app]. destruct rest as [|d rest]; [reflexivity |].
    apply after_value_head in Hrest as (_ & _ & Hdot & He & HE).
    unfold JSON.parse_number, JSON.parse_fraction, JSON.parse_exponent.
    unfold JSON.ch in Hdot, He, HE. simpl. by rewrite Hdot, He, HE.
  - destruct (digits_head (Z.to_nat (Z.log2 n)) n "" ltac:(lia)) as (c & text & Heq & Hc0).
    exists c, (list_ascii_of_string text). rewrite Heq in *.
    apply Forall_cons in Hall as Hall'. destruct Hall' as [Hc Htext].
    split; [reflexivity |]. split; [done |].
    intros s ->.
    assert (JSON.ch c "-" = false) as Hminus.
    { unfold JSON.ch. apply Ascii.eqb_neq. intros ->. done. }
    pose proof (read_digits_text (String c text) rest 0 0 Hall Hrest) as Hread.
    cbn [list_ascii_of_string app] in Hread. rewrite Hback in Hread.
    destruct neg; unfold JSON.parse_number; cbv beta iota.
    + change (JSON.ch "-" "-") with true. cbv beta iota.
      rewrite Hc, Hc0, Hread. cbv beta iota. rewrite Hfraction. cbv beta iota.
      by rewrite Hexponent.
    + rewrite Hminus. cbv beta iota.
      rewrite Hc, Hc0, Hread. cbv beta iota. rewrite Hfraction. cbv beta iota.
      by rewrite Hexponent.
Qed.

(** *** Values *)

Lemma parse_value_number (fuel : nat) (c : ascii) (r : list ascii) :
  JSON.is_digit c = true ∨ c = "-"%char →
  JSON.parse_value (S fuel) (c :: r) = JSON.parse_number (c :: r).
Proof.
  intros [Hc | ->]; [| reflexivity].
  destruct c as [[] [] [] [] [] [] [] []]; try discriminate Hc; reflexivity.
Qed.

Lemma digit_start (c : ascii) :
  JSON.is_digit c = true → JSON.is_ws c = false ∧ JSON.ch c "]" = false.
Proof.
  intros Hc. destruct c as [[] [] [] [] [] [] [] []]; try discriminate Hc; done.
Qed.

Lemma parse_value_text (fuel : nat) (r : list ascii) (s : string) (rest : list ascii) :
  JSON.parse_chars r [] = inl (s, rest) →
  JSON.parse_value (S fuel) (ascii_of_N 34 :: r) = inl (VStr s, rest).
Proof. intros Hr. simpl. by rewrite Hr. Qed.

Lemma parse_value_array (fuel : nat) (c : ascii) (r : list ascii) :
  JSON.is_ws c = false → JSON.ch c "]" = false →
  JSON.parse_value (S fuel) ("["%char :: c :: r) = JSON.parse_elements fuel (c :: r) [].
Proof. intros Hws Hc. unfold JSON.ch in Hc. simpl. by rewrite Hws, Hc. Qed.

Lemma parse_value_object (fuel : nat) (r : list ascii) :
  JSON.parse_value (S fuel) ("{"%char :: ascii_of_N 34 :: r)
  = JSON.parse_members fuel (ascii_of_N 34 :: r) ∅.
Proof. reflexivity. Qed.

Lemma parse_elements_more (fuel : nat) (s r : list ascii) (acc : list value) (v : value) :
  JSON.parse_value fuel s = inl (v, ","%char :: r) →
  JSON.parse_elements (S fuel) s acc = JSON.parse_elements fuel r (v :: acc).
Proof. intros Hv. simpl. by rewrite Hv. Qed.

Lemma parse_elements_last (fuel : nat) (s r : list ascii) (acc : list value) (v : value) :
  JSON.parse_value fuel s = inl (v, "]"%char :: r) →
  JSON.parse_elements (S fuel) s acc = inl (VArr (reverse acc ++ [v]) ∅, r).
Proof. intros Hv. simpl. rewrite Hv. simpl. by rewrite reverse_cons. Qed.

Lemma parse_members_more (fuel : nat) (body s r : list ascii) (acc : object) (k : string)
    (v : value) :
  JSON.parse_chars body [] = inl (k, ":"%char :: s) →
  JSON.parse_value fuel s = inl (v, ","%char :: r) →
  JSON.parse_members (S fuel) (ascii_of_N 34 :: body) acc
  = JSON.parse_members fuel r (<[ k := v ]> acc).
Proof. intros Hk Hv. simpl. rewrite Hk. simpl. by rewrite Hv. Qed.

Lemma parse_members_last (fuel : nat) (body s r : list ascii) (acc : object) (k : string)
    (v : value) :
  JSON.parse_chars body [] = inl (k, ":"%char :: s) →
  JSON.parse_value fuel s = inl (v, "}"%char :: r) →
  JSON.parse_members (S fuel) (ascii_of_N 34 :: body) acc
  = inl (VObj (<[ k := v ]> acc), r).
Proof. intros Hk Hv. simpl. rewrite Hk. simpl. by rewrite Hv. Qed.

Lemma integer_text_start (n : Z) :
  ∃ c r, list_ascii_of_string (integer_text 10 n) = c :: r
         ∧ (JSON.is_digit c = true ∨ c = "-"%char).
Proof.
  unfold integer_text.
  destruct (parse_number_digits (Z.abs n) false [] ltac:(lia) ltac:(done) eq_refl)
    as (c & text & Htext & Hc & _).
  destruct (n <? 0).
  - eexists _, _. split; [reflexivity | by right].
  - exists c, text. split; [done | by left].
Qed.

Lemma stringify_starts :
  (∀ v text v', stringify v text v' → starts_value text)
  ∧ (∀ elems text elems', stringify_elements elems text elems' → starts_value text)
  ∧ (∀ members text members', stringify_members members text members' → True).
Proof.
  apply stringify_mutind; try done;
    try (by intros; eexists _, _; split; [reflexivity | done]).
  - intros b. destruct b; by eexists _, _; split; [reflexivity | done].
  - intros n _. destruct (integer_text_start n) as (c & r & -> & [Hc | ->]).
    + exists c, r. split; [done |]. by apply digit_start.
    + by eexists _, _; split; [reflexivity | done].
  - intros v text v' elems texts elems' _ (c & r & -> & Hc) _ _.
    by eexists c, _; split; [reflexivity | done].
Qed.

Lemma foldl_add_member (members : list (string * value)) (acc : object) :
  NoDup members.*1 →
  foldl add_member acc members = list_to_map members ∪ acc.
Proof.
  revert acc. induction members as [|[k v] members IH]; intros acc Hdup.
  - simpl. by rewrite (left_id_L ∅ (∪)).
  - apply NoDup_cons in Hdup as [Hk Hdup]. cbn [foldl list_to_map foldr].
    rewrite IH by done. unfold add_member. cbn [fst snd uncurry].
    rewrite <- insert_union_l. rewrite insert_union_r; [done |].
    by apply not_elem_of_list_to_map_1.
Qed.

(** A text [JSON.stringify] gives reads back as the value it denotes. *)
Lemma parse_stringify :
  (∀ v text v',
     stringify v text v' →
     ∀ fuel rest,
       (length text < fuel)%nat → after_value rest = true →
       JSON.parse_value fuel (text ++ rest) = inl (v', rest))
  ∧ (∀ elems text elems',
       stringify_elements elems text elems' →
       ∀ fuel rest acc,
         (length text + 1 < fuel)%nat →
         JSON.parse_elements fuel (text ++ "]"%char :: rest) acc
         = inl (VArr (reverse acc ++ elems') ∅, rest))
  ∧ (∀ members text members',
       stringify_members members text members' →
       members'.*1 = members.*1
       ∧ ∀ fuel rest acc,
           (length text + 1 < fuel)%nat →
           ∃ body, (text ++ "}"%char :: rest)%list = ascii_of_N 34 :: body
                   ∧ JSON.parse_members fuel (text ++ "}"%char :: rest) acc
                     = inl (VObj (foldl add_member acc members'), rest)).
Proof.
  apply stringify_mutind.
  - intros [|fuel] rest Hfuel _; [simpl in Hfuel; lia | reflexivity].
  - intros b [|fuel] rest Hfuel _; [simpl in Hfuel; lia |]. by destruct b.
  - intros n _ [|fuel] rest Hfuel Hrest; [lia |].
    unfold integer_text. destruct (n <? 0) eqn:Hneg.
    + destruct (parse_number_digits (Z.abs n) true rest ltac:(lia) ltac:(lia) Hrest)
        as (c & text & Htext & Hc & Hparse).
      replace (- Z.abs n) with n in Hparse by lia.
      cbn [list_ascii_of_string app]. rewrite Htext.
      rewrite parse_value_number by (by right). by apply Hparse.
    + destruct (parse_number_digits (Z.abs n) false rest ltac:(lia) ltac:(done) Hrest)
        as (c & text & Htext & Hc & Hparse).
      rewrite (Z.abs_eq n) in Hparse by lia.
      rewrite Htext. cbn [app]. rewrite parse_value_number by (by left). by apply Hparse.
  - intros s _ [|fuel] rest Hfuel _; [lia |].
    rewrite quote_app. apply parse_value_text, parse_chars_quote.
  - intros props [|fuel] rest Hfuel _; [simpl in Hfuel; lia | reflexivity].
  - intros elems props text elems' Helems IH [|fuel] rest Hfuel _; [lia |].
    destruct stringify_starts as (_ & Hstart & _).
    destruct (Hstart _ _ _ Helems) as (c & r & -> & Hws & Hc).
    cbn [app]. rewrite <- app_assoc. cbn [app].
    rewrite parse_value_array by done.
    specialize (IH fuel rest []). cbn [app] in IH. rewrite IH; [done |].
    cbn [length] in *. rewrite length_app in Hfuel. simpl in Hfuel. lia.
  - intros props _ [|fuel] rest Hfuel _; [simpl in Hfuel; lia | reflexivity].
  - intros props members text members' Hdup _ Hmembers [Hkeys IH] [|fuel] rest Hfuel _; [lia |].
    cbn [app]. rewrite <- app_assoc. cbn [app].
    destruct (IH fuel rest ∅) as (body & Hbody & Hparse).
    { cbn [length] in *. rewrite length_app in Hfuel. simpl in Hfuel. lia. }
    rewrite Hbody in *. rewrite parse_value_object, Hparse.
    rewrite foldl_add_member by (by rewrite Hkeys). by rewrite (right_id_L ∅ (∪)).
  - intros v text v' _ IH [|fuel] rest acc Hfuel; [lia |].
    by rewrite (parse_elements_last fuel _ rest acc v') by (apply IH; [lia | done]).
  - intros [|fuel] rest acc Hfuel; [simpl in Hfuel; lia |].
    apply parse_elements_last.
    destruct fuel as [|fuel]; [simpl in Hfuel; lia | reflexivity].
  - intros v text v' elems texts elems' _ IHv _ IH [|fuel] rest acc Hfuel; [lia |].
    rewrite length_app in Hfuel. cbn [length] in Hfuel.
    rewrite <- app_assoc. cbn [app].
    rewrite (parse_elements_more fuel _ (texts ++ "]"%char :: rest) acc v')
      by (apply IHv; [lia | done]).
    rewrite IH by lia. by rewrite reverse_cons, <- app_assoc.
  - intros elems texts elems' _ IH [|fuel] rest acc Hfuel; [lia |].
    rewrite length_app in Hfuel. cbn [length] in Hfuel.
    rewrite <- app_assoc. cbn [app].
    rewrite (parse_elements_more fuel _ (texts ++ "]"%char :: rest) acc VNull).
    + rewrite IH by (simpl in Hfuel; lia). by rewrite reverse_cons, <- app_assoc.
    + destruct fuel as [|fuel]; [simpl in Hfuel; lia | reflexivity].
  - intros k v text v' _ _ IHv. split; [done |]. intros [|fuel] rest acc Hfuel; [lia |].
    rewrite length_app in Hfuel. cbn [length] in Hfuel.
    rewrite <- app_assoc, quote_app. cbn [app].
    eexists. split; [reflexivity |].
    apply (parse_members_last fuel _ (text ++ "}"%char :: rest) rest acc k v').
    + apply parse_chars_quote.
    + apply IHv; [lia | done].
  - intros k v text v' members texts members' _ _ IHv _ [Hkeys IH].
    split; [cbn [fmap list_fmap fst]; by rewrite Hkeys |].
    intros [|fuel] rest acc Hfuel; [lia |].
    rewrite !length_app in Hfuel. cbn [length] in Hfuel. rewrite length_app in Hfuel.
    cbn [length] in Hfuel.
    rewrite <- app_assoc, quote_app. cbn [app]. rewrite <- app_assoc. cbn [app].
    eexists. split; [reflexivity |].
    destruct (IH fuel rest (<[ k := v' ]> acc) ltac:(lia)) as (body & Hbody & Hparse).
    rewrite Hbody in *.
    rewrite (parse_members_more fuel _ (text ++ ","%char :: ascii_of_N 34 :: body)
               (ascii_of_N 34 :: body) acc k v').
    + exact Hparse.
    + apply parse_chars_quote.
    + apply IHv; [lia | done].
Qed.

(** *** One line per message *)

Lemma quote_char_no_newline (c : ascii) : no_newline (quote_char c).
Proof. destruct c as [[] [] [] [] [] [] [] []]; repeat constructor. Qed.

Lemma quote_no_newline (s : string) : no_newline (quote s).
Proof.
  unfold quote. constructor; [done |]. apply Forall_app. split; [| by repeat constructor].
  induction (list_ascii_of_string s) as [|c l IH]; [constructor |].
  cbn [flat_map]. apply Forall_app. split; [apply quote_char_no_newline | done].
Qed.

Lemma integer_text_no_newline (n : Z) : no_newline (list_ascii_of_string (integer_text 10 n)).
Proof.
  assert (∀ text, all_digits text → no_newline (list_ascii_of_string text)) as Hdigits.
  { intros text Htext. eapply Forall_impl; [exact Htext |].
    intros c Hc. cbv beta in Hc.
    destruct c as [[] [] [] [] [] [] [] []]; try discriminate Hc; done. }
  unfold integer_text.
  pose proof (digits_all_digits (Z.to_nat (Z.log2 (Z.abs n))) (Z.abs n) ""
                ltac:(lia) ltac:(constructor)) as Hall.
  destruct (n <? 0); [constructor; [done |] |]; by apply Hdigits.
Qed.

Lemma stringify_no_newline :
  (∀ v text v', stringify v text v' → no_newline text)
  ∧ (∀ elems text elems', stringify_elements elems text elems' → no_newline text)
  ∧ (∀ members text members', stringify_members members text members' → no_newline text).
Proof.
  apply stringify_mutind; intros; unfold no_newline in *;
    repeat first
      [ done
      | apply quote_no_newline
      | apply integer_text_no_newline
      | apply Forall_app; split
      | apply Forall_cons; split
      | by repeat constructor
      | by destruct b; repeat constructor ].
Qed.

Lemma count_nl_no_newline (text : list ascii) :
  no_newline text → count_nl (string_of_list_ascii text) = 0%nat.
Proof. induction 1 as [|c text Hc _ IH]; [done |]. simpl. by rewrite Hc. Qed.

(** The text of a message: it has no newline in it, it is not empty, and
    the reader's [JSON.parse] gives the value it denotes. *)
Lemma stringify_frame (v : value) (text : list ascii) (v' : value) :
  stringify v text v' →
  count_nl (string_of_list_ascii text) = 0%nat
  ∧ frame_message (string_of_list_ascii text) = v'.
Proof.
  intros Hv. split.
  - apply count_nl_no_newline. by apply stringify_no_newline in Hv.
  - destruct parse_stringify as (Hparse & _).
    specialize (Hparse v text v' Hv (2 * length text + 2)%nat [] ltac:(lia) eq_refl).
    rewrite app_nil_r in Hparse.
    destruct stringify_starts as (Hstart & _).
    destruct (Hstart v text v' Hv) as (c & r & -> & _).
    unfold frame_message, JSON.parse.
    rewrite list_ascii_of_string_of_list_ascii, Hparse. reflexivity.
Qed.

(** *** The fields of a written object *)

Lemma stringify_members_fields (members : list (string * value)) (text : list ascii)
    (members' : list (string * value)) :
  stringify_members members text members' →
  Forall2 (fun kv kv' => kv'.1 = kv.1 ∧ ∃ t, stringify kv.2 t kv'.2) members members'.
Proof. induction 1; repeat constructor; eauto. Qed.

Lemma stringify_object_fields (props : object) (text : list ascii) (v' : value) :
  stringify (VObj props) text v' →
  ∃ out : object,
    v' = VObj out
    ∧ (∀ k, written_properties props !! k = None → out !! k = None)
    ∧ (∀ k v, props !! k = Some v → is_undefined v = false →
              ∃ t v'', stringify v t v'' ∧ out !! k = Some v'').
Proof.
  inversion 1 as [| | | | | |? Hempty|? members ? members' Hdup Hmap Hmembers]; subst.
  - exists ∅. split; [done |]. split; [done |]. intros k v Hk Hv.
    assert (written_properties props !! k = Some v) as Hw
      by (by apply map_lookup_filter_Some).
    by rewrite Hempty in Hw.
  - exists (list_to_map members'). split; [done |].
    pose proof (stringify_members_fields _ _ _ Hmembers) as Hfields.
    assert (members'.*1 = members.*1) as Hkeys.
    { clear -Hfields. induction Hfields as [|kv kv' ? ? [Hk _] _ IH]; [done |].
      cbn [fmap list_fmap]. by rewrite Hk, IH. }
    split.
    + intros k Hk. rewrite <- Hmap in Hk.
      apply not_elem_of_list_to_map. rewrite Hkeys. by apply not_elem_of_list_to_map.
    + intros k v Hk Hv.
      assert ((list_to_map members : object) !! k = Some v) as Hin.
      { rewrite Hmap. by apply map_lookup_filter_Some. }
      apply elem_of_list_to_map in Hin; [| done].
      apply list_elem_of_lookup in Hin as (i & Hi).
      destruct (Forall2_lookup_l _ _ _ _ _ Hfields Hi) as ([k' v''] & Hi' & Hk' & t & Ht).
      simpl in *. subst k'. exists t, v''. split; [done |].
      apply elem_of_list_to_map; [by rewrite Hkeys |].
      by eapply list_elem_of_lookup_2.
Qed.

(** *** The first line read by a client *)

Lemma text_frames_line (text more : string) :
  count_nl text = 0%nat →
  text_frames "" (text +:+ LF +:+ more)
  = (text :: (text_frames "" more).1, (text_frames "" more).2).
Proof.
  intros Hnl. rewrite text_frames_app, text_frames_no_newline by done.
  change ("" +:+ text) with text.
  change (LF +:+ more) with (String newline more). cbn [text_frames].
  change (Ascii.eqb newline newline) with true. cbv iota.
  by destruct (text_frames "" more).
Qed.

Lemma call_first_line `{MessageReaderContext G} (datas : list string) (text more : string)
    (events : list event) (body : value) :
  count_nl text = 0%nat →
  join datas = text +:+ LF +:+ more →
  (call (connected (G := G) ((Data <$> datas) ++ events)) body).1
  = on_response (Value (frame_message text)).
Proof.
  intros Hnl Hjoin. unfold call, connected. cbn [client_reader incoming written].
  pose proof (next_spec (messagesReader (None : option G) None)
                ((Data <$> datas) ++ events) eq_refl) as Hnext.
  unfold pending_frames in Hnext at 1.
  cbn [messagesReader buffer chunks join foldr frames_of] in Hnext.
  rewrite stream_frames_chunks in Hnext. cbn [stream_frames] in Hnext.
  rewrite frames_of_split, Hjoin, text_frames_line in Hnext by done.
  destruct (stream_frames _ events) as [frames ending].
  cbn [app this socket_id assign_id] in Hnext.
  destruct Hnext as (r' & events' & _ & _ & Hnext & _).
  by rewrite Hnext.
Qed.

(** ** From the handler to the caller *)

Lemma on_response_object (out : object) :
  on_response (Value (VObj out))
  = if truthy (default VUndefined (out !! "error"))
    then RejectsRemote (RemoteError out)
    else Resolves (default VUndefined (out !! "body")).
Proof. reflexivity. Qed.

Lemma sent_line `{MessageReaderContext G} (data : value) (written : string) (message : value)
    (datas : list string) (more : string) (events : list event) (payload : value) :
  sendResult data written message →
  join datas = written +:+ more →
  (call (connected (G := G) ((Data <$> datas) ++ events)) payload).1
  = on_response (Value message).
Proof.
  intros (text & Htext & ->) Hjoin. rewrite append_assoc in Hjoin.
  destruct (stringify_frame _ _ _ Htext) as [Hnl <-].
  by apply (call_first_line datas _ more).
Qed.

(** X15.  What the handler returns reaches the caller through the wire:
    when the response the service builds is written by [sendResult] and the
    client reads that line, in whatever chunks it comes, [call] resolves
    with the value the text of the body denotes, that is with the body
    after [JSON.stringify] and [JSON.parse], and with [undefined] when the
    handler returned [undefined]. *)
Theorem returned_body_reaches_caller `{MessageReaderContext G} (handler : ServiceHandler)
    (traceErrors : option bool) (request body response : value) (written : string)
    (message : value) (datas : list string) (more : string) (events : list event)
    (payload : value) :
  handler request = Return body →
  respond handler traceErrors request = Return response →
  sendResult response written message →
  join datas = written +:+ more →
  ∃ result,
    (call (connected (G := G) ((Data <$> datas) ++ events)) payload).1 = Resolves result
    ∧ if is_undefined body then result = VUndefined
      else ∃ text, stringify body text result.
Proof.
  intros Hbody Hrespond Hsent Hjoin.
  rewrite (sent_line response written message datas more events payload) by done.
  unfold respond in Hrespond. rewrite Hbody in Hrespond.
  destruct (get_property request "id") as [id|]; [| done].
  injection Hrespond as <-. destruct Hsent as (text & Htext & _).
  destruct (stringify_object_fields _ _ _ Htext) as (out & -> & Hnone & Hsome).
  rewrite on_response_object.
  rewrite (Hnone "error")
    by (apply map_lookup_filter_None_2; left;
        apply lookup_union_None; by simplify_map_eq).
  cbn [default truthy].
  assert (({[ "body" := body ]} ∪ {[ "id" := id ]} : object) !! "body" = Some body) as Hb
    by (by apply lookup_union_Some_l; simplify_map_eq).
  destruct (is_undefined body) eqn:Hu.
  - exists VUndefined. split; [| done]. rewrite (Hnone "body"); [done |].
    apply map_lookup_filter_None_2. right. intros v Hv. simpl. congruence.
  - destruct (Hsome "body" body Hb Hu) as (t & v'' & Hv & ->). by eauto.
Qed.

Lemma returned_body_reaches_caller_witness :
  ∃ result,
    (call (connected (G := CounterIdGen)
             ((Data <$> ["{" +:+ DQ +:+ "id" +:+ DQ +:+ ":" +:+ DQ +:+ "a.0.0" +:+ DQ +:+ ","
                         +:+ DQ +:+ "bo";
                         "dy" +:+ DQ +:+ ":" +:+ DQ +:+ "Hello Socket" +:+ DQ +:+ "}" +:+ LF])
              ++ []))
          (VStr "Socket")).1
    = Resolves result
    ∧ if is_undefined (VStr "Hello Socket") then result = VUndefined
      else ∃ text, stringify (VStr "Hello Socket") text result.
Proof.
  apply (returned_body_reaches_caller (G := CounterIdGen)
           (fun _ => Return (VStr "Hello Socket")) None
           (VObj {[ "id" := VStr "a.0.0"; "body" := VStr "Socket" ]})
           (VStr "Hello Socket")
           (VObj ({[ "body" := VStr "Hello Socket" ]} ∪ {[ "id" := VStr "a.0.0" ]}))
           ("{" +:+ DQ +:+ "id" +:+ DQ +:+ ":" +:+ DQ +:+ "a.0.0" +:+ DQ +:+ ","
            +:+ DQ +:+ "body" +:+ DQ +:+ ":" +:+ DQ +:+ "Hello Socket" +:+ DQ +:+ "}" +:+ LF)
           (VObj (list_to_map [("id", VStr "a.0.0"); ("body", VStr "Hello Socket")]))
           ["{" +:+ DQ +:+ "id" +:+ DQ +:+ ":" +:+ DQ +:+ "a.0.0" +:+ DQ +:+ ","
            +:+ DQ +:+ "bo";
            "dy" +:+ DQ +:+ ":" +:+ DQ +:+ "Hello Socket" +:+ DQ +:+ "}" +:+ LF]
           "" [] (VStr "Socket")).
  - reflexivity.
  - reflexivity.
  - exists ("{"%char :: (quote "id" ++ ":"%char :: quote "a.0.0" ++ ","%char
                          :: quote "body" ++ ":"%char :: quote "Hello Socket")
            ++ ["}"%char])%list.
    split; [| vm_compute; reflexivity].
    apply (stringify_object _ [("id", VStr "a.0.0"); ("body", VStr "Hello Socket")]).
    + vm_compute. repeat constructor; set_unfold; intuition discriminate.
    + vm_compute. reflexivity.
    + apply stringify_member; [reflexivity | by apply stringify_text |].
      apply stringify_last_member; [reflexivity | by apply stringify_text].
  - vm_compute. reflexivity.
Defined.

Lemma stringify_text_inv (s : string) (text : list ascii) (v' : value) :
  stringify (VStr s) text v' → v' = VStr s.
Proof. by inversion 1. Qed.

Lemma written_properties_lookup (props : object) (k : string) :
  written_properties props !! k
  = match props !! k with
    | Some v => if is_undefined v then None else Some v
    | None => None
    end.
Proof.
  unfold written_properties. destruct (props !! k) as [v|] eqn:Hk.
  - destruct (is_undefined v) eqn:Hv.
    + apply map_lookup_filter_None_2. right. intros v' Hv'. simpl. congruence.
    + by apply map_lookup_filter_Some.
  - apply map_lookup_filter_None_2. by left.
Qed.

(** X17.  A failure thrown by the handler reaches the caller through the
    wire: when the response is written by [sendResult] and the client reads
    that line, in whatever chunks it comes, [call] rejects with a
    RemoteError whose message is the failure's message (one that is not
    empty), whose [type] is the failure's name, whose own name is [Error]
    and whose [id] is the request's as the wire carries it.  The details
    of an ErrorResponse come along as the wire carries them, and its trace
    never does; the trace of another failure comes, behind ["Error: "],
    only when traces are on. *)
Theorem thrown_failure_reaches_caller `{MessageReaderContext G} (handler : ServiceHandler)
    (traceErrors : option bool) (request id : value) (e : JsError)
    (message name stack : string) (response : value) (written : string)
    (wire_message : value) (datas : list string) (more : string) (events : list event)
    (payload : value) :
  get_property request "id" = Return id →
  handler request = Throw (ThrownError e) →
  error_prop e "message" = VStr message →
  message ≠ "" →
  error_prop e "name" = VStr name →
  error_prop e "stack" = VStr stack →
  respond handler traceErrors request = Return response →
  sendResult response written wire_message →
  join datas = written +:+ more →
  ∃ err,
    (call (connected (G := G) ((Data <$> datas) ++ events)) payload).1
    = RejectsRemote (Some err)
    ∧ error_prop err "message" = VStr message
    ∧ error_prop err "type" = VStr name
    ∧ error_prop err "name" = VStr "Error"
    ∧ (if is_undefined id then error_prop err "id" = VUndefined
       else ∃ text, stringify id text (error_prop err "id"))
    ∧ (cls e = ErrorResponseClass →
       (if is_undefined (error_prop e "details")
        then error_prop err "details" = VUndefined
        else ∃ text, stringify (error_prop e "details") text (error_prop err "details"))
       ∧ error_prop err "stack" = VStr "")
    ∧ (cls e ≠ ErrorResponseClass →
       error_prop err "stack"
       = VStr (if default false traceErrors
               then match stack with
                    | EmptyString => ""
                    | String _ _ => "Error: " +:+ stack
                    end
               else "")).
Proof.
  intros Hid Hthrow Hmsg Hne Hname Hstack Hrespond Hsent Hjoin.
  rewrite (sent_line response written wire_message datas more events payload) by done.
  set (m := asMessageError (ThrownError e) (default false traceErrors) ∪ {[ "id" := id ]}).
  assert (response = VObj m) as ->.
  { unfold respond in Hrespond. rewrite Hid, Hthrow in Hrespond.
    by injection Hrespond as <-. }
  assert (m !! "error" = Some (VStr message)) as He.
  { subst m. apply lookup_union_Some_l. unfold asMessageError.
    destruct (instanceof_ErrorResponse e), (default false traceErrors);
      rewrite <- Hmsg; by simplify_map_eq. }
  assert (m !! "type" = Some (VStr name)) as Ht.
  { subst m. apply lookup_union_Some_l. unfold asMessageError.
    destruct (instanceof_ErrorResponse e), (default false traceErrors);
      rewrite <- Hname; by simplify_map_eq. }
  assert (m !! "id" = Some id) as Hi.
  { subst m. destruct (asMessageError_keys (ThrownError e) (default false traceErrors))
      as (_ & _ & Hi & _). rewrite lookup_union_r by done. by simplify_map_eq. }
  assert (m !! "message" = None ∧ m !! "name" = None ∧ m !! "__proto__" = None)
    as (Hm & Hn & Hp).
  { subst m. unfold asMessageError.
    destruct (instanceof_ErrorResponse e), (default false traceErrors);
      split_and!; apply lookup_union_None; split; by simplify_map_eq. }
  assert (m !! "stack"
          = if instanceof_ErrorResponse e then None
            else if default false traceErrors then Some (VStr stack) else None) as Hst.
  { subst m. unfold asMessageError.
    destruct (instanceof_ErrorResponse e), (default false traceErrors);
      try (apply lookup_union_None; split; by simplify_map_eq).
    apply lookup_union_Some_l. rewrite <- Hstack. by simplify_map_eq. }
  assert (m !! "details"
          = if instanceof_ErrorResponse e then Some (error_prop e "details") else None)
    as Hd.
  { subst m. unfold asMessageError.
    destruct (instanceof_ErrorResponse e), (default false traceErrors);
      try (apply lookup_union_None; split; by simplify_map_eq);
      apply lookup_union_Some_l; by simplify_map_eq. }
  destruct Hsent as (text & Htext & _).
  destruct (stringify_object_fields _ _ _ Htext) as (out & -> & Hnone & Hsome).
  clearbody m.
  assert (∀ k s, m !! k = Some (VStr s) → out !! k = Some (VStr s)) as Htexts.
  { intros k s Hk. destruct (Hsome k (VStr s) Hk eq_refl) as (t & v'' & Hv & ->).
    by apply stringify_text_inv in Hv as ->. }
  assert (∀ k, m !! k = None → out !! k = None) as Habsent.
  { intros k Hk. apply Hnone. by rewrite written_properties_lookup, Hk. }
  assert (out !! "stack" = m !! "stack") as Hst'.
  { destruct (instanceof_ErrorResponse e), (default false traceErrors); rewrite Hst;
      (by apply Htexts) || (by apply Habsent). }
  rewrite on_response_object, (Htexts "error" message He).
  change (default VUndefined (Some (VStr message))) with (VStr message).
  replace (truthy (VStr message)) with true by (by destruct message).
  destruct (RemoteError_own out message (Htexts "error" message He)) as (stack' & -> & Hstack').
  { rewrite Hst', Hst. by destruct (instanceof_ErrorResponse e), (default false traceErrors). }
  { intros p Hproto. by rewrite (Habsent "__proto__" Hp) in Hproto. }
  eexists. split; [done |].
  assert (∀ k, k ≠ "error" → k ≠ "stack" → k ≠ "__proto__" → k ≠ "message" →
               own (mkJsError RemoteErrorClass
                      (delete "__proto__" (delete "stack" (delete "error" out))
                       ∪ <[ "stack" := VStr stack' ]> {[ "message" := VStr message ]})) !! k
               = out !! k) as Hown.
  { intros k ? ? ? ?. cbn [own]. destruct (out !! k) as [x|] eqn:Hk.
    - apply lookup_union_Some_l. by rewrite !lookup_delete_ne.
    - apply lookup_union_None. split; [by rewrite !lookup_delete_ne |].
      by rewrite lookup_insert_ne, lookup_singleton_ne. }
  assert (error_prop (mkJsError RemoteErrorClass
                        (delete "__proto__" (delete "stack" (delete "error" out))
                         ∪ <[ "stack" := VStr stack' ]> {[ "message" := VStr message ]}))
                     "stack" = VStr stack') as Hstk.
  { unfold error_prop. cbn [own].
    rewrite lookup_union_r by (by rewrite lookup_delete_ne, lookup_delete_eq).
    by rewrite lookup_insert_eq. }
  split_and!.
  - unfold error_prop. cbn [own].
    rewrite lookup_union_r
      by (rewrite !lookup_delete_ne by done; by apply Habsent).
    by rewrite lookup_insert_ne, lookup_singleton_eq.
  - unfold error_prop. rewrite Hown by done. by rewrite (Htexts "type" name Ht).
  - unfold error_prop. rewrite Hown by done. by rewrite (Habsent "name" Hn).
  - unfold error_prop. rewrite Hown by done.
    destruct (is_undefined id) eqn:Hu.
    + by rewrite Hnone by (by rewrite written_properties_lookup, Hi, Hu).
    + destruct (Hsome "id" id Hi Hu) as (t & v'' & Hv & ->). by eauto.
  - intros Hcls. unfold instanceof_ErrorResponse in Hst, Hd. rewrite Hcls in Hst, Hd.
    split.
    + unfold error_prop at 2 4. rewrite Hown by done.
      destruct (is_undefined (error_prop e "details")) eqn:Hu.
      * by rewrite Hnone by (by rewrite written_properties_lookup, Hd, Hu).
      * destruct (Hsome "details" _ Hd Hu) as (t & v'' & Hv & ->). by eauto.
    + rewrite Hstk, Hstack', Hst', Hst. done.
  - intros Hcls. rewrite Hstk, Hstack', Hst', Hst.
    unfold instanceof_ErrorResponse. destruct (cls e); try done;
      by destruct (default false traceErrors), stack.
Qed.

Lemma thrown_failure_reaches_caller_witness :
  ∃ err,
    (call (connected (G := CounterIdGen)
             ((Data <$> ["{" +:+ DQ +:+ "id" +:+ DQ +:+ ":" +:+ DQ +:+ "a.0.0" +:+ DQ +:+ ","
                         +:+ DQ +:+ "error" +:+ DQ +:+ ":" +:+ DQ +:+ "Name is invalid" +:+ DQ
                         +:+ "," +:+ DQ +:+ "type" +:+ DQ +:+ ":" +:+ DQ +:+ "Error" +:+ DQ
                         +:+ "," +:+ DQ +:+ "details" +:+ DQ +:+ ":{" +:+ DQ +:+ "name" +:+ DQ
                         +:+ ":" +:+ DQ +:+ "socket" +:+ DQ +:+ "}}" +:+ LF])
              ++ []))
          (VStr "socket")).1
    = RejectsRemote (Some err)
    ∧ error_prop err "message" = VStr "Name is invalid"
    ∧ error_prop err "type" = VStr "Error"
    ∧ error_prop err "name" = VStr "Error"
    ∧ (if is_undefined (VStr "a.0.0") then error_prop err "id" = VUndefined
       else ∃ text, stringify (VStr "a.0.0") text (error_prop err "id"))
    ∧ (cls (ErrorResponse "Name is invalid" (VObj {[ "name" := VStr "socket" ]}) "at handler")
       = ErrorResponseClass →
       (if is_undefined
             (error_prop (ErrorResponse "Name is invalid" (VObj {[ "name" := VStr "socket" ]})
                            "at handler") "details")
        then error_prop err "details" = VUndefined
        else ∃ text,
            stringify
              (error_prop (ErrorResponse "Name is invalid" (VObj {[ "name" := VStr "socket" ]})
                             "at handler") "details")
              text (error_prop err "details"))
       ∧ error_prop err "stack" = VStr "")
    ∧ (cls (ErrorResponse "Name is invalid" (VObj {[ "name" := VStr "socket" ]}) "at handler")
       ≠ ErrorResponseClass →
       error_prop err "stack"
       = VStr (if default false (Some true)
               then match "at handler" with
                    | EmptyString => ""
                    | String _ _ => "Error: " +:+ "at handler"
                    end
               else "")).
Proof.
  apply (thrown_failure_reaches_caller (G := CounterIdGen)
           (fun _ => Throw (ThrownError
                              (ErrorResponse "Name is invalid"
                                 (VObj {[ "name" := VStr "socket" ]}) "at handler")))
           (Some true) (VObj {[ "id" := VStr "a.0.0"; "body" := VStr "socket" ]})
           (VStr "a.0.0")
           (ErrorResponse "Name is invalid" (VObj {[ "name" := VStr "socket" ]}) "at handler")
           "Name is invalid" "Error" "at handler"
           (VObj (asMessageError
                    (ThrownError (ErrorResponse "Name is invalid"
                                    (VObj {[ "name" := VStr "socket" ]}) "at handler"))
                    true
                  ∪ {[ "id" := VStr "a.0.0" ]}))
           ("{" +:+ DQ +:+ "id" +:+ DQ +:+ ":" +:+ DQ +:+ "a.0.0" +:+ DQ +:+ ","
            +:+ DQ +:+ "error" +:+ DQ +:+ ":" +:+ DQ +:+ "Name is invalid" +:+ DQ
            +:+ "," +:+ DQ +:+ "type" +:+ DQ +:+ ":" +:+ DQ +:+ "Error" +:+ DQ
            +:+ "," +:+ DQ +:+ "details" +:+ DQ +:+ ":{" +:+ DQ +:+ "name" +:+ DQ
            +:+ ":" +:+ DQ +:+ "socket" +:+ DQ +:+ "}}" +:+ LF)
           (VObj (list_to_map
                    [("id", VStr "a.0.0"); ("error", VStr "Name is invalid");
                     ("type", VStr "Error");
                     ("details", VObj (list_to_map [("name", VStr "socket")]))]))
           ["{" +:+ DQ +:+ "id" +:+ DQ +:+ ":" +:+ DQ +:+ "a.0.0" +:+ DQ +:+ ","
            +:+ DQ +:+ "error" +:+ DQ +:+ ":" +:+ DQ +:+ "Name is invalid" +:+ DQ
            +:+ "," +:+ DQ +:+ "type" +:+ DQ +:+ ":" +:+ DQ +:+ "Error" +:+ DQ
            +:+ "," +:+ DQ +:+ "details" +:+ DQ +:+ ":{" +:+ DQ +:+ "name" +:+ DQ
            +:+ ":" +:+ DQ +:+ "socket" +:+ DQ +:+ "}}" +:+ LF]
           "" [] (VStr "socket")).
  - reflexivity.
  - reflexivity.
  - reflexivity.
  - discriminate.
  - reflexivity.
  - reflexivity.
  - reflexivity.
  - exists ("{"%char
            :: (quote "id" ++ ":"%char :: quote "a.0.0" ++ ","%char
                :: quote "error" ++ ":"%char :: quote "Name is invalid" ++ ","%char
                :: quote "type" ++ ":"%char :: quote "Error" ++ ","%char
                :: quote "details" ++ ":"%char
                :: ("{"%char :: (quote "name" ++ ":"%char :: quote "socket") ++ ["}"%char]))
            ++ ["}"%char])%list.
    split; [| vm_compute; reflexivity].
    apply (stringify_object _
             [("id", VStr "a.0.0"); ("error", VStr "Name is invalid");
              ("type", VStr "Error"); ("details", VObj {[ "name" := VStr "socket" ]})]).
    + vm_compute. repeat constructor; set_unfold; intuition discriminate.
    + vm_compute. reflexivity.
    + apply stringify_member; [reflexivity | by apply stringify_text |].
      apply stringify_member; [reflexivity | by apply stringify_text |].
      apply stringify_member; [reflexivity | by apply stringify_text |].
      apply stringify_last_member; [reflexivity |].
      apply (stringify_object _ [("name", VStr "socket")]).
      * vm_compute. repeat constructor; set_unfold; intuition discriminate.
      * vm_compute. reflexivity.
      * apply stringify_last_member; [reflexivity | by apply stringify_text].
  - vm_compute. reflexivity.
Defined.

(** ** Framing *)

(** X28.  What [sendResult] writes arrives as one message: the line it
    writes for a value (of those the model of [JSON.stringify] covers) has
    no newline inside, so a reader on the other side, however the stream
    is cut into chunks, yields exactly one message for it, the value that
    the text denotes, and nothing else. *)
Theorem sent_message_arrives_whole `{MessageReaderContext G} (data : value)
    (written : string) (message : value) (datas : list string) (sid : option string)
    (rest : list event) :
  sendResult data written message →
  join datas = written →
  count_nl written = 1%nat
  ∧ drain (messagesReader (None : option G) sid) ((Data <$> datas) ++ End :: rest)
    = ([message], Some Done).
Proof.
  intros (text & Htext & ->) Hjoin.
  destruct (stringify_frame _ _ _ Htext) as [Hnl Hmessage].
  split; [by rewrite count_nl_app, Hnl |].
  rewrite drain_unbound_stream, Hjoin, <- text_frames_split.
  rewrite <- (append_nil_r LF), text_frames_line by done.
  cbn [text_frames fst fmap list_fmap]. by rewrite Hmessage.
Qed.

Lemma sent_message_arrives_whole_witness :
  count_nl ("{" +:+ DQ +:+ "body" +:+ DQ +:+ ":[null,-12," +:+ DQ +:+ "a\nb" +:+ DQ
            +:+ "]}" +:+ LF) = 1%nat
  ∧ drain (messagesReader (None : option CounterIdGen) None)
          ((Data <$> ["{" +:+ DQ +:+ "body" +:+ DQ +:+ ":[nu";
                      "ll,-12," +:+ DQ +:+ "a\nb" +:+ DQ +:+ "]}" +:+ LF])
           ++ End :: [])
    = ([VObj (list_to_map
                [("body", VArr [VNull; VNum (-12) 0; VStr ("a" +:+ LF +:+ "b")] ∅)])],
       Some Done).
Proof.
  apply (sent_message_arrives_whole (G := CounterIdGen)
           (VObj {[ "body" := VArr [VUndefined; VNum (-12) 0; VStr ("a" +:+ LF +:+ "b")]
                                {[ "tag" := VBool true ]};
                    "later" := VUndefined ]})).
  - exists ("{"%char
            :: (quote "body" ++ ":"%char
                :: ("["%char
                    :: (list_ascii_of_string "null" ++ ","%char
                        :: list_ascii_of_string (integer_text 10 (-12)) ++ ","%char
                        :: quote ("a" +:+ LF +:+ "b"))
                    ++ ["]"%char]))
            ++ ["}"%char])%list.
    split; [| vm_compute; reflexivity].
    apply (stringify_object _
             [("body", VArr [VUndefined; VNum (-12) 0; VStr ("a" +:+ LF +:+ "b")]
                            {[ "tag" := VBool true ]})]
             _ [("body", VArr [VNull; VNum (-12) 0; VStr ("a" +:+ LF +:+ "b")] ∅)]).
    + vm_compute. repeat constructor; set_unfold; intuition discriminate.
    + vm_compute. reflexivity.
    + apply stringify_last_member; [reflexivity |].
      apply stringify_array. apply stringify_element_undefined.
      apply stringify_element; [by apply stringify_integer |].
      apply stringify_last. by apply stringify_text.
  - vm_compute. reflexivity.
Defined.
